(** * terraform_deps: dependency map of Terraform roots and modules

    A shallow embedding of [terraform_deps.py] and the properties of its
    graph builder ([build_dependency_dict]) and of its reverse reachability
    query ([find_mods_affected]).

    Python values are embedded as follows.
    - [str] is [string]; the path functions of [os.path] (posixpath) are
      transcribed on strings, component lists being [list string].
    - [defaultdict(set)] is [gmap string (gset string)], a missing key
      standing for the empty set.
    - The process state read and written by [os.getcwd]/[os.chdir] is the
      field [cwd] of [state]; the table of [functools.lru_cache] is the
      field [cache], most recently used key first.
    - The directory tree is a [filesystem] without symbolic links. The
      calls that go to the kernel ([os.path.isdir], [os.listdir],
      [os.chdir], [open]) resolve their path one component at a time
      ([resolve]); the functions of [os.path] that only compute on text
      ([abspath], [relpath], [join]) do not look at the tree.
    - An exception is the constructor [Raise] of [result]; the interpreter's
      bound on nested calls ([sys.getrecursionlimit]) is the argument
      [limit], and running past it raises [RecursionError]. *)

From stdpp Require Import base strings list gmap.
From Stdlib Require Import Ascii Lia.


(** ** Python string primitives *)

Module Str.

(** [s.startswith(p)] *)
Definition startswith (p s : string) : bool := String.prefix p s.

(** [s.endswith(suf)] *)
Fixpoint endswith (suf s : string) : bool :=
  if String.eqb s suf then true
  else match s with
       | EmptyString => false
       | String _ s' => endswith suf s'
       end.

(** [sub in s] *)
Fixpoint contains (sub s : string) : bool :=
  if String.prefix sub s then true
  else match s with
       | EmptyString => false
       | String _ s' => contains sub s'
       end.

(** [s.split("/")] *)
Fixpoint split (s : string) : list string :=
  match s with
  | EmptyString => [EmptyString]
  | String c s' =>
      if Ascii.eqb c "/"%char then EmptyString :: split s'
      else match split s' with
           | w :: ws => String c w :: ws
           | [] => [String c EmptyString]
           end
  end.

(** ["/".join(l)] *)
Definition join (l : list string) : string := String.concat "/" l.

(** [sep * n] for the separator *)
Fixpoint slashes (n : nat) : string :=
  match n with
  | 0 => EmptyString
  | S n' => String "/"%char (slashes n')
  end.

End Str.

(** ** posixpath *)

Module Posixpath.

Definition isabs (s : string) : bool := Str.startswith "/" s.

(** [os.path.join(a, b)] with one extra component *)
Definition join2 (a b : string) : string :=
  if Str.startswith "/" b then b
  else if (String.eqb a "" || Str.endswith "/" a)%bool then a +:+ b
  else a +:+ "/" +:+ b.

(** [os.path.join(a, *p)] *)
Definition join (a : string) (p : list string) : string :=
  foldl join2 a p.

(** The loop of [normpath] over the components, [new_comps] kept reversed
    (its last element is the head of [acc]). *)
Fixpoint norm_comps (initial_slashes : nat) (acc : list string)
    (comps : list string) : list string :=
  match comps with
  | [] => rev acc
  | comp :: comps' =>
      if (String.eqb comp "" || String.eqb comp ".")%bool
      then norm_comps initial_slashes acc comps'
      else if (negb (String.eqb comp "..")
               || (Nat.eqb initial_slashes 0 && match acc with [] => true | _ => false end)
               || match acc with c :: _ => String.eqb c ".." | [] => false end)%bool
      then norm_comps initial_slashes (comp :: acc) comps'
      else match acc with
           | _ :: acc' => norm_comps initial_slashes acc' comps'
           | [] => norm_comps initial_slashes acc comps'
           end
  end.

Definition initial_slashes (path : string) : nat :=
  if Str.startswith "/" path then
    if (Str.startswith "//" path && negb (Str.startswith "///" path))%bool
    then 2 else 1
  else 0.

Definition normpath (path : string) : string :=
  if String.eqb path "" then "."
  else
    let i := initial_slashes path in
    let comps := norm_comps i [] (Str.split path) in
    let path' := Str.slashes i +:+ Str.join comps in
    if String.eqb path' "" then "." else path'.

(** [os.path.abspath(path)], the working directory made explicit *)
Definition abspath (cwd path : string) : string :=
  normpath (if isabs path then path else join2 cwd path).

(** length of [commonprefix([l1, l2])] on component lists *)
Fixpoint common_len (l1 l2 : list string) : nat :=
  match l1, l2 with
  | x :: l1', y :: l2' => if String.eqb x y then S (common_len l1' l2') else 0
  | _, _ => 0
  end.

(** [[x for x in abspath(p).split(sep) if x]] *)
Definition components (cwd p : string) : list string :=
  filter (λ x, x ≠ "") (Str.split (abspath cwd p)).

(** [os.path.relpath(path, start)]; [None] is the [ValueError] raised for
    an empty [path]. *)
Definition relpath (cwd path start : string) : option string :=
  if String.eqb path "" then None
  else
    let start_list := components cwd start in
    let path_list := components cwd path in
    let i := common_len start_list path_list in
    let rel_list := replicate (List.length start_list - i) ".." ++ drop i path_list in
    match rel_list with
    | [] => Some "."
    | a :: p => Some (join a p)
    end.

End Posixpath.

(** ** Exceptions, the file system and the interpreter state *)

Inductive exn : Set :=
| NotADirectory   (** the [Exception] raised by [get_tf_files] *)
| OSError         (** [open], [os.listdir] or [os.chdir] failing *)
| ParseError      (** [hcl2.loads] rejecting the text *)
| TypeError
| ValueError
| RecursionError.

Inductive result (A : Type) : Type :=
| Ok (a : A)
| Raise (e : exn).
Arguments Ok {A} a.
Arguments Raise {A} e.

(** A directory tree without symbolic links, keyed by canonical absolute
    paths: [fs_listdir] gives the entries of a directory ([None] when the
    path is not a directory) and [fs_read] the text of a readable file.
    The tables are reached from a path as the kernel reaches an entry, one
    component at a time ([resolve] below). *)
Record filesystem : Type := {
  fs_listdir : string → option (list string);
  fs_read : string → option string
}.

(** What [hcl2.loads] returns, as far as [extract_sources] reads it: a dict
    from block type to a list of one-entry dicts, name to body. Dicts are
    association lists in insertion order. *)
Definition module_dict : Type := list (string * string).
Definition block : Type := list (string * module_dict).
Definition tf_dict : Type := list (string * list block).

(** [d.get(k)] *)
Fixpoint dict_get {V : Type} (k : string) (d : list (string * V)) : option V :=
  match d with
  | [] => None
  | (k', v) :: d' => if String.eqb k' k then Some v else dict_get k d'
  end.

Record state : Type := {
  cwd : string;
  dependents : gmap string (gset string);
  cache : list string
}.

Definition set_cwd (c : string) (st : state) : state :=
  {| cwd := c; dependents := dependents st; cache := cache st |}.
Definition set_dependents (d : gmap string (gset string)) (st : state) : state :=
  {| cwd := cwd st; dependents := d; cache := cache st |}.
Definition set_cache (c : list string) (st : state) : state :=
  {| cwd := cwd st; dependents := dependents st; cache := c |}.

(** Computations that read and write the state and may raise. *)
Definition M (A : Type) : Type := state → result (A * state).

Definition ret {A : Type} (a : A) : M A := λ st, Ok (a, st).
Definition raise {A : Type} (e : exn) : M A := λ _, Raise e.
Definition bind {A B : Type} (m : M A) (k : A → M B) : M B :=
  λ st, match m st with
        | Ok (a, st') => k a st'
        | Raise e => Raise e
        end.

Notation "'let*' x := m 'in' k" := (bind m (λ x, k))
  (at level 10, x binder, m at level 100, k at level 200).
Notation "m >> k" := (bind m (λ _, k))
  (at level 100, k at level 200, right associativity).

(** [for x in l: body(x)] *)
Fixpoint for_each {A : Type} (l : list A) (body : A → M unit) : M unit :=
  match l with
  | [] => ret tt
  | x :: l' => body x >> for_each l' body
  end.

(** [functools.lru_cache()]: at most [maxsize] keys, the least recently
    used one dropped when a new key is stored in a full table. *)
Module Lru.

Definition maxsize : nat := 128.

Definition mem (k : string) (c : list string) : bool := bool_decide (k ∈ c).

(** a hit moves the key to the front *)
Definition touch (k : string) (c : list string) : list string :=
  k :: List.filter (λ x, negb (String.eqb x k)) c.

(** storing after the call: nothing if the key got in meanwhile *)
Definition store (k : string) (c : list string) : list string :=
  if mem k c then c
  else if Nat.ltb (List.length c) maxsize then k :: c
  else k :: removelast c.

End Lru.

(** ** The program *)

Section Program.

Variable fs : filesystem.
(** [hcl2.loads], the parser of the [python-hcl2] package; [None] when it
    raises. *)
Variable hcl2_loads : string → option tf_dict.

(** The canonical absolute path that [path] names when it is read as
    text: the components of [abspath], behind a single slash. *)
Definition realpath (cwd_ path : string) : string :=
  "/" +:+ Str.join (Posixpath.components cwd_ path).

(** the canonical path of the directory below the root whose names are
    [cur], innermost first *)
Definition path_of (cur : list string) : string := "/" +:+ Str.join (rev cur).

(** Path resolution as the kernel does it, in a tree without symbolic
    links: the components are taken one at a time; for any of them, the
    empty one and [.] included, the entry reached so far must be a
    directory; [..] leads to the parent, the root being its own parent. A
    path through a name that is missing, or that is not a directory, is not
    resolved. *)
Fixpoint walk (cur : list string) (comps : list string) : option (list string) :=
  match comps with
  | [] => Some cur
  | comp :: comps' =>
      if bool_decide (is_Some (fs_listdir fs (path_of cur))) then
        if (String.eqb comp "" || String.eqb comp ".")%bool then walk cur comps'
        else if String.eqb comp ".." then walk (tail cur) comps'
        else walk (comp :: cur) comps'
      else None
  end.

(** The canonical path that [path] leads to in a process whose working
    directory is [cwd_], whatever is found there in the end: an absolute
    path is resolved from the root, a relative one from the working
    directory, itself reached from the root; the empty path leads
    nowhere. *)
Definition resolve (cwd_ path : string) : option string :=
  if String.eqb path "" then None
  else
    path_of <$>
      walk [] ((if Posixpath.isabs path then [] else Str.split cwd_) ++ Str.split path).

(** the entries of the directory that [path] names *)
Definition listing (cwd_ path : string) : option (list string) :=
  resolve cwd_ path ≫= fs_listdir fs.

(** the text of the file that [path] names *)
Definition contents (cwd_ path : string) : option string :=
  resolve cwd_ path ≫= fs_read fs.

(** [os.path.isdir(path)] *)
Definition isdir (path : string) : M bool :=
  λ st, Ok (bool_decide (is_Some (listing (cwd st) path)), st).

(** [os.listdir(path)] *)
Definition listdir (path : string) : M (list string) :=
  λ st, match listing (cwd st) path with
        | Some l => Ok (l, st)
        | None => Raise OSError
        end.

(** [open(path).read()] *)
Definition read_file (path : string) : M string :=
  λ st, match contents (cwd st) path with
        | Some data => Ok (data, st)
        | None => Raise OSError
        end.

(** [os.chdir(path)]: the working directory becomes the directory that
    [path] names, under its canonical path as [os.getcwd] gives it *)
Definition chdir (path : string) : M unit :=
  λ st, match resolve (cwd st) path with
        | Some dir =>
            match fs_listdir fs dir with
            | Some _ => Ok (tt, set_cwd dir st)
            | None => Raise OSError
            end
        | None => Raise OSError
        end.

(** [os.path.abspath(path)] *)
Definition abspath (path : string) : M string :=
  λ st, Ok (Posixpath.abspath (cwd st) path, st).

(** [os.path.relpath(path, start)] *)
Definition relpath (path start : string) : M string :=
  λ st, match Posixpath.relpath (cwd st) path start with
        | Some r => Ok (r, st)
        | None => Raise ValueError
        end.

(** [dependents[k].add(v)] on the [defaultdict(set)] *)
Definition add_dependent (k v : string) : M unit :=
  λ st, Ok (tt, set_dependents
                  (<[k := {[v]} ∪ default ∅ (dependents st !! k)]> (dependents st)) st).

(** The two nested loops of [extract_sources] over the parsed text; a
    module body without a [source] key contributes [None]. *)
Definition module_sources (tf : tf_dict) : list (option string) :=
  m ← default [] (dict_get "module" tf);
  '(_, body) ← m;
  [dict_get "source" body].

Definition extract_sources (path : string) : M (list (option string)) :=
  let* data := read_file path in
  if Str.contains "source " data then
    match hcl2_loads data with
    | Some tf => ret (module_sources tf)
    | None => raise ParseError
    end
  else ret [].

Definition get_tf_files (path : string) : M (list string) :=
  let* d := isdir path in
  if negb d then raise NotADirectory
  else
    let* files := listdir path in
    ret (List.filter (Str.endswith ".tf") files).

Section FindDeps.

Variable start_dir : string.

(** The body of the innermost loop of [find_deps_for_dir], the recursive
    call abstracted as [recurse]. *)
Definition visit_source (recurse : string → M unit) (tf_dir : string)
    (source : option string) : M unit :=
  match source with
  | None => raise TypeError
  | Some source =>
      if Str.contains "./" source then
        chdir tf_dir >>
        let* abs_mod_path := abspath source in
        let* rel_mod_path := relpath abs_mod_path start_dir in
        let* rel_child_path := relpath tf_dir start_dir in
        add_dependent rel_mod_path rel_child_path >>
        recurse abs_mod_path
      else ret tt
  end.

Definition visit_file (recurse : string → M unit) (tf_dir file : string) : M unit :=
  let* sources := extract_sources (Posixpath.join tf_dir [file]) in
  for_each sources (visit_source recurse tf_dir).

(** [find_deps_for_dir] behind its [lru_cache] wrapper. [limit] is the
    number of nested activations the interpreter still allows. *)
Fixpoint find_deps_for_dir (limit : nat) (tf_dir : string) : M unit :=
  match limit with
  | 0 => raise RecursionError
  | S limit' =>
      λ st,
        if Lru.mem tf_dir (cache st)
        then Ok (tt, set_cache (Lru.touch tf_dir (cache st)) st)
        else
          (let* files := get_tf_files tf_dir in
           for_each files (visit_file (find_deps_for_dir limit') tf_dir) >>
           λ st', Ok (tt, set_cache (Lru.store tf_dir (cache st')) st')) st
  end.

(** The loop of [build_dependency_dict] over the roots. *)
Definition visit_root (limit : nat) (start_root : string) : M unit :=
  chdir start_dir >>
  let* root := abspath start_root in
  find_deps_for_dir limit root.

Definition build_body (limit : nat) (roots : list string) : M unit :=
  chdir start_dir >>
  for_each roots (visit_root limit).

End FindDeps.

(** [build_dependency_dict(roots, start_dir)] called in a process whose
    working directory is [cwd0]: the returned map together with the working
    directory the call leaves behind. *)
Definition build_dependency_dict (limit : nat) (roots : list string)
    (start_dir : string) (cwd0 : string)
  : result (gmap string (gset string) * string) :=
  match build_body start_dir limit roots
          {| cwd := cwd0; dependents := ∅; cache := [] |} with
  | Ok (_, st) => Ok (dependents st, cwd st)
  | Raise e => Raise e
  end.

End Program.

(** every directory above the one named [cur] is a directory: the state of
    a path resolution that has come as far as [cur] *)
Fixpoint traversed (fs : filesystem) (cur : list string) : Prop :=
  match cur with
  | [] => True
  | _ :: above => is_Some (fs_listdir fs (path_of above)) ∧ traversed fs above
  end.

(** ** The reachability query *)

(** [for dep in deps: modules.add(dep); modules = recurse(dep, modules)] *)
Fixpoint affected_loop (recurse : string → gset string → result (gset string))
    (deps : list string) (modules : gset string) : result (gset string) :=
  match deps with
  | [] => Ok modules
  | dep :: deps' =>
      match recurse dep ({[dep]} ∪ modules) with
      | Ok modules' => affected_loop recurse deps' modules'
      | Raise e => Raise e
      end
  end.

(** [find_mods_affected(subject, modules, deps_dict)]; the set
    [deps_dict.get(subject, [])] is iterated in the order of [elements]. *)
Fixpoint find_mods_affected (limit : nat) (subject : string)
    (modules : gset string) (deps_dict : gmap string (gset string))
  : result (gset string) :=
  match limit with
  | 0 => Raise RecursionError
  | S limit' =>
      affected_loop (λ dep modules', find_mods_affected limit' dep modules' deps_dict)
        (elements (default ∅ (deps_dict !! subject))) modules
  end.

(** ** Fixtures for the query *)

(** A dependency map is acyclic when its nodes can be ranked so that every
    dependent ranks below the node it depends on. *)
Definition ranked (deps_dict : gmap string (gset string)) (rank : string → nat) : Prop :=
  ∀ k s v, deps_dict !! k = Some s → v ∈ s → rank v < rank k.

(** the map of a two-node cycle: A is in deps[B] and B is in deps[A] *)
Definition cyclic_deps : gmap string (gset string) :=
  {[ "A" := {["B"]}; "B" := {["A"]} ]}.

(** the chain a -> b -> c, reversed: deps[c] = {b}, deps[b] = {a} *)
Definition chain_deps : gmap string (gset string) :=
  {[ "c" := {["b"]}; "b" := {["a"]} ]}.

Definition chain_rank (s : string) : nat :=
  if String.eqb s "c" then 2 else if String.eqb s "b" then 1 else 0.

(** ** The module graph read off the file system *)

(** What the builder sees of a tree, for absolute directory names: the
    [.tf] files of a directory, the sources declared in a file, and the
    directory a relative source leads to. These are the readings that
    [get_tf_files], [extract_sources] and the path calls of
    [find_deps_for_dir] make; the facts below relate the two. *)
Section Graph.

Variable fs : filesystem.
Variable hcl2_loads : string → option tf_dict.
Variable start_dir : string.

(** the canonical name of an absolute path *)
Definition canon (d : string) : string := realpath "/" d.

Definition tf_files (d : string) : option (list string) :=
  List.filter (Str.endswith ".tf") <$> listing fs "/" d.

Definition file_sources (d f : string) : option (list (option string)) :=
  data ← contents fs "/" (Posixpath.join d [f]);
  if Str.contains "source " data
  then module_sources <$> hcl2_loads data
  else Some [].

(** Every [.tf] file of [d] is read and parsed, and every module block in
    it has a source. *)
Definition dir_ok (d : string) : Prop :=
  ∃ files, tf_files d = Some files ∧
    ∀ f, f ∈ files → ∃ srcs, file_sources d f = Some srcs ∧ None ∉ srcs.

(** [s] is a source declared in [d] that passes the test ["./" in s]. *)
Definition dir_source (d s : string) : Prop :=
  ∃ files f srcs, tf_files d = Some files ∧ f ∈ files ∧
    file_sources d f = Some srcs ∧ Some s ∈ srcs ∧ Str.contains "./" s = true.

(** [abs_mod_path] for the source [s] declared in [d] *)
Definition child (d s : string) : string := Posixpath.abspath (canon d) s.

(** the key under which an absolute directory appears in the map *)
Definition identity (d : string) : string :=
  default "." (Posixpath.relpath "/" d start_dir).

(** The references below [d] form a tree of height at most [n] in which
    every directory is [dir_ok]. *)
Fixpoint good (n : nat) (d : string) : Prop :=
  match n with
  | 0 => False
  | S n' => dir_ok d ∧ ∀ s, dir_source d s → good n' (child d s)
  end.

(** [d'] is reached from [d] by following relative sources. *)
Inductive reach : string → string → Prop :=
| reach_here d : reach d d
| reach_source d s d' : dir_source d s → reach (child d s) d' → reach d d'.

(** the edge recorded for a source of [d]: [v] is added to the entry of [k] *)
Definition edge_at (d k v : string) : Prop :=
  ∃ s, dir_source d s ∧ k = identity (child d s) ∧ v = identity d.

Definition below (d k v : string) : Prop :=
  ∃ d', reach d d' ∧ edge_at d' k v.

End Graph.

(** [v in deps[k]], a missing key being an empty entry *)
Definition in_deps (deps : gmap string (gset string)) (k v : string) : Prop :=
  v ∈ default ∅ (deps !! k).

(** ** Invariants of the builder *)

Section Invariants.

Variable fs : filesystem.
Variable hcl2_loads : string → option tf_dict.
Variable start_dir : string.

(** Every cached directory was expanded to the end: the references below
    it form a finite tree and all its edges are in the map. *)
Definition cache_ok (st : state) : Prop :=
  ∀ c, c ∈ cache st →
    Posixpath.isabs c = true ∧
    (∃ n, good fs hcl2_loads n c) ∧
    ∀ k v, below fs hcl2_loads start_dir c k v → in_deps (dependents st) k v.

(** The map of [st'] is the map of [st] plus the edges [E]. *)
Definition effect (E : string → string → Prop) (st st' : state) : Prop :=
  cache_ok st' ∧
  ∀ k v, in_deps (dependents st') k v ↔ in_deps (dependents st) k v ∨ E k v.

(** The working directory is left where it was, or in a directory reached
    from [d] that declares a relative source. *)
Definition moved (d c c' : string) : Prop :=
  c' = c ∨
  ∃ d', reach fs hcl2_loads d d' ∧ (∃ s, dir_source fs hcl2_loads d' s) ∧ c' = canon d'.

(** the edges recorded for the sources in [srcs], declared in [d] *)
Definition edges_of (d : string) (srcs : list (option string)) (k v : string) : Prop :=
  ∃ s, Some s ∈ srcs ∧ Str.contains "./" s = true ∧
    ((k = identity start_dir (child d s) ∧ v = identity start_dir d)
     ∨ below fs hcl2_loads start_dir (child d s) k v).

(** the state after [os.chdir(d)] and [dependents[k].add(v)] for the source
    [s] declared in [d] *)
Definition recorded (d s : string) (st : state) : state :=
  set_dependents
    (<[identity start_dir (child d s) :=
         {[identity start_dir d]} ∪
         default ∅ (dependents st !! identity start_dir (child d s))]>
       (dependents st))
    (set_cwd (canon d) st).

End Invariants.

(** ** The roots *)

Section Roots.

Variable fs : filesystem.
Variable hcl2_loads : string → option tf_dict.
Variable start_dir : string.

(** [os.path.abspath(start_root)] after [os.chdir(start_dir)] *)
Definition root_dir (start_root : string) : string :=
  Posixpath.abspath (canon start_dir) start_root.

(** an edge recorded below one of the roots *)
Definition below_roots (roots : list string) (k v : string) : Prop :=
  ∃ r, r ∈ roots ∧ below fs hcl2_loads start_dir (root_dir r) k v.

(** where a returning build leaves the process: in [start_dir], or in a
    directory reached from a root that declares a relative source *)
Definition left_at (roots : list string) (c : string) : Prop :=
  c = canon start_dir ∨
  ∃ r d', r ∈ roots ∧ reach fs hcl2_loads (root_dir r) d' ∧
          (∃ s, dir_source fs hcl2_loads d' s) ∧ c = canon d'.

End Roots.

(** ** Fixtures: a repository tree and a table standing for the parser *)

Module Fixtures.

Definition dq : string := String "034"%char "".
Definition nl : string := String "010"%char "".

(** a module block with a source, as [terraform fmt] lays it out *)
Definition module_text (name source : string) : string :=
  "module " +:+ dq +:+ name +:+ dq +:+ " {" +:+ nl +:+
  "  source = " +:+ dq +:+ source +:+ dq +:+ nl +:+ "}" +:+ nl.

(** the same block with no blank around the equals sign, which HCL allows *)
Definition module_text_tight (name source : string) : string :=
  "module " +:+ dq +:+ name +:+ dq +:+ " {" +:+ nl +:+
  "  source=" +:+ dq +:+ source +:+ dq +:+ nl +:+ "}" +:+ nl.

(** a module block that sets a version but no source, next to a resource *)
Definition module_text_no_source (name : string) : string :=
  "module " +:+ dq +:+ name +:+ dq +:+ " {" +:+ nl +:+
  "  version = " +:+ dq +:+ "1.0" +:+ dq +:+ nl +:+ "}" +:+ nl +:+
  "resource " +:+ dq +:+ "null_resource" +:+ dq +:+ " " +:+ dq +:+ "x" +:+ dq +:+ " {}" +:+ nl.

Definition resource_text : string :=
  "resource " +:+ dq +:+ "null_resource" +:+ dq +:+ " " +:+ dq +:+ "x" +:+ dq +:+ " {}" +:+ nl.

Definition output_text : string :=
  "output " +:+ dq +:+ "id" +:+ dq +:+ " {" +:+ nl +:+ "  value = 1" +:+ nl +:+ "}" +:+ nl.

(** the parse of one module block *)
Definition module_block (name source : string) : block :=
  [(name, [("source", source)])].

Definition modules (blocks : list block) : tf_dict := [("module", blocks)].

(** A parser given by its results on the texts of a table; a text outside
    the table has no module block. *)
Definition table_loads (tbl : list (string * tf_dict)) (data : string) : option tf_dict :=
  Some (default [] (dict_get data tbl)).

Definition tree (dirs : list (string * list string)) (files : list (string * string))
  : filesystem :=
  {| fs_listdir := λ p, dict_get p dirs; fs_read := λ p, dict_get p files |}.

Definition R_text : string := module_text "a" "../A" +:+ module_text "b" "../B".
Definition V_text : string :=
  module_text "consul" "hashicorp/consul/aws" +:+ module_text "a" "sub/../../A".

(** The tree of the examples, rooted at [/repo]:
    - [R] declares [A] and [B], which both declare [C] (by two different
      relative strings); [C] declares nothing;
    - [X] and [Y] declare each other;
    - [env/prod] and [env/staging] both declare [modules/vpc];
    - [bad] lists a [main.tf] that cannot be read;
    - [V] declares a registry source and the source [sub/../../A];
    - [N] has a module block without a source;
    - [T] declares [C] with no blank before the equals sign. *)
Definition repo : filesystem :=
  tree
    [("/", ["repo"; "home"]); ("/home", []);
     ("/repo", ["R"; "A"; "B"; "C"; "X"; "Y"; "env"; "modules"; "bad"; "V"; "N"; "T"]);
     ("/repo/R", ["main.tf"; "README.md"]);
     ("/repo/A", ["main.tf"]); ("/repo/B", ["main.tf"]);
     ("/repo/C", ["main.tf"; "outputs.tf"]);
     ("/repo/X", ["main.tf"]); ("/repo/Y", ["main.tf"]);
     ("/repo/env", ["prod"; "staging"]);
     ("/repo/env/prod", ["main.tf"]); ("/repo/env/staging", ["main.tf"]);
     ("/repo/modules", ["vpc"]); ("/repo/modules/vpc", ["main.tf"]);
     ("/repo/bad", ["main.tf"]);
     ("/repo/V", ["main.tf"]); ("/repo/N", ["main.tf"]); ("/repo/T", ["main.tf"])]
    [("/repo/R/main.tf", R_text);
     ("/repo/R/README.md", "the root R");
     ("/repo/A/main.tf", module_text "c" "../C");
     ("/repo/B/main.tf", module_text "c" "./../C");
     ("/repo/C/main.tf", resource_text);
     ("/repo/C/outputs.tf", output_text);
     ("/repo/X/main.tf", module_text "y" "../Y");
     ("/repo/Y/main.tf", module_text "x" "../X");
     ("/repo/env/prod/main.tf", module_text "vpc" "../../modules/vpc");
     ("/repo/env/staging/main.tf", module_text "vpc" "../../modules/vpc");
     ("/repo/modules/vpc/main.tf", resource_text);
     ("/repo/V/main.tf", V_text);
     ("/repo/N/main.tf", module_text_no_source "m");
     ("/repo/T/main.tf", module_text_tight "c" "../C")].

Definition repo_loads : string → option tf_dict :=
  table_loads
    [(R_text, modules [module_block "a" "../A"; module_block "b" "../B"]);
     (module_text "c" "../C", modules [module_block "c" "../C"]);
     (module_text "c" "./../C", modules [module_block "c" "./../C"]);
     (module_text "y" "../Y", modules [module_block "y" "../Y"]);
     (module_text "x" "../X", modules [module_block "x" "../X"]);
     (module_text "vpc" "../../modules/vpc", modules [module_block "vpc" "../../modules/vpc"]);
     (V_text, modules [module_block "consul" "hashicorp/consul/aws";
                       module_block "a" "sub/../../A"]);
     (module_text_no_source "m", modules [[("m", [("version", "1.0")])]]);
     (module_text_tight "c" "../C", modules [module_block "c" "../C"])].

End Fixtures.

(** ** A checker for finite trees *)

Section Checker.

Variable fs : filesystem.
Variable hcl2_loads : string → option tf_dict.

(** the relative sources of the files [files] of [d], if all of them are
    read and parsed and no module block lacks its source *)
Fixpoint scan_files (d : string) (files : list string) : option (list string) :=
  match files with
  | [] => Some []
  | f :: files' =>
      srcs ← file_sources fs hcl2_loads d f;
      rest ← scan_files d files';
      if bool_decide (None ∈ srcs) then None
      else Some (List.filter (Str.contains "./") (omap id srcs) ++ rest)
  end.

Definition scan (d : string) : option (list string) :=
  files ← tf_files fs d; scan_files d files.

(** decides [good n d] from above: [true] only for a tree of height at
    most [n] *)
Fixpoint goodb (n : nat) (d : string) : bool :=
  match n with
  | 0 => false
  | S n' =>
      match scan d with
      | Some srcs => forallb (λ s, goodb n' (child d s)) srcs
      | None => false
      end
  end.

End Checker.

(** ** Reading a result *)

(** the working directory a returning build leaves behind *)
Definition returned_cwd (r : result (gmap string (gset string) * string)) : option string :=
  match r with
  | Ok (_, c) => Some c
  | Raise _ => None
  end.

(** the entry [deps[k]] of the returned map, as a list *)
Definition returned_entry (k : string) (r : result (gmap string (gset string) * string))
  : option (list string) :=
  match r with
  | Ok (deps, _) => Some (elements (default ∅ (deps !! k)))
  | Raise _ => None
  end.

(** ** Full parsing *)

Section FullParse.

Variable fs : filesystem.
Variable hcl2_loads : string → option tf_dict.

(** [extract_sources] with the test for the token removed: the text is
    always handed to the parser. This is the reference the fast path of
    [extract_sources] is compared with. *)
Definition extract_sources_full (path : string) : M (list (option string)) :=
  let* data := read_file fs path in
  match hcl2_loads data with
  | Some tf => ret (module_sources tf)
  | None => raise ParseError
  end.

End FullParse.

(** ** Declared sources *)

(** [s] is one of the sources [extract_sources] returns for a [.tf] file
    of [d]. *)
Definition declares (fs : filesystem) (hcl2_loads : string → option tf_dict)
    (d s : string) : Prop :=
  ∃ files f srcs, tf_files fs d = Some files ∧ f ∈ files ∧
    file_sources fs hcl2_loads d f = Some srcs ∧ Some s ∈ srcs.

(** ** Shapes of path components *)

(** no separator occurs in [w] *)
Fixpoint no_slash (w : string) : Prop :=
  match w with
  | EmptyString => True
  | String c w' => c ≠ "/"%char ∧ no_slash w'
  end.

(** a component that can be joined and split again: a name or [..] *)
Definition joinable (w : string) : Prop :=
  no_slash w ∧ w ≠ "" ∧ w ≠ ".".

(** a component of a normalised absolute path: a plain name *)
Definition plain (w : string) : Prop :=
  joinable w ∧ w ≠ "..".

(** a normalised absolute path, as [abspath] returns it: one or more
    slashes and plain names separated by single slashes *)
Definition normal (d : string) : Prop :=
  ∃ n l, d = Str.slashes (S n) +:+ Str.join l ∧ Forall plain l.

(** the list [rel_list] that [relpath] joins *)
Definition rel_list (start_list path_list : list string) : list string :=
  replicate (List.length start_list - Posixpath.common_len start_list path_list) ".."
  ++ drop (Posixpath.common_len start_list path_list) path_list.

(** the last two lines of [relpath]: [curdir] for an empty list, else the
    components of [rel_list] joined by [os.path.join] *)
Definition render (l : list string) : string :=
  match l with
  | [] => "."
  | a :: p => Posixpath.join a p
  end.

(** ** Transitive dependents *)

(** [w] is reached from [k] by following direct dependents, at least one
    step. *)
Inductive affects (deps : gmap string (gset string)) : string → string → Prop :=
| affects_direct k v : in_deps deps k v → affects deps k v
| affects_step k v w : in_deps deps k v → affects deps v w → affects deps k w.

(** ** Root discovery *)

(** The two patterns of [file_has_backend], the keyword [backend], one or
    more blanks and a double quote, and the keyword [cloud], one or more
    blanks and an opening brace, have the shape: a keyword, one or more
    blanks, one character. *)
Module Re.

(** [s] without the prefix [p], when it has that prefix *)
Fixpoint strip (p s : string) : option string :=
  match p with
  | EmptyString => Some s
  | String a p' =>
      match s with
      | String b s' => if Ascii.eqb a b then strip p' s' else None
      | EmptyString => None
      end
  end.

(** one or more blanks and then [c], at the start of [s] *)
Fixpoint blanks_then (c : ascii) (s : string) : bool :=
  match s with
  | String a s' =>
      if Ascii.eqb a " " then
        match s' with
        | String b _ => Ascii.eqb b c || blanks_then c s'
        | EmptyString => false
        end
      else false
  | EmptyString => false
  end.

(** [re.search] for the keyword [kw], one or more blanks and [c]: a match
    at some position of [s] *)
Fixpoint search (kw : string) (c : ascii) (s : string) : bool :=
  match strip kw s with
  | Some rest => blanks_then c rest
  | None => false
  end
  || match s with
     | EmptyString => false
     | String _ s' => search kw c s'
     end.

(** [n] blanks *)
Fixpoint blanks (n : nat) : string :=
  match n with
  | 0 => EmptyString
  | S n' => String " " (blanks n')
  end.

End Re.

(** [for x in l: acc = body(x, acc)] *)
Fixpoint fold_each {A B : Type} (l : list A) (body : A → B → M B) (acc : B) : M B :=
  match l with
  | [] => ret acc
  | x :: l' => let* acc' := body x acc in fold_each l' body acc'
  end.

Section Discovery.

Variable fs : filesystem.

Definition file_has_backend (path : string) : M bool :=
  let* data := read_file fs path in
  ret (Re.search "backend" "034" data || Re.search "cloud" "{" data).

(** [entry.is_dir()] for the entry [name] that [os.walk] scans in [top] *)
Definition entry_is_dir (cwd_ top name : string) : bool :=
  bool_decide (is_Some (listing fs cwd_ (Posixpath.join top [name]))).

(** The loop of [get_root_paths] over the files of one directory: [true]
    at the first [.tf] file with a backend, the files after it being left
    unopened by the [break]. *)
Fixpoint has_backend_file (this_path : string) (files : list string) : M bool :=
  match files with
  | [] => ret false
  | fl :: files' =>
      if Str.endswith ".tf" fl then
        let* b := file_has_backend (Posixpath.join this_path [fl]) in
        if b then ret true else has_backend_file this_path files'
      else has_backend_file this_path files'
  end.

(** the body of the loop over what [os.walk] yields *)
Definition visit_walked (this_path : string) (files : list string)
    (found_paths : gset string) : M (gset string) :=
  if Str.contains ".terraform" this_path then ret found_paths
  else
    let* b := has_backend_file this_path files in
    ret (if b then {[this_path]} ∪ found_paths else found_paths).

(** [os.walk(top)] top-down with the loop body run on each triple as it is
    yielded: a directory that cannot be listed yields nothing, its entries
    are split into directories and the rest, and the directories are
    walked in turn. [limit] bounds the nesting of the walk. *)
Fixpoint walk_roots (limit : nat) (top : string) (found_paths : gset string)
  : M (gset string) :=
  match limit with
  | 0 => raise RecursionError
  | S limit' =>
      λ st,
        match listing fs (cwd st) top with
        | None => Ok (found_paths, st)
        | Some names =>
            let dirs := List.filter (entry_is_dir (cwd st) top) names in
            let files := List.filter (λ n, negb (entry_is_dir (cwd st) top n)) names in
            (let* found := visit_walked top files found_paths in
             fold_each dirs (λ d, walk_roots limit' (Posixpath.join top [d])) found) st
        end
  end.

(** [get_root_paths(start_path)]; its [Exception] is the plain one that
    [get_tf_files] raises too. *)
Definition get_root_paths (limit : nat) (start_path : string) : M (list string) :=
  let* d := isdir fs start_path in
  if negb d then raise NotADirectory
  else
    let* found_paths := walk_roots limit start_path ∅ in
    ret (elements found_paths).

(** the text has a match of one of the two patterns *)
Definition has_marker (data : string) : Prop :=
  (∃ pre n post,
     data = pre +:+ "backend" +:+ Re.blanks (S n) +:+ String "034" post)
  ∨ (∃ pre n post,
       data = pre +:+ "cloud" +:+ Re.blanks (S n) +:+ String "{" post).

(** a [.tf] entry of [files] whose text has a marker *)
Definition marked (cwd_ p : string) (files : list string) : Prop :=
  ∃ fl data, fl ∈ files ∧ Str.endswith ".tf" fl = true ∧
    contents fs cwd_ (Posixpath.join p [fl]) = Some data ∧ has_marker data.

(** [p] is one of the directories [os.walk(start)] yields *)
Inductive walked (cwd_ start : string) : string → Prop :=
| walked_top : walked cwd_ start start
| walked_sub p names name :
    walked cwd_ start p →
    listing fs cwd_ p = Some names →
    name ∈ names → entry_is_dir cwd_ p name = true →
    walked cwd_ start (Posixpath.join p [name]).

(** [p] can be listed, its path does not contain [.terraform], and one of
    its entries that is not a directory is named [*.tf] and has a marker *)
Definition is_root (cwd_ p : string) : Prop :=
  Str.contains ".terraform" p = false ∧
  ∃ names fl data,
    listing fs cwd_ p = Some names ∧ fl ∈ names ∧
    entry_is_dir cwd_ p fl = false ∧ Str.endswith ".tf" fl = true ∧
    contents fs cwd_ (Posixpath.join p [fl]) = Some data ∧
    has_marker data.

End Discovery.

(** ** Fixture: a tree with roots to discover *)

Module Estate.

(** Below [/repo]: [roots/prod] has a backend in its second [.tf] file,
    [roots/dev] writes [cloud] without a blank, [roots/.terraform] has a
    backend, [/repo] itself has a [cloud] block, [modules/vpc] has
    neither. *)
Definition tree : filesystem :=
  Fixtures.tree
    [("/", ["repo"]); ("/repo", ["roots"; "modules"; "x.tf"]);
     ("/repo/roots", ["prod"; "dev"; ".terraform"]);
     ("/repo/roots/prod", ["main.tf"; "backend.tf"]);
     ("/repo/roots/dev", ["main.tf"]);
     ("/repo/roots/.terraform", ["main.tf"]);
     ("/repo/modules", ["vpc"]); ("/repo/modules/vpc", ["main.tf"])]
    [("/repo/x.tf", "terraform { cloud { } }");
     ("/repo/roots/prod/main.tf", Fixtures.resource_text);
     ("/repo/roots/prod/backend.tf",
      "terraform { backend  " +:+ Fixtures.dq +:+ "s3" +:+ Fixtures.dq +:+ " {} }");
     ("/repo/roots/dev/main.tf", "terraform { cloud{} }");
     ("/repo/roots/.terraform/main.tf", "backend " +:+ Fixtures.dq +:+ "s3" +:+ Fixtures.dq);
     ("/repo/modules/vpc/main.tf", Fixtures.resource_text)].

(** a process in [/] with nothing built yet *)
Definition at_root : state := {| cwd := "/"; dependents := ∅; cache := [] |}.

End Estate.

(** ** Fixture: a diamond whose sides sit at different depths *)

Module Skew.

Definition R_text : string :=
  Fixtures.module_text "a" "../A" +:+ Fixtures.module_text "b" "../mods/B".

(** Below [/repo]: the root [R] declares [A] and [mods/B]; [A] declares
    [../C] and [mods/B] declares [../../C], the same directory [C], which
    declares nothing. *)
Definition tree : filesystem :=
  Fixtures.tree
    [("/", ["repo"]); ("/repo", ["R"; "A"; "mods"; "C"]);
     ("/repo/R", ["main.tf"]); ("/repo/A", ["main.tf"]);
     ("/repo/mods", ["B"]); ("/repo/mods/B", ["main.tf"]);
     ("/repo/C", ["main.tf"])]
    [("/repo/R/main.tf", R_text);
     ("/repo/A/main.tf", Fixtures.module_text "c" "../C");
     ("/repo/mods/B/main.tf", Fixtures.module_text "c" "../../C");
     ("/repo/C/main.tf", Fixtures.resource_text)].

Definition loads : string → option tf_dict :=
  Fixtures.table_loads
    [(R_text, Fixtures.modules [Fixtures.module_block "a" "../A";
                                Fixtures.module_block "b" "../mods/B"]);
     (Fixtures.module_text "c" "../C", Fixtures.modules [Fixtures.module_block "c" "../C"]);
     (Fixtures.module_text "c" "../../C",
      Fixtures.modules [Fixtures.module_block "c" "../../C"])].

End Skew.

(** ** Directory listings *)

(** What is true of a real directory listing: no entry name begins with a
    slash. *)
Definition names_relative (fs : filesystem) : Prop :=
  ∀ p names name, fs_listdir fs p = Some names → name ∈ names →
                  Str.startswith "/" name = false.

(** ** Directories reached from the roots *)

(** [d] is reached from some root of the build *)
Definition reached (fs : filesystem) (hcl2_loads : string → option tf_dict)
    (start_dir : string) (roots : list string) (d : string) : Prop :=
  ∃ r, r ∈ roots ∧ reach fs hcl2_loads (root_dir start_dir r) d.

(** every reached directory whose key is [k] is too high for [good j] *)
Definition above (fs : filesystem) (hcl2_loads : string → option tf_dict)
    (start_dir : string) (roots : list string) (j : nat) (k : string) : Prop :=
  ∀ d, reached fs hcl2_loads start_dir roots d → identity start_dir d = k →
       ¬ good fs hcl2_loads j d.

(** ** The command line entry point *)

(** the loop of [main] over the modules asked for, each query started from
    a fresh empty set on the same map *)
Fixpoint query_each (limit : nat) (mods : list string)
    (dependents : gmap string (gset string)) : result (list (gset string)) :=
  match mods with
  | [] => Ok []
  | mod_ :: mods' =>
      match find_mods_affected limit mod_ ∅ dependents with
      | Raise e => Raise e
      | Ok dmods =>
          match query_each limit mods' dependents with
          | Raise e => Raise e
          | Ok rest => Ok (dmods :: rest)
          end
      end
  end.

(** [main()] run with [sys.argv[1] = root_path] and [sys.argv[2:] = mods] in
    a process whose working directory is [cwd0], without its printing: the
    sets it finds for the modules, in the order asked. An exception raised
    anywhere ends the run. *)
Definition main (fs : filesystem) (hcl2_loads : string → option tf_dict)
    (limit : nat) (root_path : string) (mods : list string) (cwd0 : string)
  : result (list (gset string)) :=
  let start_dir := Posixpath.abspath cwd0 "." in
  match get_root_paths fs limit root_path
          {| cwd := cwd0; dependents := ∅; cache := [] |} with
  | Raise e => Raise e
  | Ok (roots, st) =>
      match build_dependency_dict fs hcl2_loads limit roots start_dir (cwd st) with
      | Raise e => Raise e
      | Ok (dependents, _) => query_each limit mods dependents
      end
  end.

(** ** Fixture: a root that uses modules *)

Module Stack.

Definition prod_text : string :=
  "terraform { backend " +:+ Fixtures.dq +:+ "s3" +:+ Fixtures.dq +:+ " {} }" +:+ Fixtures.nl +:+
  Fixtures.module_text "vpc" "../../modules/vpc".

(** Below [/repo]: the root [roots/prod] has a backend and declares
    [modules/vpc], which declares [modules/net]. *)
Definition tree : filesystem :=
  Fixtures.tree
    [("/", ["repo"]); ("/repo", ["roots"; "modules"]);
     ("/repo/roots", ["prod"]); ("/repo/roots/prod", ["main.tf"]);
     ("/repo/modules", ["vpc"; "net"]);
     ("/repo/modules/vpc", ["main.tf"]); ("/repo/modules/net", ["main.tf"])]
    [("/repo/roots/prod/main.tf", prod_text);
     ("/repo/modules/vpc/main.tf", Fixtures.module_text "net" "../net");
     ("/repo/modules/net/main.tf", Fixtures.resource_text)].

Definition loads : string → option tf_dict :=
  Fixtures.table_loads
    [(prod_text, Fixtures.modules [Fixtures.module_block "vpc" "../../modules/vpc"]);
     (Fixtures.module_text "net" "../net",
      Fixtures.modules [Fixtures.module_block "net" "../net"])].

(** what [main] found, as sorted lists *)
Definition found (r : result (list (gset string))) : option (list (list string)) :=
  match r with
  | Ok results => Some (elements <$> results)
  | Raise _ => None
  end.

End Stack.

(** ** Users of a directory *)

(** [d1] declares a relative source from which [d2] is reached: [d1] uses
    [d2], directly or through other modules *)
Definition uses (fs : filesystem) (hcl2_loads : string → option tf_dict)
    (d1 d2 : string) : Prop :=
  ∃ s, dir_source fs hcl2_loads d1 s ∧ reach fs hcl2_loads (child d1 s) d2.

(** [v] is the key of a directory reached from the roots that uses a
    directory whose key is [subject] *)
Definition users (fs : filesystem) (hcl2_loads : string → option tf_dict)
    (start_dir : string) (roots : list string) (subject v : string) : Prop :=
  ∃ d1 d2, reached fs hcl2_loads start_dir roots d1 ∧ uses fs hcl2_loads d1 d2 ∧
           subject = identity start_dir d2 ∧ v = identity start_dir d1.

(** * Properties *)

(** ** Small facts about the primitives *)

Example split_ex : Str.split "/a//b/" = [""; "a"; ""; "b"; ""].
Proof. reflexivity. Qed.
Example normpath_ex1 : Posixpath.normpath "/repo/env/prod/../../modules/./vpc" = "/repo/modules/vpc".
Proof. reflexivity. Qed.
Example normpath_ex2 : Posixpath.normpath "//a/../../b" = "//b".
Proof. reflexivity. Qed.
Example normpath_ex3 : Posixpath.normpath "a/../../b/" = "../b".
Proof. reflexivity. Qed.
Example relpath_ex1 : Posixpath.relpath "/x" "/repo/modules/vpc" "/repo" = Some "modules/vpc".
Proof. vm_compute. reflexivity. Qed.
Example relpath_ex2 : Posixpath.relpath "/x" "/repo" "/repo" = Some ".".
Proof. vm_compute. reflexivity. Qed.
Example relpath_ex3 : Posixpath.relpath "/x" "/a/b" "/repo/c" = Some "../../a/b".
Proof. vm_compute. reflexivity. Qed.
Example contains_ex : Str.contains "./" "a/../b" = true /\ Str.contains "./" "hashicorp/consul/aws" = false.
Proof. split; reflexivity. Qed.

(** ** The reachability query *)

Lemma chain_deps_ranked : ranked chain_deps chain_rank.
Proof.
  intros k s v Hk Hv. unfold chain_deps in Hk.
  apply lookup_insert_Some in Hk as [[<- <-]|[_ Hk]].
  - apply elem_of_singleton in Hv as ->. vm_compute. lia.
  - apply lookup_singleton_Some in Hk as [<- <-].
    apply elem_of_singleton in Hv as ->. vm_compute. lia.
Qed.

Lemma affected_loop_superset recurse :
  (∀ dep m r, recurse dep m = Ok r → m ⊆ r) →
  ∀ deps modules r, affected_loop recurse deps modules = Ok r → modules ⊆ r.
Proof.
  intros Hrec deps. induction deps as [|dep deps IH]; intros modules r; simpl.
  - intros [= <-]. done.
  - destruct (recurse dep ({[dep]} ∪ modules)) as [m'|] eqn:E; [|done].
    intros H. apply IH in H. apply Hrec in E. set_solver.
Qed.

(** Whatever the map, a returned set contains the accumulator. *)
Lemma find_mods_affected_superset deps_dict limit :
  ∀ subject modules r,
    find_mods_affected limit subject modules deps_dict = Ok r → modules ⊆ r.
Proof.
  induction limit as [|limit IH]; intros subject modules r; simpl; [done|].
  apply affected_loop_superset. intros dep m r'. apply IH.
Qed.

Lemma affected_loop_returns recurse (P : string → Prop) :
  (∀ dep m, P dep → ∃ r, recurse dep m = Ok r) →
  ∀ deps modules, Forall P deps → ∃ r, affected_loop recurse deps modules = Ok r.
Proof.
  intros Hrec deps. induction deps as [|dep deps IH]; intros modules HP; simpl.
  - eauto.
  - inversion HP as [|? ? Hd Hds]; subst.
    destruct (Hrec dep ({[dep]} ∪ modules) Hd) as [m' ->]. by apply IH.
Qed.

(** On a ranked map the query returns as soon as the limit exceeds the
    rank of the subject. *)
Lemma find_mods_affected_returns deps_dict rank :
  ranked deps_dict rank →
  ∀ limit subject modules, rank subject < limit →
    ∃ r, find_mods_affected limit subject modules deps_dict = Ok r.
Proof.
  intros Hrk. induction limit as [|limit IH]; intros subject modules Hlt; [lia|].
  simpl.
  apply affected_loop_returns with (P := λ dep, rank dep < limit).
  - intros dep m Hd. by apply IH.
  - apply Forall_forall. intros dep Hin. apply elem_of_elements in Hin.
    destruct (deps_dict !! subject) as [s|] eqn:E; simpl in Hin; [|set_solver].
    specialize (Hrk _ _ _ E Hin). lia.
Qed.

Lemma cyclic_deps_A : default ∅ (cyclic_deps !! "A") = ({["B"]} : gset string).
Proof. reflexivity. Qed.
Lemma cyclic_deps_B : default ∅ (cyclic_deps !! "B") = ({["A"]} : gset string).
Proof. reflexivity. Qed.

Lemma find_mods_affected_cyclic limit :
  ∀ modules,
    find_mods_affected limit "A" modules cyclic_deps = Raise RecursionError
    ∧ find_mods_affected limit "B" modules cyclic_deps = Raise RecursionError.
Proof.
  induction limit as [|limit IH]; intros modules; [done|].
  cbn [find_mods_affected]. rewrite cyclic_deps_A, cyclic_deps_B.
  rewrite !elements_singleton. cbn [affected_loop].
  destruct (IH ({["B"]} ∪ modules)) as [_ ->].
  destruct (IH ({["A"]} ∪ modules)) as [-> _]. done.
Qed.

(** C2, as stated. On the map of the two-node cycle the query never returns
    a set: no visited set is kept, so A and B expand each other until the
    interpreter's limit on nested calls is hit, whatever that limit is. *)
Lemma find_mods_affected_cycle_never_returns :
  ¬ ∃ limit r, find_mods_affected limit "A" ∅ cyclic_deps = Ok r.
Proof.
  intros (limit & r & H).
  destruct (find_mods_affected_cyclic limit ∅) as [E _]. congruence.
Qed.

(** C2, amended. On an acyclic map (one that admits a ranking) the query
    returns a set once the limit on nested calls exceeds the rank of the
    subject; the accumulator it is given plays no part in that. *)
Theorem find_mods_affected_terminates_acyclic
    (deps_dict : gmap string (gset string)) (rank : string → nat)
    (subject : string) (modules : gset string) (limit : nat) :
  ranked deps_dict rank →
  rank subject < limit →
  ∃ r, find_mods_affected limit subject modules deps_dict = Ok r.
Proof. intros Hrk Hlt. by eapply find_mods_affected_returns. Qed.

Lemma find_mods_affected_terminates_acyclic_witness :
  ranked chain_deps chain_rank ∧ chain_rank "c" < 3 ∧
  ∃ r, find_mods_affected 3 "c" ∅ chain_deps = Ok r.
Proof.
  split; [apply chain_deps_ranked|]. split; [vm_compute; lia|].
  apply (find_mods_affected_terminates_acyclic chain_deps chain_rank "c" ∅ 3).
  - apply chain_deps_ranked.
  - vm_compute; lia.
Defined.

(** C10. On an acyclic map the query returns, once the limit on nested
    calls exceeds the rank of the subject, a set that contains every element
    of the accumulator it was given; and on any map, whenever a set is
    returned it contains the accumulator. *)
Theorem find_mods_affected_keeps_accumulator
    (deps_dict : gmap string (gset string)) (rank : string → nat)
    (subject : string) (modules : gset string) :
  ranked deps_dict rank →
  (∀ limit, rank subject < limit →
     ∃ r, find_mods_affected limit subject modules deps_dict = Ok r ∧ modules ⊆ r)
  ∧ (∀ limit r, find_mods_affected limit subject modules deps_dict = Ok r →
       modules ⊆ r).
Proof.
  intros Hrk. split.
  - intros limit Hlt.
    destruct (find_mods_affected_returns _ _ Hrk limit subject modules Hlt) as [r Hr].
    exists r. split; [done|]. by eapply find_mods_affected_superset.
  - intros limit r. apply find_mods_affected_superset.
Qed.

Lemma find_mods_affected_keeps_accumulator_witness :
  ranked chain_deps chain_rank ∧
  ∃ r, find_mods_affected 3 "c" {["x"]} chain_deps = Ok r ∧ ({["x"]} : gset string) ⊆ r.
Proof.
  split; [apply chain_deps_ranked|].
  apply (find_mods_affected_keeps_accumulator chain_deps chain_rank "c" {["x"]}
           chain_deps_ranked).
  vm_compute; lia.
Defined.

(** ** Absolute paths do not read the working directory *)

Lemma isabs_inv s : Posixpath.isabs s = true → ∃ s', s = String "/" s'.
Proof.
  destruct s as [|a s]; [done|].
  unfold Posixpath.isabs, Str.startswith. cbn [String.prefix].
  destruct (ascii_dec "/" a) as [<-|]; [eauto|done].
Qed.

Lemma isabs_cons s : Posixpath.isabs (String "/" s) = true.
Proof.
  unfold Posixpath.isabs, Str.startswith. cbn [String.prefix].
  destruct (ascii_dec "/" "/"); [by destruct s|done].
Qed.

Lemma abspath_abs c p :
  Posixpath.isabs p = true → Posixpath.abspath c p = Posixpath.normpath p.
Proof. unfold Posixpath.abspath. by intros ->. Qed.

Lemma components_abs c c' p :
  Posixpath.isabs p = true → Posixpath.components c p = Posixpath.components c' p.
Proof. intros H. unfold Posixpath.components. by rewrite !abspath_abs. Qed.

Lemma realpath_abs c p : Posixpath.isabs p = true → realpath c p = canon p.
Proof. intros H. unfold canon, realpath. by rewrite (components_abs c "/"). Qed.

Lemma relpath_abs c c' p start :
  Posixpath.isabs p = true → Posixpath.isabs start = true →
  Posixpath.relpath c p start = Posixpath.relpath c' p start.
Proof.
  intros Hp Hs. unfold Posixpath.relpath.
  by rewrite (components_abs c c' p), (components_abs c c' start).
Qed.

Lemma isabs_realpath c p : Posixpath.isabs (realpath c p) = true.
Proof. apply isabs_cons. Qed.

Lemma initial_slashes_abs s :
  Posixpath.isabs s = true → ∃ i, Posixpath.initial_slashes s = S i.
Proof.
  intros H. unfold Posixpath.initial_slashes. unfold Posixpath.isabs in H. rewrite H.
  destruct (_ && _)%bool; eauto.
Qed.

Lemma normpath_isabs p :
  Posixpath.isabs p = true → Posixpath.isabs (Posixpath.normpath p) = true.
Proof.
  intros H. destruct (isabs_inv _ H) as [s' ->].
  unfold Posixpath.normpath. cbn [String.eqb].
  destruct (initial_slashes_abs _ H) as [i ->].
  cbn [Str.slashes String.append String.eqb]. apply isabs_cons.
Qed.

Lemma isabs_join2 a b :
  Posixpath.isabs a = true → Posixpath.isabs (Posixpath.join2 a b) = true.
Proof.
  intros H. unfold Posixpath.join2.
  destruct (Str.startswith "/" b) eqn:E; [done|].
  destruct (isabs_inv _ H) as [a' ->].
  destruct (_ || _)%bool; apply isabs_cons.
Qed.

Lemma isabs_abspath c s :
  Posixpath.isabs c = true → Posixpath.isabs (Posixpath.abspath c s) = true.
Proof.
  intros H. unfold Posixpath.abspath. apply normpath_isabs.
  destruct (Posixpath.isabs s) eqn:E; [done|]. by apply isabs_join2.
Qed.

Lemma isabs_child d s : Posixpath.isabs (child d s) = true.
Proof. apply isabs_abspath, isabs_realpath. Qed.

Lemma isabs_nonempty s : Posixpath.isabs s = true → String.eqb s "" = false.
Proof. intros H. by destruct (isabs_inv _ H) as [s' ->]. Qed.

Lemma relpath_nonempty c p start :
  String.eqb p "" = false → is_Some (Posixpath.relpath c p start).
Proof.
  intros H. unfold Posixpath.relpath. rewrite H.
  destruct (_ ++ _); eauto.
Qed.

Lemma relpath_identity start c p :
  Posixpath.isabs p = true → Posixpath.isabs start = true →
  Posixpath.relpath c p start = Some (identity start p).
Proof.
  intros Hp Hs. unfold identity. rewrite (relpath_abs c "/" p start Hp Hs).
  by destruct (relpath_nonempty "/" p start (isabs_nonempty _ Hp)) as [r ->].
Qed.

(** ** Suffixes *)

Lemma endswith_unfold suf s :
  Str.endswith suf s
  = if String.eqb s suf then true
    else match s with
         | EmptyString => false
         | String _ s' => Str.endswith suf s'
         end.
Proof. by destruct s. Qed.

Lemma endswith_spec suf s :
  Str.endswith suf s = true ↔ ∃ pre, s = pre +:+ suf.
Proof.
  split.
  - induction s as [|c s IH]; rewrite endswith_unfold.
    + destruct (String.eqb_spec "" suf) as [<-|_]; [by exists ""|done].
    + destruct (String.eqb_spec (String c s) suf) as [<-|_]; [by exists ""|].
      intros [pre ->]%IH. by exists (String c pre).
  - intros [pre ->]. induction pre as [|c pre IH].
    + change ("" +:+ suf) with suf. rewrite endswith_unfold.
      by rewrite String.eqb_refl.
    + change (String c pre +:+ suf) with (String c (pre +:+ suf)).
      rewrite endswith_unfold, IH. by destruct (String.eqb _ suf).
Qed.

(** ** Splitting and joining *)

Lemma split_not_nil s : Str.split s ≠ [].
Proof.
  destruct s as [|c s]; [done|]. cbn [Str.split].
  destruct (Ascii.eqb c "/"); [done|]. by destruct (Str.split s).
Qed.

Lemma split_no_slash s : Forall no_slash (Str.split s).
Proof.
  induction s as [|c s IH]; [by repeat constructor|]. cbn [Str.split].
  destruct (Ascii.eqb_spec c "/") as [->|Hc].
  - by constructor.
  - destruct (Str.split s) as [|w ws]; [by repeat constructor|].
    inversion IH; subst. by repeat constructor.
Qed.

Lemma split_slash s : Str.split (String "/" s) = "" :: Str.split s.
Proof. reflexivity. Qed.

Lemma split_word w : no_slash w → Str.split w = [w].
Proof.
  induction w as [|c w IH]; [done|]. intros [Hc Hw]. cbn [Str.split].
  destruct (Ascii.eqb_spec c "/") as [->|_]; [done|]. by rewrite IH.
Qed.

Lemma split_word_slash w s :
  no_slash w → Str.split (w +:+ String "/" s) = w :: Str.split s.
Proof.
  induction w as [|c w IH]; [done|]. intros [Hc Hw].
  change (String c w +:+ String "/" s) with (String c (w +:+ String "/" s)).
  cbn [Str.split].
  destruct (Ascii.eqb_spec c "/") as [->|_]; [done|]. by rewrite IH.
Qed.

Lemma join_cons a b l : Str.join (a :: b :: l) = a +:+ String "/" (Str.join (b :: l)).
Proof. reflexivity. Qed.

Lemma split_join l : Forall no_slash l → l ≠ [] → Str.split (Str.join l) = l.
Proof.
  induction l as [|a l IH]; [done|]. intros Hall _. inversion Hall; subst.
  destruct l as [|b l].
  - by apply split_word.
  - rewrite join_cons, split_word_slash by done. f_equal. by apply IH.
Qed.

Lemma join_inj l1 l2 :
  Forall no_slash l1 → Forall no_slash l2 → l1 ≠ [] → l2 ≠ [] →
  Str.join l1 = Str.join l2 → l1 = l2.
Proof.
  intros H1 H2 N1 N2 E.
  rewrite <- (split_join l1 H1 N1), <- (split_join l2 H2 N2). by rewrite E.
Qed.

(** ** [os.path.join] on components *)

Lemma endswith_slash_app x b :
  b ≠ "" → Str.endswith "/" (x +:+ b) = Str.endswith "/" b.
Proof.
  intros Hb. induction x as [|c x IH]; [done|].
  change (String c x +:+ b) with (String c (x +:+ b)). cbn [Str.endswith].
  destruct (String.eqb_spec (String c (x +:+ b)) "/") as [E|_]; [|done].
  injection E as _ E. destruct x, b; done.
Qed.

Lemma endswith_slash_word b : no_slash b → Str.endswith "/" b = false.
Proof.
  induction b as [|c b IH]; [done|]. intros [Hc Hb]. cbn [Str.endswith].
  destruct (String.eqb_spec (String c b) "/") as [E|_]; [|by apply IH].
  by injection E as -> _.
Qed.

Lemma startswith_slash_word b : no_slash b → Str.startswith "/" b = false.
Proof.
  destruct b as [|c b]; [done|]. intros [Hc _].
  unfold Str.startswith. cbn [String.prefix].
  by destruct (ascii_dec "/" c) as [<-|].
Qed.

Lemma app_not_empty x y : y ≠ "" → x +:+ y ≠ "".
Proof. by destruct x, y. Qed.

Lemma join2_words a b :
  a ≠ "" → Str.endswith "/" a = false → no_slash b →
  Posixpath.join2 a b = a +:+ String "/" b.
Proof.
  intros Ha He Hb. unfold Posixpath.join2.
  rewrite (startswith_slash_word b Hb), He.
  destruct (String.eqb_spec a "") as [->|_]; done.
Qed.

Lemma join_words p : ∀ a,
  a ≠ "" → Str.endswith "/" a = false →
  Forall (λ w, no_slash w ∧ w ≠ "") p →
  Posixpath.join a p = match p with [] => a | _ => a +:+ String "/" (Str.join p) end.
Proof.
  unfold Posixpath.join.
  induction p as [|b p IH]; intros a Ha He Hall; [done|].
  inversion Hall as [|? ? [Hb Hbne] Hp]; subst. cbn [foldl].
  rewrite join2_words by done. rewrite IH; [| |  |done].
  - destruct p as [|b' p]; [done|]. rewrite join_cons.
    generalize (Str.join (b' :: p)). intros t. clear.
    induction a as [|c a IHa]; [done|].
    change (String c a +:+ String "/" b) with (String c (a +:+ String "/" b)).
    change (String c a +:+ String "/" (b +:+ String "/" t))
      with (String c (a +:+ String "/" (b +:+ String "/" t))).
    change (String c (a +:+ String "/" b) +:+ String "/" t)
      with (String c ((a +:+ String "/" b) +:+ String "/" t)).
    by rewrite IHa.
  - by apply app_not_empty.
  - rewrite endswith_slash_app by done.
    cbn [Str.endswith]. destruct (String.eqb_spec (String "/" b) "/") as [E|_].
    + injection E as ->. done.
    + by apply endswith_slash_word.
Qed.

Lemma render_join l :
  Forall joinable l → render l = match l with [] => "." | _ => Str.join l end.
Proof.
  destruct l as [|a p]; [done|]. intros Hall. inversion Hall as [|? ? (Ha & Hane & _) Hp]; subst.
  cbn [render]. rewrite join_words; [by destruct p|done|by apply endswith_slash_word|].
  eapply Forall_impl; [done|]. by intros w (? & ? & _).
Qed.

Lemma render_inj l1 l2 :
  Forall joinable l1 → Forall joinable l2 → render l1 = render l2 → l1 = l2.
Proof.
  intros H1 H2. rewrite !render_join by done.
  assert (N1 : Forall no_slash l1) by (eapply Forall_impl; [done|]; by intros w [? _]).
  assert (N2 : Forall no_slash l2) by (eapply Forall_impl; [done|]; by intros w [? _]).
  destruct l1 as [|a1 p1], l2 as [|a2 p2]; [done| | |].
  - intros E. assert (Hs : Str.split (Str.join (a2 :: p2)) = ["."]) by (by rewrite <- E).
    rewrite split_join in Hs by done. injection Hs as -> ->.
    inversion H2 as [|? ? (_ & _ & Hdot) _]. done.
  - intros E. assert (Hs : Str.split (Str.join (a1 :: p1)) = ["."]) by (by rewrite E).
    rewrite split_join in Hs by done. injection Hs as -> ->.
    inversion H1 as [|? ? (_ & _ & Hdot) _]. done.
  - by apply join_inj.
Qed.

(** ** Normalised components *)

Lemma plain_not_dotdot w : plain w → w ≠ "..".
Proof. by intros [_ ?]. Qed.

Lemma norm_comps_plain i comps : ∀ acc,
  i ≠ 0 → Forall plain acc → Forall no_slash comps →
  Forall plain (Posixpath.norm_comps i acc comps).
Proof.
  induction comps as [|comp comps IH]; intros acc Hi Hacc Hall.
  - cbn [Posixpath.norm_comps]. by apply Forall_rev.
  - inversion Hall as [|? ? Hc Hcs]; subst. cbn [Posixpath.norm_comps].
    destruct (String.eqb_spec comp "") as [->|Hne]; [by apply IH|].
    destruct (String.eqb_spec comp ".") as [->|Hnd]; [by apply IH|].
    cbn [orb].
    destruct (String.eqb_spec comp "..") as [->|Hndd]; cbn [negb orb].
    + destruct i as [|i]; [done|]. cbn [Nat.eqb andb orb].
      destruct acc as [|a acc]; [by apply IH|].
      inversion Hacc as [|? ? Ha Hacc']; subst.
      destruct (String.eqb_spec a "..") as [->|_]; [by destruct Ha|].
      by apply IH.
    + apply IH; [done| |done]. constructor; [|done]. by repeat split.
Qed.

Lemma split_slashes n s :
  Str.split (Str.slashes n +:+ s) = replicate n "" ++ Str.split s.
Proof.
  induction n as [|n IH]; [done|].
  change (Str.slashes (S n) +:+ s) with (String "/" (Str.slashes n +:+ s)).
  by rewrite split_slash, IH.
Qed.

Lemma filter_nonempty_replicate n (l : list string) :
  filter (λ x, x ≠ "") (replicate n "" ++ l) = filter (λ x, x ≠ "") l.
Proof.
  induction n as [|n IH]; [done|]. cbn [replicate app].
  by rewrite filter_cons_False by (by intros ?).
Qed.

Lemma filter_nonempty_plain (l : list string) :
  Forall plain l → filter (λ x, x ≠ "") l = l.
Proof.
  induction 1 as [|w l [[_ [Hne _]] _] _ IH]; [done|].
  by rewrite filter_cons_True, IH.
Qed.

Lemma components_normalised c p :
  Posixpath.isabs p = true →
  Posixpath.components c p
  = Posixpath.norm_comps (Posixpath.initial_slashes p) [] (Str.split p)
  ∧ Forall plain (Posixpath.components c p).
Proof.
  intros Hp. destruct (initial_slashes_abs p Hp) as [i Hi].
  assert (Hplain : Forall plain
            (Posixpath.norm_comps (Posixpath.initial_slashes p) [] (Str.split p))).
  { apply norm_comps_plain; [by rewrite Hi|constructor|apply split_no_slash]. }
  assert (E : Posixpath.components c p
              = Posixpath.norm_comps (Posixpath.initial_slashes p) [] (Str.split p)).
  { unfold Posixpath.components. rewrite (abspath_abs c p Hp).
    unfold Posixpath.normpath. rewrite (isabs_nonempty p Hp).
    set (comps := Posixpath.norm_comps _ _ _) in *. rewrite Hi.
    change (Str.slashes (S i) +:+ Str.join comps)
      with (String "/" (Str.slashes i +:+ Str.join comps)).
    cbn [String.eqb]. rewrite split_slash, split_slashes.
    rewrite filter_cons_False by (by intros ?).
    rewrite filter_nonempty_replicate.
    destruct comps as [|a comps'] eqn:Ec; [done|].
    rewrite split_join; [by apply filter_nonempty_plain| |done].
    eapply Forall_impl; [exact Hplain|]. by intros w [[? _] _]. }
  split; [done|]. by rewrite E.
Qed.

Lemma canon_components d : canon d = "/" +:+ Str.join (Posixpath.components "/" d).
Proof. reflexivity. Qed.

(** ** More on splitting, joining and normalising *)

Lemma join_split s : Str.join (Str.split s) = s.
Proof.
  induction s as [|c s IH]; [done|]. cbn [Str.split].
  destruct (Ascii.eqb_spec c "/") as [->|_].
  - pose proof (split_not_nil s) as Hne.
    destruct (Str.split s) as [|w ws]; [done|].
    rewrite join_cons, IH. done.
  - destruct (Str.split s) as [|w ws] eqn:E; [by destruct (split_not_nil s)|].
    rewrite <- IH. by destruct ws.
Qed.

Lemma split_app_slash x y :
  Str.split (x +:+ String "/" y) = Str.split x ++ Str.split y.
Proof.
  induction x as [|c x IH]; [done|].
  change (String c x +:+ String "/" y) with (String c (x +:+ String "/" y)).
  cbn [Str.split]. rewrite IH.
  destruct (Ascii.eqb c "/"); [done|].
  pose proof (split_not_nil x). by destruct (Str.split x).
Qed.

Lemma norm_comps_plain_id i l : ∀ acc,
  Forall plain l → Posixpath.norm_comps i acc l = rev acc ++ l.
Proof.
  induction l as [|w l IH]; intros acc Hall.
  - cbn. by rewrite app_nil_r.
  - inversion Hall as [|? ? [[_ [Hne Hnd]] Hndd] Hl]; subst. cbn [Posixpath.norm_comps].
    destruct (String.eqb_spec w "") as [?|_]; [done|].
    destruct (String.eqb_spec w ".") as [?|_]; [done|].
    destruct (String.eqb_spec w "..") as [?|_]; [done|].
    cbn [orb negb]. rewrite IH by done. cbn [rev]. by rewrite <- app_assoc.
Qed.

Lemma norm_comps_skip_empties i n l : ∀ acc,
  Posixpath.norm_comps i acc (replicate n "" ++ l) = Posixpath.norm_comps i acc l.
Proof. induction n as [|n IH]; intros acc; [done|]. cbn. apply IH. Qed.

Lemma norm_comps_split_join i (l : list string) :
  Forall plain l → Posixpath.norm_comps i [] (Str.split (Str.join l)) = l.
Proof.
  intros Hall. destruct l as [|a l]; [done|].
  rewrite split_join; [by apply norm_comps_plain_id| |done].
  eapply Forall_impl; [done|]. by intros w [[? _] _].
Qed.

(** the components of an absolute path, as [normpath] computes them *)
Lemma components_slashes_join c n (l : list string) :
  Forall plain l →
  Posixpath.components c (Str.slashes (S n) +:+ Str.join l) = l.
Proof.
  intros Hall.
  assert (Habs : Posixpath.isabs (Str.slashes (S n) +:+ Str.join l) = true)
    by apply isabs_cons.
  rewrite (proj1 (components_normalised c _ Habs)).
  rewrite split_slashes, norm_comps_skip_empties. by apply norm_comps_split_join.
Qed.

Lemma normpath_shape p :
  Posixpath.isabs p = true →
  ∃ n, Posixpath.normpath p
       = Str.slashes (S n) +:+ Str.join (Posixpath.components "/" p).
Proof.
  intros Hp. destruct (initial_slashes_abs p Hp) as [n Hn]. exists n.
  rewrite (proj1 (components_normalised "/" p Hp)).
  unfold Posixpath.normpath. rewrite (isabs_nonempty p Hp), Hn. reflexivity.
Qed.

(** normalising twice gives the same components *)
Lemma components_normpath c p :
  Posixpath.isabs p = true →
  Posixpath.components c (Posixpath.normpath p) = Posixpath.components "/" p.
Proof.
  intros Hp. destruct (normpath_shape p Hp) as [n ->].
  apply components_slashes_join. by apply components_normalised.
Qed.

Lemma components_abspath c c' p :
  Posixpath.isabs c' = true →
  Posixpath.components c (Posixpath.abspath c' p) = Posixpath.components c' p.
Proof.
  intros Hc. unfold Posixpath.components at 2. unfold Posixpath.abspath.
  destruct (Posixpath.isabs p) eqn:Hp.
  - rewrite components_normpath by done. unfold Posixpath.components.
    by rewrite abspath_abs.
  - rewrite components_normpath by (by apply isabs_join2).
    unfold Posixpath.components. by rewrite abspath_abs by (by apply isabs_join2).
Qed.

Lemma canon_abspath c p :
  Posixpath.isabs c = true → canon (Posixpath.abspath c p) = realpath c p.
Proof. intros Hc. unfold canon, realpath. by rewrite components_abspath. Qed.

Lemma components_canon c d :
  Posixpath.isabs d = true → Posixpath.components c (canon d) = Posixpath.components "/" d.
Proof.
  intros Hd. rewrite canon_components.
  apply (components_slashes_join c 0). by apply components_normalised.
Qed.

Lemma join_not_empty a (l : list string) : a ≠ "" → Str.join (a :: l) ≠ "".
Proof.
  intros Ha. destruct l as [|b l]; [done|]. rewrite join_cons. by destruct a.
Qed.

Lemma endswith_slash_join (l : list string) : ∀ a,
  Forall (λ w, no_slash w ∧ w ≠ "") (a :: l) →
  Str.endswith "/" (Str.join (a :: l)) = false.
Proof.
  induction l as [|b l IH]; intros a Hall;
    inversion Hall as [|? ? [Ha Hane] Hl]; subst.
  - by apply endswith_slash_word.
  - rewrite join_cons, endswith_slash_app by done.
    cbn [Str.endswith].
    destruct (String.eqb_spec (String "/" (Str.join (b :: l))) "/") as [E|_].
    + injection E as E. apply join_not_empty in E; [done|].
      by inversion Hl as [|? ? [_ ?] _].
    + by apply IH.
Qed.

(** ** A directory under two names *)

Lemma norm_comps_pos i j l : ∀ acc,
  i ≠ 0 → j ≠ 0 → Posixpath.norm_comps i acc l = Posixpath.norm_comps j acc l.
Proof.
  intros acc Hi Hj. revert acc.
  destruct i as [|i]; [done|]. destruct j as [|j]; [done|].
  induction l as [|w l IH]; intros acc; [done|]. cbn [Posixpath.norm_comps Nat.eqb].
  destruct (_ || _)%bool; [apply IH|].
  destruct (_ || _)%bool; [apply IH|]. destruct acc; apply IH.
Qed.

Lemma norm_comps_app i l1 l2 : ∀ acc,
  Posixpath.norm_comps i acc (l1 ++ l2)
  = Posixpath.norm_comps i (rev (Posixpath.norm_comps i acc l1)) l2.
Proof.
  induction l1 as [|w l1 IH]; intros acc.
  - cbn. by rewrite rev_involutive.
  - cbn [app Posixpath.norm_comps].
    destruct (_ || _)%bool; [apply IH|].
    destruct (_ || _)%bool; [apply IH|]. destruct acc; apply IH.
Qed.

Lemma components_one c d :
  Posixpath.isabs d = true →
  Posixpath.components c d = Posixpath.norm_comps 1 [] (Str.split d).
Proof.
  intros Hd. rewrite (proj1 (components_normalised c d Hd)).
  destruct (initial_slashes_abs d Hd) as [i ->]. by apply norm_comps_pos.
Qed.

Lemma append_assoc (x y z : string) : (x +:+ y) +:+ z = x +:+ (y +:+ z).
Proof.
  induction x as [|c x IH]; [done|].
  change ((String c x +:+ y) +:+ z) with (String c ((x +:+ y) +:+ z)).
  change (String c x +:+ (y +:+ z)) with (String c (x +:+ (y +:+ z))).
  by rewrite IH.
Qed.

Lemma split_join2 d f :
  d ≠ "" → Str.startswith "/" f = false →
  ∃ x, Str.split (Posixpath.join2 d f) = Str.split x ++ Str.split f ∧
       (Str.split d = Str.split x ∨ Str.split d = Str.split x ++ [""]).
Proof.
  intros Hd Hf. unfold Posixpath.join2. rewrite Hf.
  destruct (String.eqb_spec d "") as [?|_]; [done|]. cbn [orb].
  destruct (Str.endswith "/" d) eqn:He.
  - apply endswith_spec in He as [x ->]. exists x.
    rewrite append_assoc. change ("/" +:+ f) with (String "/" f).
    rewrite split_app_slash. split; [done|]. right.
    change (x +:+ "/") with (x +:+ String "/" ""). by rewrite split_app_slash.
  - exists d. change (d +:+ "/" +:+ f) with (d +:+ String "/" f).
    rewrite split_app_slash. split; [done|by left].
Qed.

Lemma components_join2 c d f :
  Posixpath.isabs d = true → Str.startswith "/" f = false →
  Posixpath.components c (Posixpath.join2 d f)
  = Posixpath.norm_comps 1 (rev (Posixpath.components "/" d)) (Str.split f).
Proof.
  intros Hd Hf.
  rewrite (components_one c _ (isabs_join2 d f Hd)), (components_one "/" d Hd).
  destruct (split_join2 d f) as (x & -> & [->| ->]); [|done|..].
  - intros ->. done.
  - by rewrite norm_comps_app.
  - rewrite !norm_comps_app. cbn [Posixpath.norm_comps String.eqb orb].
    by rewrite rev_involutive.
Qed.

Lemma canon_components_inj d d' :
  Posixpath.isabs d = true → Posixpath.isabs d' = true →
  canon d = canon d' →
  Posixpath.components "/" d = Posixpath.components "/" d'.
Proof.
  intros Hd Hd' E. rewrite !canon_components in E. injection E as E.
  destruct (components_normalised "/" d Hd) as [_ P].
  destruct (components_normalised "/" d' Hd') as [_ P'].
  assert (N : ∀ l, Forall plain l → Forall no_slash l).
  { intros l Hl. eapply Forall_impl; [exact Hl|]. by intros w [[? _] _]. }
  destruct (Posixpath.components "/" d) as [|a l],
           (Posixpath.components "/" d') as [|a' l']; [done| | |].
  - symmetry in E. apply join_not_empty in E; [done|].
    by inversion P' as [|? ? [[_ [? _]] _] _].
  - apply join_not_empty in E; [done|]. by inversion P as [|? ? [[_ [? _]] _] _].
  - apply join_inj; auto.
Qed.

Lemma canon_join d d' f :
  Posixpath.isabs d = true → Posixpath.isabs d' = true →
  canon d = canon d' →
  canon (Posixpath.join d [f]) = canon (Posixpath.join d' [f]).
Proof.
  intros Hd Hd' E. unfold Posixpath.join. cbn [foldl].
  destruct (Str.startswith "/" f) eqn:Hf.
  - unfold Posixpath.join2. by rewrite Hf.
  - rewrite !canon_components, !components_join2 by done.
    by rewrite (canon_components_inj d d' Hd Hd' E).
Qed.

Lemma components_rel c p :
  Posixpath.isabs p = false → Posixpath.isabs c = true →
  Posixpath.components c p = Posixpath.components "/" (Posixpath.join2 c p).
Proof.
  intros Hp Hc. unfold Posixpath.components, Posixpath.abspath.
  by rewrite Hp, (isabs_join2 c p Hc).
Qed.

(** ** Path resolution *)

Section Resolution.

Variable fs : filesystem.

Local Abbreviation walk := (walk fs).
Local Abbreviation is_dir := (λ cur, is_Some (fs_listdir fs (path_of cur))).

Lemma walk_cons cur comp comps :
  walk cur (comp :: comps)
  = if bool_decide (is_dir cur) then
      if (String.eqb comp "" || String.eqb comp ".")%bool then walk cur comps
      else if String.eqb comp ".." then walk (tail cur) comps
      else walk (comp :: cur) comps
    else None.
Proof. reflexivity. Qed.

Lemma walk_app l1 : ∀ cur l2,
  walk cur (l1 ++ l2) = walk cur l1 ≫= λ cur', walk cur' l2.
Proof.
  induction l1 as [|comp l1 IH]; intros cur l2; [done|].
  cbn [app]. rewrite !walk_cons.
  destruct (bool_decide _); [|done].
  destruct (_ || _)%bool; [apply IH|].
  destruct (String.eqb comp ".."); apply IH.
Qed.

Lemma walk_is_dir cur comp comps cur' :
  walk cur (comp :: comps) = Some cur' → is_dir cur.
Proof. rewrite walk_cons. case_bool_decide; done. Qed.

(** an empty component in front only repeats the test made for the
    component behind it *)
Lemma walk_empty_cons cur comps :
  comps ≠ [] → walk cur ("" :: comps) = walk cur comps.
Proof.
  destruct comps as [|comp comps]; [done|]. intros _.
  rewrite (walk_cons cur ""). cbn [String.eqb orb].
  rewrite walk_cons. by destruct (bool_decide _).
Qed.

Lemma walk_empties n cur comps :
  comps ≠ [] → walk cur (replicate n "" ++ comps) = walk cur comps.
Proof.
  intros Hne. induction n as [|n IH]; [done|]. cbn [replicate app].
  rewrite walk_empty_cons; [done|]. by destruct n, comps.
Qed.

(** what the kernel reaches is what [normpath] computes on the text *)
Lemma walk_norm comps : ∀ cur cur',
  Forall plain cur → Forall no_slash comps →
  walk cur comps = Some cur' →
  Forall plain cur' ∧ Posixpath.norm_comps 1 cur comps = rev cur'.
Proof.
  induction comps as [|comp comps IH]; intros cur cur' Hcur Hns.
  - intros [= <-]. done.
  - apply Forall_cons in Hns as [Hc Hns]. rewrite walk_cons.
    destruct (bool_decide _); [|done]. cbn [Posixpath.norm_comps].
    destruct (String.eqb comp "" || String.eqb comp ".")%bool eqn:E1; [by apply IH|].
    apply orb_false_iff in E1 as [E1 E2].
    apply String.eqb_neq in E1, E2.
    destruct (String.eqb_spec comp "..") as [->|E3].
    + cbn [negb orb Nat.eqb andb].
      destruct cur as [|c cur]; [by apply IH|].
      apply Forall_cons in Hcur as [Hp Hcur].
      destruct (String.eqb_spec c "..") as [->|_]; [by destruct Hp|].
      by apply IH.
    + cbn [negb orb]. apply IH; [|done]. apply Forall_cons. done.
Qed.

Local Abbreviation traversed := (traversed fs).

Lemma traversed_tail cur : traversed cur → traversed (tail cur).
Proof. destruct cur; [done|]. by intros [_ H]. Qed.

Lemma traversed_app l cur : traversed (l ++ cur) → traversed cur.
Proof. induction l as [|x l IH]; [done|]. intros [_ H]. by apply IH. Qed.

Lemma walk_traversed comps : ∀ cur cur',
  traversed cur → walk cur comps = Some cur' → traversed cur'.
Proof.
  induction comps as [|comp comps IH]; intros cur cur' Hcur.
  - by intros [= <-].
  - rewrite walk_cons. case_bool_decide as Hd; [|done].
    destruct (_ || _)%bool; [by apply IH|].
    destruct (String.eqb comp "..").
    + apply IH. by apply traversed_tail.
    + apply IH. by split.
Qed.

Lemma walk_names l : ∀ cur,
  Forall plain l →
  (∀ l1 x l2, l = l1 ++ x :: l2 → is_dir (rev l1 ++ cur)) →
  walk cur l = Some (rev l ++ cur).
Proof.
  induction l as [|x l IH]; intros cur Hl Hd; [done|].
  apply Forall_cons in Hl as [Hx Hl]. rewrite walk_cons.
  rewrite bool_decide_eq_true_2 by apply (Hd [] x l eq_refl).
  destruct Hx as [(_ & E1 & E2) E3].
  apply String.eqb_neq in E1, E2, E3. rewrite E1, E2, E3. cbn [orb].
  rewrite IH; [cbn [rev]; by rewrite <- app_assoc| done |].
  intros l1 y l2 ->. cbn [rev] in Hd.
  specialize (Hd (x :: l1) y l2 eq_refl). cbn [rev] in Hd.
  by rewrite <- app_assoc in Hd.
Qed.

Lemma walk_again cur :
  Forall plain cur → traversed cur → is_dir [] →
  walk [] ("" :: rev cur) = Some cur.
Proof.
  intros Hp Ht Hroot. rewrite walk_cons, bool_decide_eq_true_2 by done.
  cbn [String.eqb orb].
  rewrite (walk_names (rev cur) []).
  - by rewrite rev_involutive, app_nil_r.
  - by apply Forall_rev.
  - intros l1 x l2 E. rewrite app_nil_r.
    assert (E' : cur = rev l2 ++ x :: rev l1).
    { rewrite <- (rev_involutive cur), E, rev_app_distr. cbn [rev].
      by rewrite <- app_assoc. }
    rewrite E' in Ht. apply traversed_app in Ht. by destruct Ht.
Qed.

(** *** What a path resolves to *)

Lemma resolve_abs c d :
  Posixpath.isabs d = true → resolve fs c d = path_of <$> walk [] (Str.split d).
Proof.
  intros Hd. unfold resolve.
  by rewrite (isabs_nonempty d Hd), Hd.
Qed.

Lemma resolve_rel c p :
  Posixpath.isabs p = false → p ≠ "" →
  resolve fs c p = path_of <$> walk [] (Str.split c ++ Str.split p).
Proof.
  intros Hp Hne. unfold resolve. rewrite Hp.
  by destruct (String.eqb_spec p "").
Qed.

Lemma listing_Some c p names :
  listing fs c p = Some names →
  ∃ q, resolve fs c p = Some q ∧ fs_listdir fs q = Some names.
Proof. unfold listing. destruct (resolve fs c p) as [q|]; [eauto|done]. Qed.

Lemma contents_Some c p data :
  contents fs c p = Some data →
  ∃ q, resolve fs c p = Some q ∧ fs_read fs q = Some data.
Proof. unfold contents. destruct (resolve fs c p) as [q|]; [eauto|done]. Qed.

Lemma resolve_abs_cwd c c' d :
  Posixpath.isabs d = true → resolve fs c d = resolve fs c' d.
Proof. intros Hd. by rewrite !resolve_abs. Qed.

Lemma listing_abs c c' d :
  Posixpath.isabs d = true → listing fs c d = listing fs c' d.
Proof. intros Hd. unfold listing. by rewrite (resolve_abs_cwd c c'). Qed.

Lemma contents_abs c c' d :
  Posixpath.isabs d = true → contents fs c d = contents fs c' d.
Proof. intros Hd. unfold contents. by rewrite (resolve_abs_cwd c c'). Qed.

(** nothing is reached through what is not a directory *)
Lemma resolve_below c d rest :
  d ≠ "" → listing fs c d = None → resolve fs c (d +:+ "/" +:+ rest) = None.
Proof.
  intros Hd Hl. unfold listing, resolve in *.
  change (d +:+ "/" +:+ rest) with (d +:+ String "/" rest).
  destruct d as [|a d]; [done|].
  change (String a d +:+ String "/" rest) with (String a (d +:+ String "/" rest)).
  change (String.eqb (String a (d +:+ String "/" rest)) "") with false.
  change (String.eqb (String a d) "") with false in Hl. cbv iota in *.
  assert (Habs : Posixpath.isabs (String a (d +:+ String "/" rest))
                 = Posixpath.isabs (String a d)).
  { unfold Posixpath.isabs, Str.startswith. cbn [String.prefix].
    destruct (ascii_dec "/" a); [by destruct d|done]. }
  rewrite Habs.
  change (String a (d +:+ String "/" rest)) with (String a d +:+ String "/" rest).
  rewrite split_app_slash, app_assoc, walk_app.
  destruct (walk [] _) as [cur|]; [|done]. cbn in Hl. cbn [mbind option_bind].
  destruct (Str.split rest) as [|comp comps] eqn:E; [by apply split_not_nil in E|].
  rewrite walk_cons, bool_decide_eq_false_2; [done|].
  rewrite Hl. by intros [? ?].
Qed.

Lemma listing_below c d rest :
  d ≠ "" → listing fs c d = None → listing fs c (d +:+ "/" +:+ rest) = None.
Proof. intros Hd Hl. unfold listing at 1. by rewrite resolve_below. Qed.

Lemma contents_below c d rest :
  d ≠ "" → listing fs c d = None → contents fs c (d +:+ "/" +:+ rest) = None.
Proof. intros Hd Hl. unfold contents. by rewrite resolve_below. Qed.

(** a resolved path leads to the entry of its canonical name *)
Lemma resolve_realpath c p q :
  Posixpath.isabs c = true ∨ Posixpath.isabs p = true →
  resolve fs c p = Some q → q = realpath c p.
Proof.
  intros Habs Hq. unfold realpath, path_of.
  destruct (Posixpath.isabs p) eqn:Hp.
  - rewrite (resolve_abs c p Hp) in Hq.
    destruct (walk [] (Str.split p)) as [cur|] eqn:Hw; [|done].
    injection Hq as <-.
    apply walk_norm in Hw as [_ Hw]; [|done|apply split_no_slash].
    by rewrite (components_one c p Hp), Hw.
  - destruct Habs as [Hc|?]; [|done].
    assert (Hne : p ≠ "") by (intros ->; by vm_compute in Hq).
    rewrite (resolve_rel c p Hp Hne) in Hq.
    destruct (walk [] _) as [cur|] eqn:Hw; [|done]. injection Hq as <-.
    apply walk_norm in Hw as [_ Hw]; [|done|].
    2:{ apply Forall_app. split; apply split_no_slash. }
    rewrite norm_comps_app in Hw.
    rewrite <- (components_one "/" c Hc) in Hw.
    rewrite <- (components_join2 "/" c p Hc Hp) in Hw.
    by rewrite (components_rel c p Hp Hc), Hw.
Qed.

Lemma resolve_canon c d q :
  Posixpath.isabs d = true → resolve fs c d = Some q → q = canon d.
Proof.
  intros Hd Hq. rewrite (resolve_realpath c d q (or_intror Hd) Hq).
  by apply realpath_abs.
Qed.

(** a normalised absolute path is resolved through its components *)
Lemma walk_split_slashes_join n (l : list string) :
  Forall plain l →
  walk [] (Str.split (Str.slashes (S n) +:+ Str.join l)) = walk [] ("" :: l).
Proof.
  intros Hl. rewrite split_slashes. destruct l as [|x l].
  - change (Str.split (Str.join [])) with [""]. by rewrite walk_empties.
  - rewrite split_join; [|by eapply Forall_impl; [done|]; intros ? [[? _] _]|done].
    rewrite walk_empties by done. by rewrite walk_empty_cons.
Qed.

Lemma resolve_normal c n (l : list string) :
  Forall plain l →
  resolve fs c (Str.slashes (S n) +:+ Str.join l) = path_of <$> walk [] ("" :: l).
Proof.
  intros Hl. rewrite resolve_abs by apply isabs_cons.
  by rewrite walk_split_slashes_join.
Qed.

Lemma normal_isabs d : normal d → Posixpath.isabs d = true.
Proof. intros (n & l & -> & _). apply isabs_cons. Qed.

Lemma normal_components c d :
  normal d → ∃ n, d = Str.slashes (S n) +:+ Str.join (Posixpath.components c d)
                  ∧ Forall plain (Posixpath.components c d).
Proof.
  intros (n & l & -> & Hl). exists n.
  by rewrite (components_slashes_join c n l Hl).
Qed.

Lemma normal_normpath p : Posixpath.isabs p = true → normal (Posixpath.normpath p).
Proof.
  intros Hp. destruct (normpath_shape p Hp) as [n E]. exists n, (Posixpath.components "/" p).
  split; [done|]. by apply components_normalised.
Qed.

Lemma normal_abspath c s : Posixpath.isabs c = true → normal (Posixpath.abspath c s).
Proof.
  intros Hc. unfold Posixpath.abspath. apply normal_normpath.
  destruct (Posixpath.isabs s) eqn:E; [done|]. by apply isabs_join2.
Qed.

Lemma normal_child d s : normal (child d s).
Proof. apply normal_abspath, isabs_realpath. Qed.

Lemma normal_root_dir start_dir r : normal (root_dir start_dir r).
Proof. apply normal_abspath, isabs_realpath. Qed.

Lemma normal_canon d : Posixpath.isabs d = true → normal (canon d).
Proof.
  intros Hd. exists 0, (Posixpath.components "/" d). split; [done|].
  by apply components_normalised.
Qed.

(** two normalised names of one directory resolve alike *)
Lemma resolve_same c c' d d' :
  normal d → normal d' → canon d = canon d' → resolve fs c d = resolve fs c' d'.
Proof.
  intros Hd Hd' E.
  apply canon_components_inj in E; [|by apply normal_isabs..].
  destruct Hd as (n & l & -> & Hl). destruct Hd' as (n' & l' & -> & Hl').
  rewrite !resolve_normal by done.
  rewrite !components_slashes_join in E by done. by rewrite E.
Qed.

Lemma join_plain_inj (l l' : list string) :
  Forall plain l → Forall plain l' → Str.join l = Str.join l' → l = l'.
Proof.
  intros P P' E.
  assert (N : ∀ l, Forall plain l → Forall no_slash l).
  { intros l0 Hl. eapply Forall_impl; [exact Hl|]. by intros w [[? _] _]. }
  destruct l as [|a l], l' as [|a' l']; [done| | |].
  - symmetry in E. apply join_not_empty in E; [done|].
    by inversion P' as [|? ? [[_ [? _]] _] _].
  - apply join_not_empty in E; [done|]. by inversion P as [|? ? [[_ [? _]] _] _].
  - apply join_inj; auto.
Qed.

(** what a resolved path has passed through *)
Lemma resolve_inv c p q :
  resolve fs c p = Some q →
  ∃ cur, q = path_of cur ∧ Forall plain cur ∧ traversed cur ∧ is_dir [].
Proof.
  unfold resolve. destruct (String.eqb p ""); [done|].
  destruct (walk [] _) as [cur|] eqn:Hw; [|done]. intros [= <-].
  exists cur. split; [done|].
  assert (Hns : Forall no_slash
                  ((if Posixpath.isabs p then [] else Str.split c) ++ Str.split p)).
  { apply Forall_app. split; [|apply split_no_slash].
    destruct (Posixpath.isabs p); [done|apply split_no_slash]. }
  split; [by apply (walk_norm _ [] cur) in Hw as [? _]|].
  split; [by apply (walk_traversed _ [] cur) in Hw|].
  destruct (_ ++ Str.split p) as [|comp comps] eqn:E.
  - apply app_eq_nil in E as [_ E]. by apply split_not_nil in E.
  - by eapply walk_is_dir.
Qed.

(** the normalised name of a resolved entry resolves to it *)
Lemma resolve_normal_resolved c p q c' d :
  resolve fs c p = Some q → normal d → canon d = q → resolve fs c' d = Some q.
Proof.
  intros (cur & -> & Hp & Ht & Hroot)%resolve_inv (n & l & -> & Hl) E.
  rewrite resolve_normal by done.
  rewrite canon_components, components_slashes_join in E by done.
  unfold path_of in E. injection E as E.
  apply join_plain_inj in E as ->; [|done|by apply Forall_rev].
  by rewrite walk_again.
Qed.

Lemma walk_join2 cur d f :
  d ≠ "" → Str.startswith "/" f = false →
  walk cur (Str.split (Posixpath.join2 d f))
  = walk cur (Str.split d) ≫= λ cur', walk cur' (Str.split f).
Proof.
  intros Hd Hf. destruct (split_join2 d f Hd Hf) as (x & -> & [->| ->]).
  - apply walk_app.
  - rewrite !walk_app.
    destruct (walk cur (Str.split x)) as [cur'|]; [|done].
    destruct (Str.split f) as [|comp comps] eqn:E; [by apply split_not_nil in E|].
    cbn [mbind option_bind]. rewrite (walk_cons cur' ""). cbn [String.eqb orb].
    rewrite walk_cons. case_bool_decide as B; [|done].
    change (walk cur' []) with (Some cur'). cbn [mbind option_bind].
    rewrite walk_cons. by rewrite bool_decide_eq_true_2.
Qed.

(** the file [f] of a directory is resolved from the directory *)
Lemma resolve_join_same c c' d d' f :
  normal d → normal d' → canon d = canon d' →
  resolve fs c (Posixpath.join d [f]) = resolve fs c' (Posixpath.join d' [f]).
Proof.
  intros Hd Hd' E. unfold Posixpath.join. cbn [foldl].
  destruct (Str.startswith "/" f) eqn:Hf.
  - unfold Posixpath.join2. rewrite Hf. by apply resolve_abs_cwd.
  - pose proof (normal_isabs d Hd) as Ad. pose proof (normal_isabs d' Hd') as Ad'.
    rewrite !resolve_abs by (by apply isabs_join2).
    rewrite !walk_join2 by (done || by intros ->).
    apply canon_components_inj in E; [|done..].
    destruct Hd as (n & l & -> & Hl). destruct Hd' as (n' & l' & -> & Hl').
    rewrite !walk_split_slashes_join by done.
    rewrite !components_slashes_join in E by done. by rewrite E.
Qed.

End Resolution.

(** In the tree of the examples: a path through the missing name [ghost]
    is not resolved although its text normalises to an existing directory,
    nor is the empty path or a file followed by a slash; [..] is followed
    from a directory that exists, and stays at the root there. *)
Example resolve_ex :
  resolve Fixtures.repo "/" "/repo/ghost/../C" = None
  ∧ realpath "/" "/repo/ghost/../C" = "/repo/C"
  ∧ resolve Fixtures.repo "/" "/repo/R/../C" = Some "/repo/C"
  ∧ resolve Fixtures.repo "/repo" "" = None
  ∧ resolve Fixtures.repo "/repo" "R/main.tf/" = None
  ∧ resolve Fixtures.repo "/repo" "R/main.tf" = Some "/repo/R/main.tf"
  ∧ resolve Fixtures.repo "/repo/R" "../../.." = Some "/".
Proof. repeat split; vm_compute; exact eq_refl. Qed.

Example listing_ex :
  listing Fixtures.repo "/" "/repo/ghost/../C" = None
  ∧ listing Fixtures.repo "/repo" "ghost/../C" = None
  ∧ listing Fixtures.repo "/repo" "" = None
  ∧ listing Fixtures.repo "/repo" "." = listing Fixtures.repo "/" "/repo"
  ∧ listing Fixtures.repo "/repo/R" "../C" = Some ["main.tf"; "outputs.tf"]
  ∧ contents Fixtures.repo "/repo" "ghost/../R/README.md" = None
  ∧ contents Fixtures.repo "/repo" "R/README.md" = Some "the root R".
Proof. repeat split; vm_compute; exact eq_refl. Qed.

(** ** The monad and the readings of the file system *)

Lemma bind_Ok {A B : Type} (m : M A) (k : A → M B) st b st'' :
  bind m k st = Ok (b, st'') ↔ ∃ a st', m st = Ok (a, st') ∧ k a st' = Ok (b, st'').
Proof.
  unfold bind. split.
  - destruct (m st) as [[a st']|e]; [eauto|done].
  - intros (a & st' & -> & H). done.
Qed.

Lemma for_each_nil {A : Type} (body : A → M unit) st :
  for_each [] body st = Ok (tt, st).
Proof. done. Qed.

Lemma for_each_cons_Ok {A : Type} (body : A → M unit) x l st st'' :
  for_each (x :: l) body st = Ok (tt, st'') ↔
  ∃ st', body x st = Ok (tt, st') ∧ for_each l body st' = Ok (tt, st'').
Proof.
  cbn [for_each]. rewrite bind_Ok. split.
  - intros ([] & st' & H1 & H2). eauto.
  - intros (st' & H1 & H2). exists tt, st'. done.
Qed.

Section Readings.

Variable fs : filesystem.
Variable hcl2_loads : string → option tf_dict.

Lemma get_tf_files_abs d st :
  Posixpath.isabs d = true →
  get_tf_files fs d st =
    match tf_files fs d with
    | Some files => Ok (files, st)
    | None => Raise NotADirectory
    end.
Proof.
  intros Hd. unfold get_tf_files, tf_files, bind, isdir, listdir, ret, raise.
  rewrite (listing_abs fs (cwd st) "/" d Hd).
  destruct (listing fs "/" d) as [l|] eqn:E.
  - rewrite bool_decide_true by eauto. simpl.
    by rewrite (listing_abs fs (cwd st) "/" d Hd), E.
  - by rewrite bool_decide_false by (by intros [? ?]).
Qed.

Lemma extract_sources_abs d f st :
  Posixpath.isabs d = true →
  extract_sources fs hcl2_loads (Posixpath.join d [f]) st =
    match contents fs "/" (Posixpath.join d [f]) with
    | None => Raise OSError
    | Some data =>
        if Str.contains "source " data then
          match hcl2_loads data with
          | Some tf => Ok (module_sources tf, st)
          | None => Raise ParseError
          end
        else Ok ([], st)
    end.
Proof.
  intros Hd. unfold extract_sources, bind, read_file.
  rewrite (contents_abs fs (cwd st) "/") by (by apply isabs_join2).
  destruct (contents fs _ _) as [data|]; [|done].
  destruct (Str.contains _ data); [|done].
  by destruct (hcl2_loads data).
Qed.

Lemma extract_sources_Ok d f st srcs st' :
  Posixpath.isabs d = true →
  extract_sources fs hcl2_loads (Posixpath.join d [f]) st = Ok (srcs, st') ↔
  file_sources fs hcl2_loads d f = Some srcs ∧ st' = st.
Proof.
  intros Hd. rewrite (extract_sources_abs _ _ _ Hd). unfold file_sources.
  destruct (contents fs _ _) as [data|]; simpl; [|by split; [|intros [? _]]].
  destruct (Str.contains _ data).
  - destruct (hcl2_loads data); simpl; [|by split; [|intros [? _]]].
    split; [by intros [= <- <-]|by intros [[= <-] ->]].
  - split; [by intros [= <- <-]|by intros [[= <-] ->]].
Qed.

Lemma chdir_abs d st :
  Posixpath.isabs d = true →
  is_Some (tf_files fs d) →
  chdir fs d st = Ok (tt, set_cwd (canon d) st).
Proof.
  intros Hd [files Hf]. unfold chdir.
  rewrite (resolve_abs_cwd fs (cwd st) "/" d Hd).
  unfold tf_files, listing in Hf.
  destruct (resolve fs "/" d) as [q|] eqn:Hq; [|done]. cbn in Hf.
  rewrite <- (resolve_canon fs "/" d q Hd Hq).
  by destruct (fs_listdir fs q).
Qed.

End Readings.

(** ** The table of [lru_cache] *)

Lemma lru_mem_true k c : Lru.mem k c = true ↔ k ∈ c.
Proof. unfold Lru.mem. apply bool_decide_eq_true. Qed.

Lemma lru_mem_false k c : Lru.mem k c = false ↔ k ∉ c.
Proof. unfold Lru.mem. apply bool_decide_eq_false. Qed.

Lemma elem_of_removelast {A : Type} (x : A) (l : list A) : x ∈ removelast l → x ∈ l.
Proof.
  induction l as [|a l IH]; [done|]. simpl.
  destruct l as [|b l]; [by intros ?%elem_of_nil|].
  intros [->|H]%elem_of_cons; [left|right; by apply IH].
Qed.

Lemma elem_of_lru_touch x k c : x ∈ Lru.touch k c → x = k ∨ x ∈ c.
Proof.
  unfold Lru.touch. intros [->|H]%elem_of_cons; [by left|right].
  apply list_elem_of_In, filter_In in H as [H _]. by apply list_elem_of_In.
Qed.

Lemma elem_of_lru_store x k c : x ∈ Lru.store k c → x = k ∨ x ∈ c.
Proof.
  unfold Lru.store. destruct (Lru.mem k c); [by right|].
  destruct (_ <? _)%nat.
  - intros [->|H]%elem_of_cons; eauto.
  - intros [->|H]%elem_of_cons; [by left|right]. by apply elem_of_removelast.
Qed.

Lemma lru_store_bounded k c :
  List.length c ≤ Lru.maxsize → List.length (Lru.store k c) ≤ Lru.maxsize.
Proof.
  intros H. unfold Lru.store. destruct (Lru.mem k c); [done|].
  destruct (Nat.ltb_spec (List.length c) Lru.maxsize) as [Hlt|Hge]; simpl; [lia|].
  rewrite removelast_firstn_len, length_take. unfold Lru.maxsize in *. lia.
Qed.

(** ** The dependency map *)

Lemma in_deps_empty k v : ¬ in_deps ∅ k v.
Proof. unfold in_deps. rewrite lookup_empty. simpl. set_solver. Qed.

Lemma in_deps_insert (m : gmap string (gset string)) k v k' v' :
  in_deps (<[k := {[v]} ∪ default ∅ (m !! k)]> m) k' v' ↔
  in_deps m k' v' ∨ (k' = k ∧ v' = v).
Proof.
  unfold in_deps. destruct (decide (k' = k)) as [->|Hne].
  - rewrite lookup_insert_eq. simpl.
    rewrite elem_of_union, elem_of_singleton. tauto.
  - rewrite lookup_insert_ne by done. tauto.
Qed.

(** ** The graph *)

Section GraphFacts.

Variable fs : filesystem.
Variable hcl2_loads : string → option tf_dict.
Variable start_dir : string.

Local Abbreviation good := (good fs hcl2_loads).
Local Abbreviation reach := (reach fs hcl2_loads).
Local Abbreviation dir_source := (dir_source fs hcl2_loads).
Local Abbreviation dir_ok := (dir_ok fs hcl2_loads).
Local Abbreviation below := (below fs hcl2_loads start_dir).
Local Abbreviation edge_at := (edge_at fs hcl2_loads start_dir).

Lemma good_mono n m d : good n d → n ≤ m → good m d.
Proof.
  revert m d. induction n as [|n IH]; intros m d; [done|].
  intros [Hok Hch] Hle. destruct m as [|m]; [lia|].
  split; [done|]. intros s Hs. apply (IH m); [by apply Hch|lia].
Qed.

Lemma good_dir_ok n d : good n d → dir_ok d.
Proof. destruct n; [done|]. by intros [H _]. Qed.

Lemma good_reach n d d' : good n d → reach d d' → ∃ m, good m d'.
Proof.
  intros Hg Hr. revert n Hg. induction Hr as [d|d s d' Hs Hr IH]; intros n Hg.
  - eauto.
  - destruct n as [|n]; [done|]. destruct Hg as [_ Hch]. eapply IH, Hch, Hs.
Qed.

Lemma reach_trans d1 d2 d3 : reach d1 d2 → reach d2 d3 → reach d1 d3.
Proof.
  induction 1 as [d|d s d' Hs Hr IH]; [done|].
  intros H. eapply reach_source; [done|]. by apply IH.
Qed.

Lemma below_unfold d k v :
  below d k v ↔ edge_at d k v ∨ ∃ s, dir_source d s ∧ below (child d s) k v.
Proof.
  split.
  - intros (d' & Hr & He). inversion Hr as [|? s ? Hs Hr']; subst.
    + by left.
    + right. exists s. split; [done|]. by exists d'.
  - intros [He|(s & Hs & d' & Hr & He)].
    + exists d. split; [constructor|done].
    + exists d'. split; [|done]. by eapply reach_source.
Qed.

Lemma below_source d s k v :
  dir_source d s → below (child d s) k v → below d k v.
Proof. intros Hs Hb. apply below_unfold. right. eauto. Qed.

Lemma dir_source_listed d s : dir_source d s → is_Some (tf_files fs d).
Proof. intros (files & _ & _ & -> & _). eauto. Qed.

End GraphFacts.

(** ** What a returning expansion has done *)

Section Builder.

Variable fs : filesystem.
Variable hcl2_loads : string → option tf_dict.
Variable start_dir : string.
Hypothesis start_abs : Posixpath.isabs start_dir = true.

Local Abbreviation good := (good fs hcl2_loads).
Local Abbreviation reach := (reach fs hcl2_loads).
Local Abbreviation dir_source := (dir_source fs hcl2_loads).
Local Abbreviation dir_ok := (dir_ok fs hcl2_loads).
Local Abbreviation below := (below fs hcl2_loads start_dir).
Local Abbreviation edge_at := (edge_at fs hcl2_loads start_dir).
Local Abbreviation cache_ok := (cache_ok fs hcl2_loads start_dir).
Local Abbreviation effect := (effect fs hcl2_loads start_dir).
Local Abbreviation moved := (moved fs hcl2_loads).
Local Abbreviation edges := (edges_of fs hcl2_loads start_dir).
Local Abbreviation find_deps := (find_deps_for_dir fs hcl2_loads start_dir).
Local Abbreviation ident := (identity start_dir).

Local Abbreviation stamped := (recorded start_dir).

Lemma visit_source_skip recurse d s st :
  Str.contains "./" s = false →
  visit_source fs start_dir recurse d (Some s) st = Ok (tt, st).
Proof. intros H. unfold visit_source. by rewrite H. Qed.

Lemma visit_source_follow recurse d s st :
  Posixpath.isabs d = true →
  is_Some (tf_files fs d) →
  Str.contains "./" s = true →
  visit_source fs start_dir recurse d (Some s) st = recurse (child d s) (stamped d s st).
Proof.
  intros Hd Hl Hc. unfold visit_source. rewrite Hc.
  unfold bind at 1. rewrite (chdir_abs fs d st Hd Hl).
  unfold bind, abspath, relpath, add_dependent. cbn [cwd set_cwd].
  fold (child d s).
  rewrite (relpath_identity start_dir _ _ (isabs_child d s) start_abs).
  rewrite (relpath_identity start_dir _ _ Hd start_abs).
  reflexivity.
Qed.

Lemma cache_ok_recorded d s st : cache_ok st → cache_ok (stamped d s st).
Proof.
  intros Hc c Hin. destruct (Hc c Hin) as (Ha & Hg & Hb).
  split; [done|]. split; [done|]. intros k v Hkv.
  unfold recorded. cbn [dependents set_dependents set_cwd].
  apply in_deps_insert. left. by apply Hb.
Qed.

Lemma effect_refl E st : cache_ok st → (∀ k v, ¬ E k v) → effect E st st.
Proof. intros Hc HE. split; [done|]. intros k v. specialize (HE k v). tauto. Qed.

Lemma effect_trans E1 E2 E st1 st2 st3 :
  effect E1 st1 st2 → effect E2 st2 st3 →
  (∀ k v, E k v ↔ E1 k v ∨ E2 k v) →
  effect E st1 st3.
Proof.
  intros [_ H1] [Hc H2] HE. split; [done|]. intros k v.
  rewrite H2, H1, HE. tauto.
Qed.

Lemma moved_trans d c1 c2 c3 : moved d c1 c2 → moved d c2 c3 → moved d c1 c3.
Proof.
  intros [->|H1] [->|H2]; [by left|by right|by right|by right].
Qed.

Lemma moved_source d s c c' :
  dir_source d s → moved (child d s) (canon d) c' → moved d c c'.
Proof.
  intros Hs [->|(d' & Hr & Hs' & ->)]; right.
  - exists d. split; [constructor|]. split; [eauto|done].
  - exists d'. split; [by eapply reach_source|done].
Qed.

Section Loops.

Variable limit : nat.
Hypothesis IH : ∀ d st st',
  Posixpath.isabs d = true → cache_ok st →
  find_deps limit d st = Ok (tt, st') →
  (∃ n, good n d) ∧ effect (below d) st st' ∧ moved d (cwd st) (cwd st').

Variable d : string.
Hypothesis d_abs : Posixpath.isabs d = true.
Variable files : list string.
Hypothesis d_files : tf_files fs d = Some files.

Lemma sources_loop srcs : ∀ st st',
  (∀ s, Some s ∈ srcs → Str.contains "./" s = true → dir_source d s) →
  cache_ok st →
  for_each srcs (visit_source fs start_dir (find_deps limit) d) st = Ok (tt, st') →
  (None ∉ srcs) ∧
  (∃ n, ∀ s, Some s ∈ srcs → Str.contains "./" s = true → good n (child d s)) ∧
  effect (edges d srcs) st st' ∧
  moved d (cwd st) (cwd st').
Proof.
  induction srcs as [|src srcs IHs]; intros st st' Hsrc Hc Hrun.
  - rewrite for_each_nil in Hrun. injection Hrun as <-.
    split; [apply not_elem_of_nil|]. split.
    { exists 0. by intros s ?%elem_of_nil. }
    split; [|by left]. apply effect_refl; [done|].
    intros k v (s & ?%elem_of_nil & _). done.
  - apply for_each_cons_Ok in Hrun as (st1 & H1 & H2).
    destruct src as [s|]; [|done].
    assert (Hsrc' : ∀ s0, Some s0 ∈ srcs → Str.contains "./" s0 = true → dir_source d s0).
    { intros s0 H0. apply Hsrc. by right. }
    destruct (Str.contains "./" s) eqn:Ec.
    + assert (Hs : dir_source d s) by (apply Hsrc; [by left|done]).
      rewrite visit_source_follow in H1 by eauto.
      apply IH in H1 as ((n1 & Hg1) & He1 & Hm1);
        [|apply isabs_child|by apply cache_ok_recorded].
      destruct (IHs st1 st' Hsrc' (proj1 He1) H2) as (Hnone & (n2 & Hg2) & He2 & Hm2).
      split; [|split; [|split]].
      * intros [?|?]%elem_of_cons; done.
      * exists (n1 `max` n2). intros s0 [[= ->]|H0]%elem_of_cons Hc0.
        -- eapply good_mono; [done|lia].
        -- eapply good_mono; [by apply Hg2|lia].
      * split; [apply He2|]. intros k v.
        rewrite (proj2 He2), (proj2 He1). unfold recorded.
        cbn [dependents set_dependents set_cwd]. rewrite in_deps_insert.
        unfold edges_of.
        split.
        -- intros [[[H|[-> ->]]|H]|(s0 & H0 & Hc0 & H)].
           ++ by left.
           ++ right. exists s. split; [by left|]. split; [done|]. by left.
           ++ right. exists s. split; [by left|]. split; [done|]. by right.
           ++ right. exists s0. split; [by right|]. done.
        -- intros [H|(s0 & [[= ->]|H0]%elem_of_cons & Hc0 & [[-> ->]|H])]; eauto 10.
      * eapply moved_trans; [|done]. eapply moved_source; [done|]. apply Hm1.
    + rewrite visit_source_skip in H1 by done. injection H1 as <-.
      destruct (IHs st st' Hsrc' Hc H2) as (Hnone & (n2 & Hg2) & He2 & Hm2).
      split; [|split; [|split]]; [| |split; [apply He2|]|done].
      * intros [?|?]%elem_of_cons; done.
      * exists n2. intros s0 [[= ->]|H0]%elem_of_cons Hc0; [congruence|by apply Hg2].
      * intros k v. rewrite (proj2 He2). unfold edges_of. split.
        -- intros [H|(s0 & H0 & H)]; [by left|right].
           exists s0. split; [by right|done].
        -- intros [H|(s0 & [[= ->]|H0]%elem_of_cons & Hc0 & H)];
             [by left|congruence|right; by exists s0].
Qed.

Lemma files_loop fl : ∀ st st',
  fl ⊆ files →
  cache_ok st →
  for_each fl (visit_file fs hcl2_loads start_dir (find_deps limit) d) st = Ok (tt, st') →
  (∀ f, f ∈ fl → ∃ srcs, file_sources fs hcl2_loads d f = Some srcs ∧ None ∉ srcs) ∧
  (∃ n, ∀ f srcs s, f ∈ fl → file_sources fs hcl2_loads d f = Some srcs →
          Some s ∈ srcs → Str.contains "./" s = true → good n (child d s)) ∧
  effect (λ k v, ∃ f srcs, f ∈ fl ∧ file_sources fs hcl2_loads d f = Some srcs ∧
                   edges d srcs k v) st st' ∧
  moved d (cwd st) (cwd st').
Proof.
  induction fl as [|f fl IHf]; intros st st' Hsub Hc Hrun.
  - rewrite for_each_nil in Hrun. injection Hrun as <-.
    split; [by intros f ?%elem_of_nil|]. split.
    { exists 0. by intros f srcs s ?%elem_of_nil. }
    split; [|by left]. apply effect_refl; [done|].
    intros k v (f & srcs & ?%elem_of_nil & _). done.
  - apply for_each_cons_Ok in Hrun as (st1 & H1 & H2).
    unfold visit_file in H1. apply bind_Ok in H1 as (srcs & st0 & Hx & H1).
    apply extract_sources_Ok in Hx as [Hx ->]; [|done].
    assert (Hf : f ∈ files) by (apply Hsub; by left).
    assert (Hsub' : fl ⊆ files) by (intros x Hx'; apply Hsub; by right).
    apply sources_loop in H1 as (Hnone & (n1 & Hg1) & He1 & Hm1); [|
      intros s Hs Hcs; by exists files, f, srcs | done].
    destruct (IHf st1 st' Hsub' (proj1 He1) H2) as (Hall & (n2 & Hg2) & He2 & Hm2).
    split; [|split; [|split]].
    + intros f0 [->|H0]%elem_of_cons; [eauto|by apply Hall].
    + exists (n1 `max` n2). intros f0 srcs0 s [->|H0]%elem_of_cons Hx0 Hs Hcs.
      * rewrite Hx in Hx0. injection Hx0 as <-.
        eapply good_mono; [by apply Hg1|lia].
      * eapply good_mono; [by eapply Hg2|lia].
    + eapply effect_trans; [done|done|]. intros k v. split.
      * intros (f0 & srcs0 & [->|H0]%elem_of_cons & Hx0 & He).
        -- left. rewrite Hx in Hx0. by injection Hx0 as <-.
        -- right. by exists f0, srcs0.
      * intros [He|(f0 & srcs0 & H0 & Hx0 & He)].
        -- exists f, srcs. split; [by left|done].
        -- exists f0, srcs0. split; [by right|done].
    + by eapply moved_trans.
Qed.

End Loops.

Lemma edges_below d files :
  tf_files fs d = Some files →
  ∀ k v,
    (∃ f srcs, f ∈ files ∧ file_sources fs hcl2_loads d f = Some srcs ∧ edges d srcs k v)
    ↔ below d k v.
Proof.
  intros Hfiles k v. rewrite below_unfold. split.
  - intros (f & srcs & Hf & Hx & s & Hs & Hc & H).
    assert (dir_source d s) by (by exists files, f, srcs).
    destruct H as [[-> ->]|H]; [left; by exists s|right; by exists s].
  - intros [(s & (files0 & f & srcs & Hfiles0 & Hf & Hx & Hs & Hc) & -> & ->)
           |(s & (files0 & f & srcs & Hfiles0 & Hf & Hx & Hs & Hc) & H)];
      rewrite Hfiles in Hfiles0; injection Hfiles0 as <-;
      exists f, srcs; (split; [done|]); (split; [done|]); exists s; eauto.
Qed.

(** A returning call of the memoised [find_deps_for_dir]: the references
    below [d] form a finite tree of well-formed directories, the map has
    gained exactly the edges below [d], and the cache invariant is kept. *)
Lemma find_deps_sound limit : ∀ d st st',
  Posixpath.isabs d = true → cache_ok st →
  find_deps limit d st = Ok (tt, st') →
  (∃ n, good n d) ∧ effect (below d) st st' ∧ moved d (cwd st) (cwd st').
Proof.
  induction limit as [|limit IH]; intros d st st' Hd Hc Hrun; [done|].
  cbn [find_deps_for_dir] in Hrun.
  destruct (Lru.mem d (cache st)) eqn:Hmem.
  - injection Hrun as <-. apply lru_mem_true in Hmem.
    destruct (Hc d Hmem) as (_ & Hg & Hb).
    split; [done|]. split; [|by left]. split.
    + intros c [->|Hin]%elem_of_lru_touch; by apply Hc.
    + intros k v. cbn [dependents set_cache]. split; [by left|]. intros [?|?]; eauto.
  - apply bind_Ok in Hrun as (files & st0 & Hfiles & Hrun).
    rewrite (get_tf_files_abs fs d st Hd) in Hfiles.
    destruct (tf_files fs d) as [files0|] eqn:Efiles; [|done].
    injection Hfiles as -> <-.
    apply bind_Ok in Hrun as ([] & st1 & Hloop & Hstore).
    injection Hstore as <-.
    apply (files_loop limit IH d Hd files Efiles) in Hloop
      as (Hall & (n & Hg) & [Hc1 He] & Hm); [|done|done].
    assert (Hgood : good (S n) d).
    { split; [by exists files|].
      intros s (files0 & f & srcs & Hfiles0 & Hf & Hx & Hs & Hcs).
      rewrite Efiles in Hfiles0. injection Hfiles0 as <-. by eapply Hg. }
    assert (Heff : ∀ k v, in_deps (dependents st1) k v ↔
                          in_deps (dependents st) k v ∨ below d k v).
    { intros k v. rewrite He. by rewrite (edges_below d files Efiles). }
    split; [eauto|]. split; [|done]. split; [|done].
    intros c [->|Hin]%elem_of_lru_store.
    + split; [done|]. split; [eauto|]. intros k v Hb.
      cbn [dependents set_cache]. apply Heff. by right.
    + by apply Hc1.
Qed.

End Builder.

(** ** Expansions that return *)

Section Returns.

Variable fs : filesystem.
Variable hcl2_loads : string → option tf_dict.
Variable start_dir : string.
Hypothesis start_abs : Posixpath.isabs start_dir = true.

Local Abbreviation good := (good fs hcl2_loads).
Local Abbreviation dir_source := (dir_source fs hcl2_loads).
Local Abbreviation find_deps := (find_deps_for_dir fs hcl2_loads start_dir).

Lemma sources_loop_returns limit d files f srcs0 :
  Posixpath.isabs d = true →
  tf_files fs d = Some files → f ∈ files →
  file_sources fs hcl2_loads d f = Some srcs0 → None ∉ srcs0 →
  (∀ s st, dir_source d s → ∃ st', find_deps limit (child d s) st = Ok (tt, st')) →
  ∀ srcs st, srcs ⊆ srcs0 →
    ∃ st', for_each srcs (visit_source fs start_dir (find_deps limit) d) st = Ok (tt, st').
Proof.
  intros Hd Hfiles Hf Hx Hnone Hrec srcs.
  induction srcs as [|src srcs IHs]; intros st Hsub; [by eexists|].
  assert (Hin : src ∈ srcs0) by (apply Hsub; by left).
  assert (Hsub' : srcs ⊆ srcs0) by (intros x Hx'; apply Hsub; by right).
  destruct src as [s|]; [|done].
  assert (∃ st1, visit_source fs start_dir (find_deps limit) d (Some s) st = Ok (tt, st1))
    as [st1 H1].
  { destruct (Str.contains "./" s) eqn:Ec.
    - rewrite (visit_source_follow fs start_dir start_abs) by eauto.
      apply Hrec. by exists files, f, srcs0.
    - rewrite visit_source_skip by done. eauto. }
  destruct (IHs st1 Hsub') as [st' H2].
  exists st'. apply for_each_cons_Ok. eauto.
Qed.

Lemma files_loop_returns limit d files :
  Posixpath.isabs d = true →
  tf_files fs d = Some files →
  (∀ f, f ∈ files → ∃ srcs, file_sources fs hcl2_loads d f = Some srcs ∧ None ∉ srcs) →
  (∀ s st, dir_source d s → ∃ st', find_deps limit (child d s) st = Ok (tt, st')) →
  ∀ fl st, fl ⊆ files →
    ∃ st', for_each fl (visit_file fs hcl2_loads start_dir (find_deps limit) d) st
           = Ok (tt, st').
Proof.
  intros Hd Hfiles Hall Hrec fl.
  induction fl as [|f fl IHf]; intros st Hsub; [by eexists|].
  assert (Hf : f ∈ files) by (apply Hsub; by left).
  assert (Hsub' : fl ⊆ files) by (intros x Hx'; apply Hsub; by right).
  destruct (Hall f Hf) as (srcs & Hx & Hnone).
  destruct (sources_loop_returns limit d files f srcs Hd Hfiles Hf Hx Hnone Hrec srcs st)
    as [st1 H1]; [done|].
  destruct (IHf st1 Hsub') as [st' H2].
  exists st'. apply for_each_cons_Ok. exists st1. split; [|done].
  unfold visit_file. apply bind_Ok. exists srcs, st. split; [|done].
  by apply extract_sources_Ok.
Qed.

(** On a finite tree of well-formed directories the expansion returns as
    soon as the limit on nested calls exceeds the height of the tree. *)
Lemma find_deps_returns n : ∀ limit d st,
  Posixpath.isabs d = true → good n d → n ≤ limit →
  ∃ st', find_deps limit d st = Ok (tt, st').
Proof.
  induction n as [|n IH]; intros limit d st Hd Hg Hle; [done|].
  destruct limit as [|limit]; [lia|].
  destruct Hg as [(files & Hfiles & Hall) Hch].
  cbn [find_deps_for_dir].
  destruct (Lru.mem d (cache st)); [by eexists|].
  destruct (files_loop_returns limit d files Hd Hfiles Hall) with (fl := files) (st := st)
    as [st1 H1]; [|done|].
  { intros s st0 Hs. apply IH; [apply isabs_child|by apply Hch|lia]. }
  eexists. apply bind_Ok. exists files, st. split.
  { rewrite (get_tf_files_abs fs d st Hd). by rewrite Hfiles. }
  apply bind_Ok. exists tt, st1. split; [done|]. reflexivity.
Qed.

End Returns.

(** ** The whole build *)

Section Build.

Variable fs : filesystem.
Variable hcl2_loads : string → option tf_dict.
Variable start_dir : string.
Hypothesis start_abs : Posixpath.isabs start_dir = true.

Local Abbreviation good := (good fs hcl2_loads).
Local Abbreviation cache_ok := (cache_ok fs hcl2_loads start_dir).
Local Abbreviation effect := (effect fs hcl2_loads start_dir).
Local Abbreviation find_deps := (find_deps_for_dir fs hcl2_loads start_dir).
Local Abbreviation root := (root_dir start_dir).
Local Abbreviation under := (below_roots fs hcl2_loads start_dir).
Local Abbreviation resting := (left_at fs hcl2_loads start_dir).
Local Abbreviation build := (build_dependency_dict fs hcl2_loads).

Lemma chdir_start st u st' :
  chdir fs start_dir st = Ok (u, st') ↔
  is_Some (listing fs "/" start_dir) ∧ st' = set_cwd (canon start_dir) st.
Proof.
  unfold chdir, listing. rewrite (resolve_abs_cwd fs (cwd st) "/" _ start_abs).
  destruct u. destruct (resolve fs "/" start_dir) as [q|] eqn:Hq; cbn.
  - pose proof (resolve_canon fs "/" start_dir q start_abs Hq) as ->.
    destruct (fs_listdir fs (canon start_dir)); split.
    + intros [= <-]. eauto.
    + by intros [_ ->].
    + done.
    + by intros [[? ?] _].
  - split; [done|by intros [[? ?] _]].
Qed.

Lemma visit_root_Ok limit r st st' :
  visit_root fs hcl2_loads start_dir limit r st = Ok (tt, st') ↔
  is_Some (listing fs "/" start_dir) ∧
  find_deps limit (root r) (set_cwd (canon start_dir) st) = Ok (tt, st').
Proof.
  unfold visit_root. rewrite bind_Ok. split.
  - intros (u & st1 & [Hs ->]%chdir_start & H). split; [done|].
    apply bind_Ok in H as (a & st2 & [= <- <-] & H). done.
  - intros [Hs H]. exists tt, (set_cwd (canon start_dir) st).
    split; [by apply chdir_start|]. apply bind_Ok. eexists _, _. split; [reflexivity|done].
Qed.

Lemma isabs_root r : Posixpath.isabs (root r) = true.
Proof. apply isabs_abspath, isabs_realpath. Qed.

Lemma roots_loop limit rs : ∀ st st',
  cache_ok st →
  for_each rs (visit_root fs hcl2_loads start_dir limit) st = Ok (tt, st') →
  (∀ r, r ∈ rs → ∃ n, good n (root r)) ∧
  effect (under rs) st st' ∧
  (cwd st' = cwd st ∨ resting rs (cwd st')).
Proof.
  induction rs as [|r rs IHr]; intros st st' Hc Hrun.
  - rewrite for_each_nil in Hrun. injection Hrun as <-.
    split; [by intros r ?%elem_of_nil|]. split; [|by left].
    split; [done|]. intros k v. split; [by left|].
    intros [?|(r & ?%elem_of_nil & _)]; done.
  - apply for_each_cons_Ok in Hrun as (st1 & H1 & H2).
    apply visit_root_Ok in H1 as [Hs H1].
    apply (find_deps_sound fs hcl2_loads start_dir start_abs) in H1
      as (Hg & [Hc1 He1] & Hm); [|apply isabs_root|done].
    destruct (IHr st1 st' Hc1 H2) as (Hall & [Hc2 He2] & Hcwd).
    split; [|split; [split; [done|]|]].
    + intros r0 [->|H0]%elem_of_cons; eauto.
    + intros k v. rewrite He2, He1. cbn [dependents set_cwd]. unfold below_roots. split.
      * intros [[H|H]|(r0 & H0 & H)]; [by left|right..].
        -- exists r. split; [by left|done].
        -- exists r0. split; [by right|done].
      * intros [H|(r0 & [->|H0]%elem_of_cons & H)]; [by left; left|by left; right|right].
        by exists r0.
    + right. destruct Hcwd as [->|[->|(r0 & d' & H0 & Hr & Hd' & ->)]].
      * cbn [cwd set_cwd] in Hm. destruct Hm as [->|(d' & Hr & Hd' & ->)]; [by left|right].
        exists r, d'. split; [by left|done].
      * by left.
      * right. exists r0, d'. split; [by right|done].
Qed.

(** What a returning build has established. *)
Lemma build_sound limit roots cwd0 deps c :
  build limit roots start_dir cwd0 = Ok (deps, c) →
  is_Some (listing fs "/" start_dir) ∧
  (∀ r, r ∈ roots → ∃ n, good n (root r)) ∧
  (∀ k v, in_deps deps k v ↔ under roots k v) ∧
  resting roots c.
Proof.
  unfold build_dependency_dict, build_body. intros H.
  destruct (bind _ _ _) as [[[] st']|] eqn:E; [|done]. injection H as <- <-.
  apply bind_Ok in E as (u & st1 & [Hs ->]%chdir_start & E).
  apply roots_loop in E as (Hall & [_ He] & Hcwd).
  2:{ intros c0 ?%elem_of_nil. done. }
  split; [done|]. split; [done|]. split.
  - intros k v. rewrite He. cbn [dependents set_cwd]. split; [|by right].
    intros [H|H]; [by apply in_deps_empty in H|done].
  - destruct Hcwd as [->|H]; [by left|done].
Qed.

Lemma roots_loop_returns n limit rs :
  is_Some (listing fs "/" start_dir) →
  (∀ r, r ∈ rs → good n (root r)) → n ≤ limit →
  ∀ st, ∃ st', for_each rs (visit_root fs hcl2_loads start_dir limit) st = Ok (tt, st').
Proof.
  intros Hs Hall Hle. induction rs as [|r rs IHr]; intros st; [by eexists|].
  destruct (find_deps_returns fs hcl2_loads start_dir start_abs n limit (root r)
              (set_cwd (canon start_dir) st)) as [st1 H1];
    [apply isabs_root|apply Hall; by left|done|].
  destruct IHr with (st := st1) as [st' H2]; [intros r0 H0; apply Hall; by right|].
  exists st'. apply for_each_cons_Ok. exists st1. split; [|done].
  by apply visit_root_Ok.
Qed.

(** When [start_dir] is a directory and the references below every root
    form a tree of well-formed directories of height at most [n], a build
    with a limit of at least [n] nested calls returns. *)
Lemma build_returns n limit roots cwd0 :
  is_Some (listing fs "/" start_dir) →
  (∀ r, r ∈ roots → good n (root r)) → n ≤ limit →
  ∃ deps c, build limit roots start_dir cwd0 = Ok (deps, c).
Proof.
  intros Hs Hall Hle. unfold build_dependency_dict, build_body.
  destruct (roots_loop_returns n limit roots Hs Hall Hle
              (set_cwd (canon start_dir) {| cwd := cwd0; dependents := ∅; cache := [] |}))
    as [st' H].
  assert (E : bind (chdir fs start_dir)
                (λ _, for_each roots (visit_root fs hcl2_loads start_dir limit))
                {| cwd := cwd0; dependents := ∅; cache := [] |} = Ok (tt, st')).
  { apply bind_Ok. eexists tt, _. split; [by apply chdir_start|done]. }
  rewrite E. eauto.
Qed.

(** With an absolute [start_dir] the build does not read the working
    directory it is started in. *)
Lemma build_cwd_independent limit roots cwd1 cwd2 :
  build limit roots start_dir cwd1 = build limit roots start_dir cwd2.
Proof.
  unfold build_dependency_dict, build_body, bind, chdir. cbn [cwd].
  rewrite (resolve_abs_cwd fs cwd1 cwd2 _ start_abs).
  destruct (resolve fs cwd2 start_dir) as [q|]; [|done].
  by destruct (fs_listdir fs q).
Qed.

End Build.

(** ** Cyclic references *)

Section Cycle.

Import Fixtures.

Local Abbreviation find_deps := (find_deps_for_dir repo repo_loads "/repo").

Lemma cycle_step limit d f s d' :
  Posixpath.isabs d = true →
  tf_files repo d = Some [f] →
  file_sources repo repo_loads d f = Some [Some s] →
  Str.contains "./" s = true →
  child d s = d' →
  (∀ st, cache st = [] → find_deps limit d' st = Raise RecursionError) →
  ∀ st, cache st = [] → find_deps (S limit) d st = Raise RecursionError.
Proof.
  intros Hd Hfiles Hx Hc Hch IH st Hst. cbn [find_deps_for_dir]. rewrite Hst.
  change (Lru.mem d []) with false. cbv iota.
  unfold bind at 1. rewrite (get_tf_files_abs repo d st Hd), Hfiles.
  unfold bind at 1. cbn [for_each]. unfold bind at 1. unfold visit_file at 1.
  unfold bind at 1.
  assert (Hex : extract_sources repo repo_loads (Posixpath.join d [f]) st
                = Ok ([Some s], st)) by (by apply extract_sources_Ok).
  rewrite Hex. cbn [for_each]. unfold bind at 1.
  rewrite (visit_source_follow repo "/repo" eq_refl) by (rewrite ?Hfiles; eauto).
  rewrite Hch, IH; done.
Qed.

(** On the two directories that declare each other the expansion ends in
    [RecursionError], whatever the limit on nested calls. *)
Lemma find_deps_cycle limit : ∀ st, cache st = [] →
  find_deps limit "/repo/X" st = Raise RecursionError ∧
  find_deps limit "/repo/Y" st = Raise RecursionError.
Proof.
  induction limit as [|limit IH]; intros st Hst; [done|]. split.
  - apply (cycle_step limit "/repo/X" "main.tf" "../Y" "/repo/Y");
      [done|done|done|done|done| |done].
    intros st' Hst'. by apply IH.
  - apply (cycle_step limit "/repo/Y" "main.tf" "../X" "/repo/X");
      [done|done|done|done|done| |done].
    intros st' Hst'. by apply IH.
Qed.

Lemma build_cycle limit :
  build_dependency_dict repo repo_loads limit ["X"] "/repo" "/repo" = Raise RecursionError.
Proof.
  unfold build_dependency_dict, build_body. unfold bind at 1.
  change (chdir repo "/repo" {| cwd := "/repo"; dependents := ∅; cache := [] |})
    with (Ok (tt, {| cwd := "/repo"; dependents := (∅ : gmap string (gset string));
                     cache := [] |})).
  cbn [for_each]. unfold bind at 1. unfold visit_root. unfold bind at 1.
  change (chdir repo "/repo" {| cwd := "/repo"; dependents := ∅; cache := [] |})
    with (Ok (tt, {| cwd := "/repo"; dependents := (∅ : gmap string (gset string));
                     cache := [] |})).
  unfold bind at 1. unfold abspath at 1. cbn [cwd].
  change (Posixpath.abspath "/repo" "X") with "/repo/X".
  by destruct (find_deps_cycle limit {| cwd := "/repo"; dependents := ∅; cache := [] |})
    as [-> _].
Qed.

End Cycle.

(** C1, as stated. With the root X, where X declares [../Y] and Y declares
    [../X], the build returns no map at any limit on nested calls: the
    cache of [lru_cache] receives a directory only when its expansion has
    returned, so the directories of a cycle are never found in it. *)
Lemma build_cycle_never_returns :
  ¬ ∃ limit r,
      build_dependency_dict Fixtures.repo Fixtures.repo_loads limit ["X"] "/repo" "/repo"
      = Ok r.
Proof. intros (limit & r & H). by rewrite build_cycle in H. Qed.

Lemma good_common fs hcl2_loads (ds : list string) :
  (∀ d, d ∈ ds → ∃ n, good fs hcl2_loads n d) →
  ∃ n, ∀ d, d ∈ ds → good fs hcl2_loads n d.
Proof.
  induction ds as [|d ds IH]; intros H.
  - exists 0. by intros d ?%elem_of_nil.
  - destruct (H d) as [n1 H1]; [by left|].
    destruct IH as [n2 H2]; [intros d' Hd'; apply H; by right|].
    exists (n1 `max` n2). intros d' [->|Hd']%elem_of_cons.
    + eapply good_mono; [done|lia].
    + eapply good_mono; [by apply H2|lia].
Qed.

(** C1, amended. With an absolute [start_dir], the build returns a map
    (for a large enough limit on nested calls) exactly when [start_dir]
    leads to a directory and the references below every root form a finite
    tree of directories whose [.tf] files are all read and parsed and whose
    module blocks all have a source; it then returns at every limit that
    is at least the height of these trees. On a cycle it does not
    return. *)
Theorem build_returns_iff_acyclic
    (fs : filesystem) (hcl2_loads : string → option tf_dict)
    (roots : list string) (start_dir cwd0 : string) :
  Posixpath.isabs start_dir = true →
  ((∃ limit deps c,
      build_dependency_dict fs hcl2_loads limit roots start_dir cwd0 = Ok (deps, c))
   ↔ (is_Some (listing fs "/" start_dir) ∧
      ∃ n, ∀ r, r ∈ roots → good fs hcl2_loads n (root_dir start_dir r)))
  ∧ (∀ n limit,
       is_Some (listing fs "/" start_dir) →
       (∀ r, r ∈ roots → good fs hcl2_loads n (root_dir start_dir r)) →
       n ≤ limit →
       ∃ deps c,
         build_dependency_dict fs hcl2_loads limit roots start_dir cwd0 = Ok (deps, c)).
Proof.
  intros Habs. split; [split|].
  - intros (limit & deps & c & H).
    apply (build_sound fs hcl2_loads start_dir Habs) in H as (Hs & Hg & _).
    split; [done|]. 
    destruct (good_common fs hcl2_loads (root_dir start_dir <$> roots)) as [n Hn].
    + intros d (r & -> & Hr)%list_elem_of_fmap. by apply Hg.
    + exists n. intros r Hr. apply Hn. apply list_elem_of_fmap. eauto.
  - intros (Hs & n & Hn). exists n.
    by apply (build_returns fs hcl2_loads start_dir Habs n n roots cwd0).
  - intros n limit Hs Hn Hle.
    by apply (build_returns fs hcl2_loads start_dir Habs n limit roots cwd0).
Qed.

(** ** The checker *)

Section CheckerFacts.

Variable fs : filesystem.
Variable hcl2_loads : string → option tf_dict.

Lemma scan_files_spec d files : ∀ l,
  scan_files fs hcl2_loads d files = Some l →
  (∀ f, f ∈ files → ∃ srcs, file_sources fs hcl2_loads d f = Some srcs ∧ None ∉ srcs) ∧
  (∀ f srcs s, f ∈ files → file_sources fs hcl2_loads d f = Some srcs →
     Some s ∈ srcs → Str.contains "./" s = true → s ∈ l).
Proof.
  induction files as [|f files IH]; intros l Hl.
  - split; [by intros f ?%elem_of_nil|by intros f srcs s ?%elem_of_nil].
  - cbn [scan_files] in Hl.
    destruct (file_sources fs hcl2_loads d f) as [srcs|] eqn:Hx; [|done].
    cbn in Hl.
    destruct (scan_files fs hcl2_loads d files) as [rest|] eqn:Hrest; [|done].
    cbn in Hl. case_bool_decide as Hnone; [done|]. injection Hl as <-.
    destruct (IH rest eq_refl) as [IH1 IH2]. split.
    + intros f0 [->|H0]%elem_of_cons; [eauto|by apply IH1].
    + intros f0 srcs0 s [->|H0]%elem_of_cons Hx0 Hs Hc.
      * rewrite Hx in Hx0. injection Hx0 as <-. apply elem_of_app. left.
        apply list_elem_of_In, filter_In. split; [|done].
        apply list_elem_of_In, list_elem_of_omap. by exists (Some s).
      * apply elem_of_app. right. by eapply IH2.
Qed.

Lemma scan_spec d l :
  scan fs hcl2_loads d = Some l →
  dir_ok fs hcl2_loads d ∧ ∀ s, dir_source fs hcl2_loads d s → s ∈ l.
Proof.
  unfold scan. destruct (tf_files fs d) as [files|] eqn:Hfiles; [|done].
  cbn. intros [H1 H2]%scan_files_spec. split.
  - by exists files.
  - intros s (files0 & f & srcs & Hfiles0 & Hf & Hx & Hs & Hc).
    rewrite Hfiles in Hfiles0. injection Hfiles0 as <-. by eapply H2.
Qed.

Lemma goodb_sound n : ∀ d, goodb fs hcl2_loads n d = true → good fs hcl2_loads n d.
Proof.
  induction n as [|n IH]; intros d; [done|]. cbn [goodb].
  destruct (scan fs hcl2_loads d) as [l|] eqn:Hscan; [|done].
  intros Hall. apply scan_spec in Hscan as [Hok Hin]. split; [done|].
  intros s Hs. apply IH. rewrite forallb_forall in Hall.
  apply Hall, list_elem_of_In, Hin, Hs.
Qed.

End CheckerFacts.

Lemma repo_R_good :
  ∀ r, r ∈ ["R"] → good Fixtures.repo Fixtures.repo_loads 3 (root_dir "/repo" r).
Proof.
  intros r [->|?%elem_of_nil]%elem_of_cons; [|done].
  apply goodb_sound. vm_compute. reflexivity.
Qed.

Lemma build_returns_iff_acyclic_witness :
  Posixpath.isabs "/repo" = true ∧
  is_Some (listing Fixtures.repo "/" "/repo") ∧
  (∀ r, r ∈ ["R"] → good Fixtures.repo Fixtures.repo_loads 3 (root_dir "/repo" r)) ∧
  3 ≤ 1000 ∧
  ∃ deps c,
    build_dependency_dict Fixtures.repo Fixtures.repo_loads 1000 ["R"] "/repo" "/home"
    = Ok (deps, c).
Proof.
  split; [reflexivity|]. split; [by eexists|]. split; [apply repo_R_good|].
  split; [lia|].
  apply (proj2 (build_returns_iff_acyclic Fixtures.repo Fixtures.repo_loads
                  ["R"] "/repo" "/home" eq_refl) 3 1000).
  - by eexists.
  - apply repo_R_good.
  - lia.
Defined.

(** A [start_dir] whose text normalises to [/repo] but which passes through
    the missing name [ghost] is not a directory: [os.chdir] raises and no
    map is returned. *)
Example build_start_dir_through_missing_name :
  listing Fixtures.repo "/" "/repo/ghost/.." = None
  ∧ build_dependency_dict Fixtures.repo Fixtures.repo_loads 10 ["R"] "/repo/ghost/.." "/repo"
    = Raise OSError.
Proof. split; vm_compute; exact eq_refl. Qed.

(** ** The working directory *)

Lemma build_returns_checked fs hcl2_loads n limit roots start_dir cwd0 :
  Posixpath.isabs start_dir = true →
  is_Some (listing fs "/" start_dir) →
  forallb (λ r, goodb fs hcl2_loads n (root_dir start_dir r)) roots = true →
  n ≤ limit →
  ∃ deps c, build_dependency_dict fs hcl2_loads limit roots start_dir cwd0 = Ok (deps, c).
Proof.
  intros Habs Hs Hall Hle.
  apply (build_returns fs hcl2_loads start_dir Habs n limit roots cwd0); [done| |done].
  intros r Hr. apply goodb_sound. rewrite forallb_forall in Hall.
  by apply Hall, list_elem_of_In.
Qed.

Lemma returned_cwd_Some r c :
  returned_cwd r = Some c → ∃ deps, r = Ok (deps, c).
Proof. destruct r as [[deps c']|]; [|done]. intros [= ->]. eauto. Qed.

(** C3, as stated. Started in [/repo] on the two roots of [env], the build
    returns and leaves the process in [/repo/env/staging]: the directory of
    the last relative source it resolved, not the one it was started in. *)
Lemma build_leaves_other_cwd :
  ∃ deps c,
    build_dependency_dict Fixtures.repo Fixtures.repo_loads 10
      ["env/prod"; "env/staging"] "/repo" "/repo" = Ok (deps, c)
    ∧ c = "/repo/env/staging" ∧ c ≠ "/repo".
Proof.
  destruct (returned_cwd_Some
              (build_dependency_dict Fixtures.repo Fixtures.repo_loads 10
                 ["env/prod"; "env/staging"] "/repo" "/repo") "/repo/env/staging")
    as [deps H]; [vm_compute; exact eq_refl|].
  exists deps, "/repo/env/staging".
  split; [exact H|]. split; [reflexivity|discriminate].
Qed.

(** C3, amended. The build changes the working directory of the process:
    it resolves every relative source by [os.chdir] to the referencing
    directory followed by [os.path.abspath]. With an absolute [start_dir],
    a returning call leaves the process in [start_dir] or in a directory
    reached from a root that declares a relative source; with no roots it
    leaves it in [start_dir]. *)
Theorem build_cwd_after
    (fs : filesystem) (hcl2_loads : string → option tf_dict) (limit : nat)
    (roots : list string) (start_dir cwd0 : string)
    (deps : gmap string (gset string)) (c : string) :
  Posixpath.isabs start_dir = true →
  build_dependency_dict fs hcl2_loads limit roots start_dir cwd0 = Ok (deps, c) →
  left_at fs hcl2_loads start_dir roots c ∧ (roots = [] → c = canon start_dir).
Proof.
  intros Habs H.
  apply (build_sound fs hcl2_loads start_dir Habs) in H as (_ & _ & _ & Hc).
  split; [done|]. intros ->.
  destruct Hc as [->|(r & d' & ?%elem_of_nil & _)]; done.
Qed.

Lemma build_cwd_after_witness :
  ∃ deps c,
    Posixpath.isabs "/repo" = true ∧
    build_dependency_dict Fixtures.repo Fixtures.repo_loads 10
      ["env/prod"; "env/staging"] "/repo" "/home" = Ok (deps, c) ∧
    left_at Fixtures.repo Fixtures.repo_loads "/repo" ["env/prod"; "env/staging"] c.
Proof.
  destruct (build_returns_checked Fixtures.repo Fixtures.repo_loads 3 10
              ["env/prod"; "env/staging"] "/repo" "/home") as (deps & c & H);
    [reflexivity|eexists; reflexivity|vm_compute; exact eq_refl|lia|].
  exists deps, c. split; [reflexivity|]. split; [exact H|].
  apply (build_cwd_after Fixtures.repo Fixtures.repo_loads 10
           ["env/prod"; "env/staging"] "/repo" "/home" deps c eq_refl H).
Defined.

(** ** Files that cannot be read *)

(** C4, as stated. The directory [bad] lists a [main.tf] that cannot be
    opened. With the roots [bad] and [R] the build raises [OSError] and
    returns no map, although [R] alone is scanned without error: the bad
    file aborts the scan. *)
Lemma build_aborts_on_unreadable_file :
  build_dependency_dict Fixtures.repo Fixtures.repo_loads 10 ["bad"; "R"] "/repo" "/repo"
  = Raise OSError
  ∧ ∃ deps c,
      build_dependency_dict Fixtures.repo Fixtures.repo_loads 10 ["R"] "/repo" "/repo"
      = Ok (deps, c).
Proof.
  split; [vm_compute; exact eq_refl|].
  apply (build_returns_checked Fixtures.repo Fixtures.repo_loads 3 10);
    [reflexivity|eexists; reflexivity|vm_compute; exact eq_refl|lia].
Qed.

(** C4, amended. Nothing is caught: the build returns a map only if, in
    every directory reached from the roots, every [.tf] file was read and
    parsed and every module block had a source. If some reached directory
    has a file that is missing, unreadable or rejected by the parser, the
    build raises and returns no map. *)
Theorem build_returns_only_if_all_files_read
    (fs : filesystem) (hcl2_loads : string → option tf_dict) (limit : nat)
    (roots : list string) (start_dir cwd0 : string) :
  Posixpath.isabs start_dir = true →
  (∀ deps c,
     build_dependency_dict fs hcl2_loads limit roots start_dir cwd0 = Ok (deps, c) →
     ∀ r d, r ∈ roots → reach fs hcl2_loads (root_dir start_dir r) d →
            dir_ok fs hcl2_loads d)
  ∧ (∀ r d, r ∈ roots → reach fs hcl2_loads (root_dir start_dir r) d →
            ¬ dir_ok fs hcl2_loads d →
            ∃ e, build_dependency_dict fs hcl2_loads limit roots start_dir cwd0 = Raise e).
Proof.
  intros Habs.
  assert (Hok : ∀ deps c,
     build_dependency_dict fs hcl2_loads limit roots start_dir cwd0 = Ok (deps, c) →
     ∀ r d, r ∈ roots → reach fs hcl2_loads (root_dir start_dir r) d →
            dir_ok fs hcl2_loads d).
  { intros deps c H r d Hr Hreach.
    apply (build_sound fs hcl2_loads start_dir Habs) in H as (_ & Hg & _).
    destruct (Hg r Hr) as [n Hn].
    destruct (good_reach fs hcl2_loads n _ d Hn Hreach) as [m Hm].
    by eapply good_dir_ok. }
  split; [done|]. intros r d Hr Hreach Hbad.
  destruct (build_dependency_dict fs hcl2_loads limit roots start_dir cwd0)
    as [[deps c]|e] eqn:E; [|eauto].
  destruct Hbad. by eapply Hok.
Qed.

Lemma build_returns_only_if_all_files_read_witness :
  ∃ deps c,
    Posixpath.isabs "/repo" = true ∧
    build_dependency_dict Fixtures.repo Fixtures.repo_loads 10 ["R"] "/repo" "/repo"
    = Ok (deps, c) ∧
    ∀ r d, r ∈ ["R"] → reach Fixtures.repo Fixtures.repo_loads (root_dir "/repo" r) d →
           dir_ok Fixtures.repo Fixtures.repo_loads d.
Proof.
  destruct (build_returns_checked Fixtures.repo Fixtures.repo_loads 3 10
              ["R"] "/repo" "/repo") as (deps & c & H);
    [reflexivity|eexists; reflexivity|vm_compute; exact eq_refl|lia|].
  exists deps, c. split; [reflexivity|]. split; [exact H|].
  exact (proj1 (build_returns_only_if_all_files_read Fixtures.repo Fixtures.repo_loads
                  10 ["R"] "/repo" "/repo" eq_refl) deps c H).
Defined.

(** ** Running the build again *)

(** C8, amended. With an absolute [start_dir], a build that returned a
    map returns the same map when it is run again on the same tree, in the
    process state the first run left behind; more generally the result
    does not depend on the working directory the build is started in. *)
Theorem build_idempotent
    (fs : filesystem) (hcl2_loads : string → option tf_dict) (limit : nat)
    (roots : list string) (start_dir cwd0 : string) :
  Posixpath.isabs start_dir = true →
  (∀ deps c,
     build_dependency_dict fs hcl2_loads limit roots start_dir cwd0 = Ok (deps, c) →
     build_dependency_dict fs hcl2_loads limit roots start_dir c = Ok (deps, c))
  ∧ (∀ cwd1,
       build_dependency_dict fs hcl2_loads limit roots start_dir cwd1
       = build_dependency_dict fs hcl2_loads limit roots start_dir cwd0).
Proof.
  intros Habs. split.
  - intros deps c <-. by apply build_cwd_independent.
  - intros cwd1. by apply build_cwd_independent.
Qed.

Lemma build_idempotent_witness :
  ∃ deps c,
    Posixpath.isabs "/repo" = true ∧
    build_dependency_dict Fixtures.repo Fixtures.repo_loads 10 ["R"] "/repo" "/home"
    = Ok (deps, c) ∧
    build_dependency_dict Fixtures.repo Fixtures.repo_loads 10 ["R"] "/repo" c
    = Ok (deps, c).
Proof.
  destruct (build_returns_checked Fixtures.repo Fixtures.repo_loads 3 10
              ["R"] "/repo" "/home") as (deps & c & H);
    [reflexivity|eexists; reflexivity|vm_compute; exact eq_refl|lia|].
  exists deps, c. split; [reflexivity|]. split; [exact H|].
  exact (proj1 (build_idempotent Fixtures.repo Fixtures.repo_loads
                  10 ["R"] "/repo" "/home" eq_refl) deps c H).
Defined.

(** ** The fast path of [extract_sources] *)

Lemma extract_sources_with_token fs hcl2_loads path st data :
  contents fs (cwd st) path = Some data →
  Str.contains "source " data = true →
  extract_sources fs hcl2_loads path st = extract_sources_full fs hcl2_loads path st.
Proof.
  intros Hr Hc. unfold extract_sources, extract_sources_full, bind, read_file.
  by rewrite Hr, Hc.
Qed.

(** C6 at the failing input. When the text of a file does not contain the
    token [source] followed by a blank, [extract_sources] returns the empty
    list without parsing, whatever module sources the parser finds in the
    text; full parsing returns those sources. *)
Theorem extract_sources_fast_path_misses
    (fs : filesystem) (hcl2_loads : string → option tf_dict)
    (path data : string) (tf : tf_dict) (st : state) :
  contents fs (cwd st) path = Some data →
  Str.contains "source " data = false →
  hcl2_loads data = Some tf →
  extract_sources fs hcl2_loads path st = Ok ([], st)
  ∧ extract_sources_full fs hcl2_loads path st = Ok (module_sources tf, st).
Proof.
  intros Hr Hc Hp. unfold extract_sources, extract_sources_full, bind, read_file.
  by rewrite Hr, Hc, Hp.
Qed.

Lemma extract_sources_fast_path_misses_witness :
  let st := {| cwd := "/repo"; dependents := ∅; cache := [] |} in
  let data := Fixtures.module_text_tight "c" "../C" in
  let tf := Fixtures.modules [Fixtures.module_block "c" "../C"] in
  contents Fixtures.repo (cwd st) "/repo/T/main.tf" = Some data ∧
  Str.contains "source " data = false ∧
  Fixtures.repo_loads data = Some tf ∧
  module_sources tf = [Some "../C"] ∧
  extract_sources Fixtures.repo Fixtures.repo_loads "/repo/T/main.tf" st = Ok ([], st) ∧
  extract_sources_full Fixtures.repo Fixtures.repo_loads "/repo/T/main.tf" st
  = Ok (module_sources tf, st).
Proof.
  cbv zeta.
  split; [vm_compute; exact eq_refl|]. split; [vm_compute; exact eq_refl|].
  split; [vm_compute; exact eq_refl|]. split; [vm_compute; exact eq_refl|].
  apply (extract_sources_fast_path_misses Fixtures.repo Fixtures.repo_loads
           "/repo/T/main.tf" (Fixtures.module_text_tight "c" "../C")
           (Fixtures.modules [Fixtures.module_block "c" "../C"])
           {| cwd := "/repo"; dependents := ∅; cache := [] |}).
  - vm_compute; exact eq_refl.
  - vm_compute; exact eq_refl.
  - vm_compute; exact eq_refl.
Defined.

(** ** A module block without a source *)

Lemma module_sources_missing tf name body m blocks :
  dict_get (V := list block) "module" tf = Some (((name, body) :: m) :: blocks) →
  dict_get "source" body = None →
  ∃ rest, module_sources tf = None :: rest.
Proof.
  intros Hm Hs. unfold module_sources. rewrite Hm. cbn. rewrite Hs. eauto.
Qed.

Section MissingSource.

Variable fs : filesystem.
Variable hcl2_loads : string → option tf_dict.
Variable start_dir : string.
Hypothesis start_abs : Posixpath.isabs start_dir = true.

Lemma find_deps_missing_source limit d f files srcs st :
  Posixpath.isabs d = true →
  Lru.mem d (cache st) = false →
  tf_files fs d = Some (f :: files) →
  file_sources fs hcl2_loads d f = Some (None :: srcs) →
  find_deps_for_dir fs hcl2_loads start_dir (S limit) d st = Raise TypeError.
Proof.
  intros Hd Hmiss Hfiles Hx. cbn [find_deps_for_dir]. rewrite Hmiss.
  unfold bind at 1. rewrite (get_tf_files_abs fs d st Hd), Hfiles.
  unfold bind at 1. cbn [for_each]. unfold bind at 1. unfold visit_file at 1.
  unfold bind at 1.
  assert (Hex : extract_sources fs hcl2_loads (Posixpath.join d [f]) st
                = Ok (None :: srcs, st)) by (by apply extract_sources_Ok).
  by rewrite Hex.
Qed.

Lemma build_missing_source limit r roots cwd0 f files srcs :
  is_Some (listing fs "/" start_dir) →
  tf_files fs (root_dir start_dir r) = Some (f :: files) →
  file_sources fs hcl2_loads (root_dir start_dir r) f = Some (None :: srcs) →
  build_dependency_dict fs hcl2_loads (S limit) (r :: roots) start_dir cwd0
  = Raise TypeError.
Proof.
  intros Hs Hfiles Hx. unfold build_dependency_dict, build_body.
  set (st0 := {| cwd := cwd0; dependents := ∅; cache := [] |}).
  assert (Hcd : ∀ st, chdir fs start_dir st = Ok (tt, set_cwd (canon start_dir) st)).
  { intros st. by apply (chdir_start fs start_dir start_abs). }
  unfold bind at 1. rewrite Hcd. cbn [for_each]. unfold bind at 1.
  unfold visit_root at 1. unfold bind at 1. rewrite Hcd.
  unfold bind at 1. unfold abspath at 1. cbn [cwd set_cwd].
  fold (root_dir start_dir r).
  rewrite (find_deps_missing_source limit _ f files srcs); try done.
  apply isabs_abspath, isabs_realpath.
Qed.

End MissingSource.

(** C9. Let the first [.tf] file of the first root contain the token
    [source] followed by a blank and start with a module block that has no
    [source] attribute. Then [extract_sources] returns a list that begins
    with [None], and the build raises [TypeError] at the test
    ["./" in source] instead of skipping the block. *)
Theorem build_raises_TypeError_on_missing_source
    (fs : filesystem) (hcl2_loads : string → option tf_dict) (limit : nat)
    (r : string) (roots : list string) (start_dir cwd0 : string)
    (f : string) (files : list string) (data : string) (tf : tf_dict)
    (name : string) (body : module_dict) (m : block) (blocks : list block) (st : state) :
  Posixpath.isabs start_dir = true →
  is_Some (listing fs "/" start_dir) →
  tf_files fs (root_dir start_dir r) = Some (f :: files) →
  contents fs "/" (Posixpath.join (root_dir start_dir r) [f]) = Some data →
  Str.contains "source " data = true →
  hcl2_loads data = Some tf →
  dict_get (V := list block) "module" tf = Some (((name, body) :: m) :: blocks) →
  dict_get "source" body = None →
  (∃ rest, extract_sources fs hcl2_loads (Posixpath.join (root_dir start_dir r) [f]) st
           = Ok (None :: rest, st))
  ∧ build_dependency_dict fs hcl2_loads (S limit) (r :: roots) start_dir cwd0
    = Raise TypeError.
Proof.
  intros Habs Hs Hfiles Hr Hc Hp Hm Hsrc.
  destruct (module_sources_missing tf name body m blocks Hm Hsrc) as [rest Hrest].
  assert (Hx : file_sources fs hcl2_loads (root_dir start_dir r) f = Some (None :: rest)).
  { unfold file_sources. rewrite Hr. cbn. rewrite Hc, Hp. cbn. by rewrite Hrest. }
  split.
  - exists rest. apply extract_sources_Ok; [apply isabs_abspath, isabs_realpath|done].
  - by eapply build_missing_source.
Qed.

Lemma build_raises_TypeError_on_missing_source_witness :
  let data := Fixtures.module_text_no_source "m" in
  let tf := Fixtures.modules [[("m", [("version", "1.0")])]] in
  Posixpath.isabs "/repo" = true ∧
  tf_files Fixtures.repo (root_dir "/repo" "N") = Some ["main.tf"] ∧
  contents Fixtures.repo "/" (Posixpath.join (root_dir "/repo" "N") ["main.tf"])
  = Some data ∧
  Str.contains "source " data = true ∧
  Fixtures.repo_loads data = Some tf ∧
  build_dependency_dict Fixtures.repo Fixtures.repo_loads 1000 ["N"] "/repo" "/repo"
  = Raise TypeError.
Proof.
  cbv zeta.
  split; [reflexivity|]. split; [vm_compute; exact eq_refl|].
  split; [vm_compute; exact eq_refl|]. split; [vm_compute; exact eq_refl|].
  split; [vm_compute; exact eq_refl|].
  refine (proj2 (build_raises_TypeError_on_missing_source
           Fixtures.repo Fixtures.repo_loads 999 "N" [] "/repo" "/repo"
           "main.tf" [] (Fixtures.module_text_no_source "m")
           (Fixtures.modules [[("m", [("version", "1.0")])]])
           "m" [("version", "1.0")] [] []
           {| cwd := "/repo"; dependents := ∅; cache := [] |}
           eq_refl _ _ _ _ _ _ _)).
  - eexists. vm_compute. exact eq_refl.
  - vm_compute; exact eq_refl.
  - vm_compute; exact eq_refl.
  - vm_compute; exact eq_refl.
  - vm_compute; exact eq_refl.
  - vm_compute; exact eq_refl.
  - vm_compute; exact eq_refl.
Defined.

(** ** Which sources give an edge *)

Lemma dir_source_declares fs hcl2_loads d s :
  dir_source fs hcl2_loads d s ↔
  declares fs hcl2_loads d s ∧ Str.contains "./" s = true.
Proof.
  split.
  - intros (files & f & srcs & H1 & H2 & H3 & H4 & H5). split; [|done].
    by exists files, f, srcs.
  - intros [(files & f & srcs & H1 & H2 & H3 & H4) H5]. by exists files, f, srcs.
Qed.

Lemma contains_of_startswith sub s :
  Str.startswith sub s = true → Str.contains sub s = true.
Proof. unfold Str.startswith. intros H. destruct s; cbn [Str.contains]; by rewrite H. Qed.

Lemma contains_marker_of_prefix s :
  Str.startswith "./" s = true ∨ Str.startswith "../" s = true →
  Str.contains "./" s = true.
Proof.
  intros [H|H]; [by apply contains_of_startswith|].
  unfold Str.startswith in H.
  destruct s as [|a s]; [done|]. cbn [String.prefix] in H.
  destruct (ascii_dec "." a) as [<-|]; [|done].
  cbn [Str.contains]. destruct (String.prefix "./" (String "." s)); [done|].
  by apply contains_of_startswith.
Qed.

(** C7, as stated. The root V declares the registry source
    [hashicorp/consul/aws] and the source [sub/../../A]. The second one
    begins with neither [./] nor [../], yet the build records the edge it
    resolves to: V becomes a dependent of A. *)
Lemma edge_for_source_without_prefix :
  file_sources Fixtures.repo Fixtures.repo_loads "/repo/V" "main.tf"
  = Some [Some "hashicorp/consul/aws"; Some "sub/../../A"]
  ∧ Str.startswith "./" "sub/../../A" = false
  ∧ Str.startswith "../" "sub/../../A" = false
  ∧ returned_entry "A"
      (build_dependency_dict Fixtures.repo Fixtures.repo_loads 10 ["V"] "/repo" "/repo")
    = Some ["V"].
Proof. repeat split; vm_compute; exact eq_refl. Qed.

(** C7, amended. An edge is recorded for a declared source if and only if
    the source contains the substring [./] somewhere: the map a build
    returns holds exactly the edges of the sources, declared in the
    directories reached from the roots, that contain [./]. Every source
    that begins with [./] or [../] is among them; a source without [./],
    such as [hashicorp/consul/aws], is skipped without any effect. *)
Theorem edge_iff_source_contains_marker
    (fs : filesystem) (hcl2_loads : string → option tf_dict) (limit : nat)
    (roots : list string) (start_dir cwd0 : string)
    (deps : gmap string (gset string)) (c : string) :
  Posixpath.isabs start_dir = true →
  build_dependency_dict fs hcl2_loads limit roots start_dir cwd0 = Ok (deps, c) →
  (∀ k v, in_deps deps k v ↔
     ∃ r d s, r ∈ roots ∧ reach fs hcl2_loads (root_dir start_dir r) d ∧
       declares fs hcl2_loads d s ∧ Str.contains "./" s = true ∧
       k = identity start_dir (child d s) ∧ v = identity start_dir d)
  ∧ (∀ s, Str.startswith "./" s = true ∨ Str.startswith "../" s = true →
          Str.contains "./" s = true)
  ∧ Str.contains "./" "hashicorp/consul/aws" = false
  ∧ (∀ recurse d s st, Str.contains "./" s = false →
       visit_source fs start_dir recurse d (Some s) st = Ok (tt, st)).
Proof.
  intros Habs H.
  apply (build_sound fs hcl2_loads start_dir Habs) in H as (_ & _ & He & _).
  split; [|split; [apply contains_marker_of_prefix|split; [reflexivity|]]].
  - intros k v. rewrite He. unfold below_roots, below, edge_at. split.
    + intros (r & Hr & d & Hreach & s & [Hd Hc]%dir_source_declares & -> & ->).
      by exists r, d, s.
    + intros (r & d & s & Hr & Hreach & Hd & Hc & -> & ->).
      exists r. split; [done|]. exists d. split; [done|]. exists s.
      split; [by apply dir_source_declares|done].
  - intros recurse d s st Hc. by apply visit_source_skip.
Qed.

Lemma edge_iff_source_contains_marker_witness :
  ∃ deps c,
    Posixpath.isabs "/repo" = true ∧
    build_dependency_dict Fixtures.repo Fixtures.repo_loads 10 ["V"] "/repo" "/repo"
    = Ok (deps, c) ∧
    ∀ k v, in_deps deps k v ↔
      ∃ r d s, r ∈ ["V"] ∧
        reach Fixtures.repo Fixtures.repo_loads (root_dir "/repo" r) d ∧
        declares Fixtures.repo Fixtures.repo_loads d s ∧ Str.contains "./" s = true ∧
        k = identity "/repo" (child d s) ∧ v = identity "/repo" d.
Proof.
  destruct (build_returns_checked Fixtures.repo Fixtures.repo_loads 3 10
              ["V"] "/repo" "/repo") as (deps & c & H);
    [reflexivity|eexists; reflexivity|vm_compute; exact eq_refl|lia|].
  exists deps, c. split; [reflexivity|]. split; [exact H|].
  exact (proj1 (edge_iff_source_contains_marker Fixtures.repo Fixtures.repo_loads
                  10 ["V"] "/repo" "/repo" deps c eq_refl H)).
Defined.

(** ** [relpath] is one-to-one on directories *)

Lemma common_len_le s p : Posixpath.common_len s p ≤ List.length s.
Proof.
  revert p. induction s as [|x s IH]; intros [|y p]; cbn; try lia.
  destruct (String.eqb x y); cbn; [|lia]. specialize (IH p). lia.
Qed.

Lemma common_len_take s p :
  take (Posixpath.common_len s p) p = take (Posixpath.common_len s p) s.
Proof.
  revert p. induction s as [|x s IH]; intros [|y p]; cbn; try done.
  destruct (String.eqb_spec x y) as [->|_]; [|done]. cbn. by rewrite IH.
Qed.

Lemma replicate_app_inj {A : Type} (x : A) a b (l1 l2 : list A) :
  x ∉ l1 → x ∉ l2 → replicate a x ++ l1 = replicate b x ++ l2 → a = b ∧ l1 = l2.
Proof.
  intros H1 H2. revert b. induction a as [|a IH]; intros [|b]; cbn.
  - done.
  - intros ->. destruct H1. by left.
  - intros <-. destruct H2. by left.
  - intros [= E]. destruct (IH b E) as [-> ->]. done.
Qed.

Lemma rel_list_inj s p1 p2 :
  ".." ∉ p1 → ".." ∉ p2 → rel_list s p1 = rel_list s p2 → p1 = p2.
Proof.
  intros H1 H2 E. unfold rel_list in E.
  apply replicate_app_inj in E as [Ea Ed].
  - pose proof (common_len_le s p1). pose proof (common_len_le s p2).
    assert (Ei : Posixpath.common_len s p1 = Posixpath.common_len s p2) by lia.
    rewrite <- (take_drop (Posixpath.common_len s p1) p1).
    rewrite <- (take_drop (Posixpath.common_len s p2) p2).
    rewrite Ed, !common_len_take, Ei. done.
  - intros Hin. apply H1. by eapply subseteq_drop.
  - intros Hin. apply H2. by eapply subseteq_drop.
Qed.

Lemma relpath_render c p start :
  String.eqb p "" = false →
  Posixpath.relpath c p start
  = Some (render (rel_list (Posixpath.components c start) (Posixpath.components c p))).
Proof.
  intros H. unfold Posixpath.relpath, rel_list. rewrite H.
  by destruct (_ ++ _).
Qed.

Lemma rel_list_joinable s p :
  Forall plain p → Forall joinable (rel_list s p).
Proof.
  intros Hp. unfold rel_list. apply Forall_app. split.
  - apply Forall_replicate. repeat split; done.
  - apply Forall_drop. eapply Forall_impl; [done|]. by intros w [? _].
Qed.

(** Two absolute directories with the same identity are the same
    directory. *)
Lemma identity_inj start_dir d1 d2 :
  Posixpath.isabs d1 = true → Posixpath.isabs d2 = true →
  identity start_dir d1 = identity start_dir d2 → canon d1 = canon d2.
Proof.
  intros H1 H2. unfold identity.
  rewrite !relpath_render by (by apply isabs_nonempty). cbn [default].
  destruct (components_normalised "/" d1 H1) as [_ P1].
  destruct (components_normalised "/" d2 H2) as [_ P2].
  intros E. apply render_inj in E; [|by apply rel_list_joinable..].
  apply rel_list_inj in E.
  - by rewrite !canon_components, E.
  - intros Hin. rewrite Forall_forall in P1. by destruct (P1 _ Hin) as [_ ?].
  - intros Hin. rewrite Forall_forall in P2. by destruct (P2 _ Hin) as [_ ?].
Qed.

(** ** The diamond *)

Section CheckerComplete.

Variable fs : filesystem.
Variable hcl2_loads : string → option tf_dict.

Lemma scan_files_complete d files : ∀ l s,
  scan_files fs hcl2_loads d files = Some l → s ∈ l →
  ∃ f srcs, f ∈ files ∧ file_sources fs hcl2_loads d f = Some srcs ∧
            Some s ∈ srcs ∧ Str.contains "./" s = true.
Proof.
  induction files as [|f files IH]; intros l s Hl Hs.
  - injection Hl as <-. by apply elem_of_nil in Hs.
  - cbn [scan_files] in Hl.
    destruct (file_sources fs hcl2_loads d f) as [srcs|] eqn:Hx; [|done].
    cbn in Hl.
    destruct (scan_files fs hcl2_loads d files) as [rest|] eqn:Hrest; [|done].
    cbn in Hl. case_bool_decide as Hnone; [done|]. injection Hl as <-.
    apply elem_of_app in Hs as [Hs|Hs].
    + apply list_elem_of_In, filter_In in Hs as [Hs Hc].
      apply list_elem_of_In, list_elem_of_omap in Hs as (o & Ho & Hos).
      cbn in Hos. subst o. exists f, srcs. split; [by left|done].
    + destruct (IH rest s eq_refl Hs) as (f0 & srcs0 & H0 & H1).
      exists f0, srcs0. split; [by right|done].
Qed.

Lemma scan_sources d l s :
  scan fs hcl2_loads d = Some l → (dir_source fs hcl2_loads d s ↔ s ∈ l).
Proof.
  intros Hscan. split; [by apply scan_spec|].
  unfold scan in Hscan. destruct (tf_files fs d) as [files|] eqn:Hfiles; [|done].
  cbn in Hscan. intros Hs.
  destruct (scan_files_complete d files l s Hscan Hs) as (f & srcs & H).
  by exists files, f, srcs.
Qed.

End CheckerComplete.

Section Diamond.

Variable fs : filesystem.
Variable hcl2_loads : string → option tf_dict.
Variable start_dir : string.
Hypothesis start_abs : Posixpath.isabs start_dir = true.

Local Abbreviation good := (good fs hcl2_loads).
Local Abbreviation reach := (reach fs hcl2_loads).
Local Abbreviation dir_source := (dir_source fs hcl2_loads).
Local Abbreviation dir_ok := (dir_ok fs hcl2_loads).
Local Abbreviation ident := (identity start_dir).

Variables R A B C : string.

Hypothesis R_ok : dir_ok R.
Hypothesis A_ok : dir_ok A.
Hypothesis B_ok : dir_ok B.
Hypothesis C_ok : dir_ok C.
Hypothesis R_to_A : ∃ s, dir_source R s ∧ child R s = A.
Hypothesis R_to_B : ∃ s, dir_source R s ∧ child R s = B.
Hypothesis R_only : ∀ s, dir_source R s → child R s = A ∨ child R s = B.
Hypothesis A_to_C : ∃ s, dir_source A s.
Hypothesis A_only : ∀ s, dir_source A s → child A s = C.
Hypothesis B_to_C : ∃ s, dir_source B s.
Hypothesis B_only : ∀ s, dir_source B s → child B s = C.
Hypothesis C_leaf : ∀ s, ¬ dir_source C s.
Hypothesis A_not_B : canon A ≠ canon B.
Hypothesis A_not_C : canon A ≠ canon C.
Hypothesis B_not_C : canon B ≠ canon C.









End Diamond.




Lemma source_checked fs hcl2_loads d l s :
  scan fs hcl2_loads d = Some l → s ∈ l → dir_source fs hcl2_loads d s.
Proof. intros Hl Hs. by apply (scan_sources fs hcl2_loads d l s Hl). Qed.


(** ** A relative [start_dir] *)

(** C8, as stated. The facts above assume an absolute [start_dir], as
    [main] passes. With the relative [start_dir] [.], every
    [os.chdir(start_dir)] stays where the process is: started in [/repo]
    the build of the root R returns a map and leaves the process in
    [/repo/B]; run again on the same tree, in the state the first run left
    behind, it looks for the root in [/repo/B/R] and raises. *)
Lemma build_again_raises_with_relative_start_dir :
  ∃ deps c,
    build_dependency_dict Fixtures.repo Fixtures.repo_loads 10 ["R"] "." "/repo"
    = Ok (deps, c)
    ∧ c = "/repo/B"
    ∧ build_dependency_dict Fixtures.repo Fixtures.repo_loads 10 ["R"] "." c
      = Raise NotADirectory.
Proof.
  destruct (returned_cwd_Some
              (build_dependency_dict Fixtures.repo Fixtures.repo_loads 10
                 ["R"] "." "/repo") "/repo/B")
    as [deps H]; [vm_compute; exact eq_refl|].
  exists deps, "/repo/B". split; [exact H|].
  split; [reflexivity|vm_compute; exact eq_refl].
Qed.


(** ** What the query returns *)

Section Query.

Variable deps_dict : gmap string (gset string).

Lemma affects_unfold k w :
  affects deps_dict k w ↔
  ∃ v, in_deps deps_dict k v ∧ (w = v ∨ affects deps_dict v w).
Proof.
  split.
  - intros H. inversion H as [? ? Hd|? v ? Hd Hs]; subst.
    + exists w. split; [done|by left].
    + exists v. split; [done|by right].
  - intros (v & Hd & [->|Hs]); [by apply affects_direct|by eapply affects_step].
Qed.

Lemma affected_loop_spec recurse (T : string → string → Prop) :
  (∀ dep m r, recurse dep m = Ok r → ∀ v, v ∈ r ↔ v ∈ m ∨ T dep v) →
  ∀ deps modules r, affected_loop recurse deps modules = Ok r →
    ∀ v, v ∈ r ↔ v ∈ modules ∨ ∃ dep, dep ∈ deps ∧ (v = dep ∨ T dep v).
Proof.
  intros Hrec deps. induction deps as [|dep deps IH]; intros modules r; cbn [affected_loop].
  - intros [= <-] v. split; [by left|]. by intros [?|(dep & ?%elem_of_nil & _)].
  - destruct (recurse dep ({[dep]} ∪ modules)) as [m'|] eqn:E; [|done].
    intros H v. rewrite (IH m' r H v), (Hrec dep _ m' E v).
    rewrite elem_of_union, elem_of_singleton. split.
    + intros [[[->|Hm]|HT]|(d & Hd & Hv)].
      * right. exists dep. split; [by left|by left].
      * by left.
      * right. exists dep. split; [by left|by right].
      * right. exists d. split; [by right|done].
    + intros [Hm|(d & [->|Hd]%elem_of_cons & [->|HT])].
      * left. left. by right.
      * left. left. by left.
      * left. by right.
      * right. exists d. split; [done|by left].
      * right. exists d. split; [done|by right].
Qed.

Lemma find_mods_affected_spec limit : ∀ subject modules r,
  find_mods_affected limit subject modules deps_dict = Ok r →
  ∀ v, v ∈ r ↔ v ∈ modules ∨ affects deps_dict subject v.
Proof.
  induction limit as [|limit IH]; intros subject modules r; [done|].
  cbn [find_mods_affected]. intros H v.
  rewrite (affected_loop_spec _ (affects deps_dict) (λ dep m r', IH dep m r') _ _ _ H v).
  rewrite affects_unfold. unfold in_deps.
  split; (intros [Hm|(dep & Hd & Hv)]; [by left|right; exists dep]).
  - by apply elem_of_elements in Hd.
  - by split; [apply elem_of_elements|].
Qed.

Lemma affected_loop_returns_any recurse :
  (∀ dep m m' r, recurse dep m = Ok r → ∃ r', recurse dep m' = Ok r') →
  ∀ deps modules modules' r, affected_loop recurse deps modules = Ok r →
    ∃ r', affected_loop recurse deps modules' = Ok r'.
Proof.
  intros Hrec deps. induction deps as [|dep deps IH]; intros m m' r; cbn [affected_loop].
  - eauto.
  - destruct (recurse dep ({[dep]} ∪ m)) as [m1|] eqn:E; [|done]. intros H.
    destruct (Hrec dep _ ({[dep]} ∪ m') m1 E) as [m1' ->]. by eapply IH.
Qed.

Lemma find_mods_affected_returns_any limit : ∀ subject modules modules' r,
  find_mods_affected limit subject modules deps_dict = Ok r →
  ∃ r', find_mods_affected limit subject modules' deps_dict = Ok r'.
Proof.
  induction limit as [|limit IH]; intros subject m m' r; [done|].
  cbn [find_mods_affected]. apply affected_loop_returns_any.
  intros dep m1 m1' r1. apply IH.
Qed.

Lemma affected_loop_more recurse recurse' :
  (∀ dep m r, recurse dep m = Ok r → recurse' dep m = Ok r) →
  ∀ deps modules r, affected_loop recurse deps modules = Ok r →
    affected_loop recurse' deps modules = Ok r.
Proof.
  intros Hrec deps. induction deps as [|dep deps IH]; intros m r; cbn [affected_loop].
  - done.
  - destruct (recurse dep ({[dep]} ∪ m)) as [m1|] eqn:E; [|done].
    rewrite (Hrec _ _ _ E). apply IH.
Qed.

Lemma find_mods_affected_more limit : ∀ subject modules r,
  find_mods_affected limit subject modules deps_dict = Ok r →
  find_mods_affected (S limit) subject modules deps_dict = Ok r.
Proof.
  induction limit as [|limit IH]; intros subject m r; [done|].
  intros H. cbn [find_mods_affected] in *.
  revert H. apply affected_loop_more. intros dep m1 r1. apply IH.
Qed.

Lemma affects_ranked rank k v :
  ranked deps_dict rank → affects deps_dict k v → rank v < rank k.
Proof.
  intros Hrk. induction 1 as [k v Hd|k v w Hd _ IH]; unfold in_deps in Hd.
  - destruct (deps_dict !! k) as [s|] eqn:E; simpl in Hd; [by eapply Hrk|].
    by apply not_elem_of_empty in Hd.
  - destruct (deps_dict !! k) as [s|] eqn:E; simpl in Hd;
      [|by apply not_elem_of_empty in Hd].
    specialize (Hrk _ _ _ E Hd). lia.
Qed.

End Query.

(** The query returns the accumulator together with the transitive
    dependents of the subject: a node is in the returned set exactly when
    it was in the accumulator or is reached from the subject by following
    direct dependents one or more times. *)
Theorem find_mods_affected_is_transitive_closure
    (deps_dict : gmap string (gset string)) (limit : nat)
    (subject : string) (modules r : gset string) :
  find_mods_affected limit subject modules deps_dict = Ok r →
  ∀ v, v ∈ r ↔ v ∈ modules ∨ affects deps_dict subject v.
Proof. apply find_mods_affected_spec. Qed.

Lemma find_mods_affected_is_transitive_closure_witness :
  ∃ r, find_mods_affected 3 "c" {["x"]} chain_deps = Ok r ∧
       ∀ v, v ∈ r ↔ v ∈ ({["x"]} : gset string) ∨ affects chain_deps "c" v.
Proof.
  destruct (find_mods_affected_returns chain_deps chain_rank chain_deps_ranked
              3 "c" {["x"]}) as [r Hr]; [vm_compute; lia|].
  exists r. split; [exact Hr|].
  exact (find_mods_affected_is_transitive_closure chain_deps 3 "c" {["x"]} r Hr).
Defined.

(** The accumulator plays no part in the traversal: if the query returns
    for one accumulator it returns for the empty one, and its result is the
    union of the accumulator with the result for the empty one. *)
Theorem find_mods_affected_accumulator_is_added
    (deps_dict : gmap string (gset string)) (limit : nat)
    (subject : string) (modules r : gset string) :
  find_mods_affected limit subject modules deps_dict = Ok r →
  ∃ r0, find_mods_affected limit subject ∅ deps_dict = Ok r0 ∧ r = modules ∪ r0.
Proof.
  intros H.
  destruct (find_mods_affected_returns_any deps_dict limit subject modules ∅ r H)
    as [r0 H0].
  exists r0. split; [done|]. apply set_eq. intros v.
  rewrite (find_mods_affected_spec deps_dict limit _ _ _ H v).
  rewrite elem_of_union, (find_mods_affected_spec deps_dict limit _ _ _ H0 v).
  rewrite elem_of_empty. tauto.
Qed.

Lemma find_mods_affected_accumulator_is_added_witness :
  ∃ r r0, find_mods_affected 3 "c" {["x"]} chain_deps = Ok r ∧
          find_mods_affected 3 "c" ∅ chain_deps = Ok r0 ∧ r = {["x"]} ∪ r0.
Proof.
  destruct (find_mods_affected_returns chain_deps chain_rank chain_deps_ranked
              3 "c" {["x"]}) as [r Hr]; [vm_compute; lia|].
  destruct (find_mods_affected_accumulator_is_added chain_deps 3 "c" {["x"]} r Hr)
    as (r0 & H0 & E).
  exists r, r0. split; [exact Hr|]. split; [exact H0|exact E].
Defined.

(** On an acyclic map the subject is not among its own dependents: the
    returned set contains the subject only if the accumulator did. *)
Theorem find_mods_affected_excludes_subject
    (deps_dict : gmap string (gset string)) (rank : string → nat) (limit : nat)
    (subject : string) (modules r : gset string) :
  ranked deps_dict rank →
  find_mods_affected limit subject modules deps_dict = Ok r →
  subject ∉ modules →
  subject ∉ r.
Proof.
  intros Hrk H Hnot Hin.
  apply (find_mods_affected_spec deps_dict limit _ _ _ H) in Hin as [Hin|Hin]; [done|].
  apply (affects_ranked deps_dict rank) in Hin; [lia|done].
Qed.

Lemma find_mods_affected_excludes_subject_witness :
  ∃ r, ranked chain_deps chain_rank ∧
       find_mods_affected 3 "c" ∅ chain_deps = Ok r ∧
       ("c" ∉ (∅ : gset string)) ∧ "c" ∉ r.
Proof.
  destruct (find_mods_affected_returns chain_deps chain_rank chain_deps_ranked
              3 "c" ∅) as [r Hr]; [vm_compute; lia|].
  exists r. split; [exact chain_deps_ranked|]. split; [exact Hr|].
  split; [apply not_elem_of_empty|].
  exact (find_mods_affected_excludes_subject chain_deps chain_rank 3 "c" ∅ r
           chain_deps_ranked Hr (not_elem_of_empty "c")).
Defined.

(** A larger limit on nested calls never changes a result: a set returned
    at one limit is returned at every larger limit. *)
Theorem find_mods_affected_limit_monotone
    (deps_dict : gmap string (gset string)) (limit limit' : nat)
    (subject : string) (modules r : gset string) :
  find_mods_affected limit subject modules deps_dict = Ok r →
  limit ≤ limit' →
  find_mods_affected limit' subject modules deps_dict = Ok r.
Proof.
  intros H Hle. induction Hle as [|limit' _ IH]; [done|].
  by apply find_mods_affected_more.
Qed.

Lemma find_mods_affected_limit_monotone_witness :
  ∃ r, find_mods_affected 3 "c" ∅ chain_deps = Ok r ∧ 3 ≤ 1000 ∧
       find_mods_affected 1000 "c" ∅ chain_deps = Ok r.
Proof.
  destruct (find_mods_affected_returns chain_deps chain_rank chain_deps_ranked
              3 "c" ∅) as [r Hr]; [vm_compute; lia|].
  exists r. split; [exact Hr|]. split; [lia|].
  apply (find_mods_affected_limit_monotone chain_deps 3 1000 "c" ∅ r Hr). lia.
Defined.

(** ** The map only grows by [add] *)

Section MapInvariant.

Variable fs : filesystem.
Variable hcl2_loads : string → option tf_dict.
Variable start_dir : string.

(** a property of the map kept by [dependents[k].add(v)] *)
Variable P : gmap string (gset string) → Prop.
Hypothesis P_add : ∀ m k v, P m → P (<[k := {[v]} ∪ default ∅ (m !! k)]> m).

Lemma get_tf_files_state d st files st' :
  get_tf_files fs d st = Ok (files, st') → st' = st.
Proof.
  unfold get_tf_files, bind, isdir, listdir, ret, raise.
  destruct (negb _); [done|].
  destruct (listing fs _ _); [|done]. by intros [= _ <-].
Qed.

Lemma extract_sources_state p st srcs st' :
  extract_sources fs hcl2_loads p st = Ok (srcs, st') → st' = st.
Proof.
  unfold extract_sources, bind, read_file, ret, raise.
  destruct (contents fs _ _) as [data|]; [|done].
  destruct (Str.contains _ data); [|by intros [= _ <-]].
  destruct (hcl2_loads data); [by intros [= _ <-]|done].
Qed.

Lemma visit_source_preserves recurse d src st st' :
  (∀ d0 st0 st0', P (dependents st0) → recurse d0 st0 = Ok (tt, st0') →
                  P (dependents st0')) →
  P (dependents st) →
  visit_source fs start_dir recurse d src st = Ok (tt, st') →
  P (dependents st').
Proof.
  intros Hrec HP. unfold visit_source. destruct src as [s|]; [|done].
  destruct (Str.contains "./" s); [|by intros [= <-]].
  unfold bind, chdir, abspath, relpath, add_dependent.
  destruct (resolve fs _ _); [|done]. destruct (fs_listdir fs _); [|done].
  destruct (Posixpath.relpath _ _ start_dir) as [k|]; [|done].
  destruct (Posixpath.relpath _ d start_dir) as [v|]; [|done].
  apply Hrec. cbn [dependents set_dependents set_cwd]. by apply P_add.
Qed.

Lemma for_each_preserves {A : Type} (body : A → M unit) (l : list A) :
  (∀ x st st', P (dependents st) → body x st = Ok (tt, st') → P (dependents st')) →
  ∀ st st', P (dependents st) → for_each l body st = Ok (tt, st') → P (dependents st').
Proof.
  intros Hbody. induction l as [|x l IH]; intros st st' HP.
  - by intros [= <-].
  - intros (st1 & H1 & H2)%for_each_cons_Ok. eapply IH; [|done]. by eapply Hbody.
Qed.

Lemma find_deps_preserves limit : ∀ d st st',
  P (dependents st) →
  find_deps_for_dir fs hcl2_loads start_dir limit d st = Ok (tt, st') →
  P (dependents st').
Proof.
  induction limit as [|limit IH]; intros d st st' HP; [done|].
  cbn [find_deps_for_dir]. destruct (Lru.mem d (cache st)); [by intros [= <-]|].
  intros (files & st0 & Hfiles & H)%bind_Ok.
  apply get_tf_files_state in Hfiles as ->.
  apply bind_Ok in H as ([] & st1 & Hloop & [= <-]).
  cbn [dependents set_cache]. revert Hloop. apply for_each_preserves; [|done].
  intros f st2 st2' HP2. unfold visit_file.
  intros (srcs & st3 & Hx & Hs)%bind_Ok. apply extract_sources_state in Hx as ->.
  revert Hs. apply for_each_preserves; [|done].
  intros src st4 st4' HP4. by apply visit_source_preserves.
Qed.

Lemma build_preserves limit roots cwd0 deps c :
  P ∅ →
  build_dependency_dict fs hcl2_loads limit roots start_dir cwd0 = Ok (deps, c) →
  P deps.
Proof.
  intros HP. unfold build_dependency_dict, build_body.
  destruct (bind _ _ _) as [[[] st']|] eqn:E; [|done]. intros [= <- <-].
  apply bind_Ok in E as ([] & st1 & Hcd & Hloop).
  assert (HP1 : P (dependents st1)).
  { unfold chdir in Hcd. destruct (resolve fs _ _); [|done].
    destruct (fs_listdir fs _); [|done]. by injection Hcd as <-. }
  revert Hloop. apply for_each_preserves; [|done].
  intros r st2 st2' HP2. unfold visit_root.
  intros ([] & st3 & Hcd3 & H)%bind_Ok.
  apply bind_Ok in H as (rd & st4 & [= <- <-] & H).
  revert H. apply find_deps_preserves.
  unfold chdir in Hcd3. destruct (resolve fs _ _); [|done].
  destruct (fs_listdir fs _); [|done]. by injection Hcd3 as <-.
Qed.

End MapInvariant.

Lemma no_empty_entry_add (m : gmap string (gset string)) k v :
  (∀ k0 s, m !! k0 = Some s → s ≠ ∅) →
  ∀ k0 s, <[k := {[v]} ∪ default ∅ (m !! k)]> m !! k0 = Some s → s ≠ ∅.
Proof.
  intros Hm k0 s. destruct (decide (k = k0)) as [->|Hne].
  - rewrite lookup_insert_eq. intros [= <-] E.
    assert (Hin : v ∈ ({[v]} ∪ default ∅ (m !! k0) : gset string)).
    { apply elem_of_union. left. by apply elem_of_singleton. }
    rewrite E in Hin. by apply not_elem_of_empty in Hin.
  - rewrite lookup_insert_ne by done. apply Hm.
Qed.

Lemma build_keys_have_dependents fs hcl2_loads limit roots start_dir cwd0 deps c :
  build_dependency_dict fs hcl2_loads limit roots start_dir cwd0 = Ok (deps, c) →
  ∀ k, is_Some (deps !! k) ↔ ∃ v, in_deps deps k v.
Proof.
  intros H.
  pose proof (build_preserves fs hcl2_loads start_dir
                (λ m, ∀ k s, m !! k = Some s → s ≠ ∅)
                (λ m k v, no_empty_entry_add m k v) limit roots cwd0 deps c) as Hne.
  specialize (Hne (λ k s, ltac:(by rewrite lookup_empty)) H).
  intros k. unfold in_deps. split.
  - intros [s Hs]. rewrite Hs. cbn. apply set_choose_L. by eapply Hne.
  - intros [v Hv]. destruct (deps !! k); [eauto|]. by apply not_elem_of_empty in Hv.
Qed.

(** Every key of the returned map has at least one dependent: an entry is
    created only by [dependents[k].add(v)], so [k] is a key of the map
    exactly when something was recorded as depending on [k]. *)
Theorem build_has_no_empty_entry
    (fs : filesystem) (hcl2_loads : string → option tf_dict) (limit : nat)
    (roots : list string) (start_dir cwd0 : string)
    (deps : gmap string (gset string)) (c : string) :
  build_dependency_dict fs hcl2_loads limit roots start_dir cwd0 = Ok (deps, c) →
  ∀ k, is_Some (deps !! k) ↔ ∃ v, in_deps deps k v.
Proof. apply build_keys_have_dependents. Qed.

Lemma build_has_no_empty_entry_witness :
  ∃ deps c,
    build_dependency_dict Fixtures.repo Fixtures.repo_loads 10 ["R"] "/repo" "/repo"
    = Ok (deps, c) ∧
    ∀ k, is_Some (deps !! k) ↔ ∃ v, in_deps deps k v.
Proof.
  destruct (build_returns_checked Fixtures.repo Fixtures.repo_loads 3 10
              ["R"] "/repo" "/repo") as (deps & c & H);
    [reflexivity|eexists; reflexivity|vm_compute; exact eq_refl|lia|].
  exists deps, c. split; [exact H|].
  exact (build_has_no_empty_entry Fixtures.repo Fixtures.repo_loads 10
           ["R"] "/repo" "/repo" deps c H).
Defined.

Lemma deps_eq_of_in_deps (m1 m2 : gmap string (gset string)) :
  (∀ k, is_Some (m1 !! k) ↔ ∃ v, in_deps m1 k v) →
  (∀ k, is_Some (m2 !! k) ↔ ∃ v, in_deps m2 k v) →
  (∀ k v, in_deps m1 k v ↔ in_deps m2 k v) →
  m1 = m2.
Proof.
  intros H1 H2 He. apply map_eq. intros k.
  specialize (H1 k). specialize (H2 k).
  assert (Hs : default ∅ (m1 !! k) = (default ∅ (m2 !! k) : gset string)).
  { apply set_eq. intros v. apply He. }
  unfold in_deps in H1, H2.
  destruct (m1 !! k) as [s1|] eqn:E1, (m2 !! k) as [s2|] eqn:E2; cbn in *.
  - by rewrite Hs.
  - destruct (proj1 H1 (mk_is_Some _ _ eq_refl)) as [v Hv].
    rewrite Hs in Hv. by apply not_elem_of_empty in Hv.
  - destruct (proj1 H2 (mk_is_Some _ _ eq_refl)) as [v Hv].
    rewrite <- Hs in Hv. by apply not_elem_of_empty in Hv.
  - done.
Qed.

(** The returned map depends on the roots as a set only: with an absolute
    [start_dir], two builds that return, over root lists with the same
    elements in any order and multiplicity, return the same map. *)
Theorem build_ignores_root_order
    (fs : filesystem) (hcl2_loads : string → option tf_dict) (limit limit' : nat)
    (roots roots' : list string) (start_dir cwd0 cwd0' : string)
    (deps deps' : gmap string (gset string)) (c c' : string) :
  Posixpath.isabs start_dir = true →
  (∀ r, r ∈ roots ↔ r ∈ roots') →
  build_dependency_dict fs hcl2_loads limit roots start_dir cwd0 = Ok (deps, c) →
  build_dependency_dict fs hcl2_loads limit' roots' start_dir cwd0' = Ok (deps', c') →
  deps = deps'.
Proof.
  intros Habs Hroots H H'.
  apply deps_eq_of_in_deps.
  - by eapply build_keys_have_dependents.
  - by eapply build_keys_have_dependents.
  - apply (build_sound fs hcl2_loads start_dir Habs) in H as (_ & _ & He & _).
    apply (build_sound fs hcl2_loads start_dir Habs) in H' as (_ & _ & He' & _).
    intros k v. rewrite He, He'. unfold below_roots.
    split; intros (r & Hr & Hb); exists r; (split; [by apply Hroots|done]).
Qed.

Lemma build_ignores_root_order_witness :
  ∃ deps c deps' c',
    Posixpath.isabs "/repo" = true ∧
    (∀ r, r ∈ ["env/prod"; "R"] ↔ r ∈ ["R"; "env/prod"; "R"]) ∧
    build_dependency_dict Fixtures.repo Fixtures.repo_loads 10
      ["env/prod"; "R"] "/repo" "/repo" = Ok (deps, c) ∧
    build_dependency_dict Fixtures.repo Fixtures.repo_loads 10
      ["R"; "env/prod"; "R"] "/repo" "/home" = Ok (deps', c') ∧
    deps = deps'.
Proof.
  assert (Hroots : ∀ r : string, r ∈ ["env/prod"; "R"] ↔ r ∈ ["R"; "env/prod"; "R"]).
  { intros r. rewrite !elem_of_cons, !elem_of_nil. tauto. }
  destruct (build_returns_checked Fixtures.repo Fixtures.repo_loads 3 10
              ["env/prod"; "R"] "/repo" "/repo") as (deps & c & H);
    [reflexivity|eexists; reflexivity|vm_compute; exact eq_refl|lia|].
  destruct (build_returns_checked Fixtures.repo Fixtures.repo_loads 3 10
              ["R"; "env/prod"; "R"] "/repo" "/home") as (deps' & c' & H');
    [reflexivity|eexists; reflexivity|vm_compute; exact eq_refl|lia|].
  exists deps, c, deps', c'. split; [reflexivity|]. split; [exact Hroots|].
  split; [exact H|]. split; [exact H'|].
  exact (build_ignores_root_order Fixtures.repo Fixtures.repo_loads 10 10
           ["env/prod"; "R"] ["R"; "env/prod"; "R"] "/repo" "/repo" "/home"
           deps deps' c c' eq_refl Hroots H H').
Defined.

(** ** The keys of the map *)

Lemma startswith_slash_plain (m : string) :
  Forall plain (Str.split m) → Str.startswith "/" m = false.
Proof.
  intros Hall. destruct m as [|c m]; [done|].
  unfold Str.startswith. cbn [String.prefix].
  destruct (ascii_dec "/" c) as [<-|]; [|done].
  rewrite split_slash in Hall. inversion Hall as [|? ? [[_ [Hne _]] _] _]. done.
Qed.

Lemma common_len_app (s m : list string) :
  Posixpath.common_len s (s ++ m) = List.length s.
Proof. induction s as [|x s IH]; [by destruct m|]. cbn. by rewrite String.eqb_refl, IH. Qed.

Lemma rel_list_below (s m : list string) : rel_list s (s ++ m) = m.
Proof.
  unfold rel_list. rewrite common_len_app, Nat.sub_diag. cbn.
  by rewrite drop_app_length.
Qed.

Lemma join2_slash_join (S : list string) (m : string) :
  Forall plain S → Str.startswith "/" m = false →
  Posixpath.join2 (String "/" (Str.join S)) m
  = match S with
    | [] => String "/" m
    | _ => String "/" (Str.join S +:+ String "/" m)
    end.
Proof.
  intros HS Hm. unfold Posixpath.join2. rewrite Hm. cbn [String.eqb orb].
  destruct S as [|a S']; [done|].
  assert (He : Str.endswith "/" (String "/" (Str.join (a :: S'))) = false).
  { cbn [Str.endswith].
    destruct (String.eqb_spec (String "/" (Str.join (a :: S'))) "/") as [E|_].
    - injection E as E. apply join_not_empty in E; [done|].
      by inversion HS as [|? ? [[_ [? _]] _] _].
    - apply endswith_slash_join. eapply Forall_impl; [exact HS|].
      by intros w [[? [? _]] _]. }
  by rewrite He.
Qed.

Lemma components_of_root c start_dir m :
  Posixpath.isabs start_dir = true →
  Forall plain (Str.split m) →
  Posixpath.components c (root_dir start_dir m)
  = Posixpath.components "/" start_dir ++ Str.split m.
Proof.
  intros Hs Hm. unfold root_dir.
  rewrite components_abspath by apply isabs_realpath.
  rewrite components_rel by (by apply startswith_slash_plain || apply isabs_realpath).
  destruct (components_normalised "/" start_dir Hs) as [_ HS].
  rewrite canon_components.
  change ("/" +:+ Str.join (Posixpath.components "/" start_dir))
    with (String "/" (Str.join (Posixpath.components "/" start_dir))).
  rewrite join2_slash_join by (by apply startswith_slash_plain || done).
  destruct (Posixpath.components "/" start_dir) as [|a S'] eqn:ES.
  - rewrite (proj1 (components_normalised "/" (String "/" m) (isabs_cons m))).
    rewrite split_slash. cbn [Posixpath.norm_comps String.eqb orb].
    by rewrite norm_comps_plain_id.
  - rewrite (proj1 (components_normalised "/" _ (isabs_cons _))).
    rewrite split_slash, split_app_slash.
    cbn [Posixpath.norm_comps String.eqb orb].
    rewrite split_join; [|eapply Forall_impl; [exact HS|]; by intros w [[? _] _]|done].
    rewrite norm_comps_plain_id; [done|by apply Forall_app].
Qed.

(** A directory named by a normalised path [m] relative to [start_dir]
    (plain names separated by single slashes) gets the identity [m]: this
    is the string under which a root passed as [m] is recorded as a
    dependent, and under which the directory can be queried. *)
Theorem relative_path_is_its_identity
    (start_dir m c : string) :
  Posixpath.isabs start_dir = true →
  Forall plain (Str.split m) →
  Posixpath.relpath c (root_dir start_dir m) start_dir = Some m.
Proof.
  intros Hs Hm.
  rewrite relpath_render by apply isabs_nonempty, isabs_abspath, isabs_realpath.
  rewrite (components_of_root c start_dir m Hs Hm).
  rewrite (components_abs c "/" start_dir Hs), rel_list_below.
  rewrite render_join.
  - pose proof (split_not_nil m). destruct (Str.split m) eqn:E; [done|].
    by rewrite <- E, join_split.
  - eapply Forall_impl; [exact Hm|]. by intros w [? _].
Qed.

Lemma plain_env_prod : Forall plain (Str.split "env/prod").
Proof.
  change (Str.split "env/prod") with ["env"; "prod"].
  repeat constructor; done.
Qed.

Lemma relative_path_is_its_identity_witness :
  Posixpath.isabs "/repo" = true ∧ Forall plain (Str.split "env/prod") ∧
  Posixpath.relpath "/repo/env/prod" (root_dir "/repo" "env/prod") "/repo"
  = Some "env/prod".
Proof.
  split; [reflexivity|]. split; [exact plain_env_prod|].
  exact (relative_path_is_its_identity "/repo" "env/prod" "/repo/env/prod"
           eq_refl plain_env_prod).
Defined.



(** ** The shape of a key *)

Lemma join_head c a (l : list string) :
  ∃ t, Str.join (String c a :: l) = String c (a +:+ t).
Proof.
  destruct l as [|b l]; [exists ""|rewrite join_cons; eexists; reflexivity].
  change (Str.join [String c a]) with (String c a). f_equal.
  induction a as [|x a IH]; [done|].
  change (String x a +:+ "") with (String x (a +:+ "")). by rewrite <- IH.
Qed.

Lemma render_shape (l : list string) :
  Forall joinable l →
  render l ≠ "" ∧ Str.startswith "/" (render l) = false ∧
  Str.endswith "/" (render l) = false ∧ Str.startswith "./" (render l) = false.
Proof.
  intros Hall. rewrite render_join by done.
  destruct l as [|a l]; [done|].
  inversion Hall as [|? ? (Ha & Hane & Hand) Hl]; subst.
  assert (Hw : Forall (λ w, no_slash w ∧ w ≠ "") (a :: l)).
  { eapply Forall_impl; [exact Hall|]. by intros w (? & ? & _). }
  split; [by apply join_not_empty|].
  split; [|split; [by apply endswith_slash_join|]].
  - destruct a as [|c a]; [done|]. destruct Ha as [Hc _].
    destruct (join_head c a l) as [t ->].
    unfold Str.startswith. cbn [String.prefix].
    by destruct (ascii_dec "/" c) as [<-|].
  - destruct a as [|c a]; [done|]. destruct Ha as [Hc Ha].
    destruct (join_head c a l) as [t ->].
    unfold Str.startswith. cbn [String.prefix].
    destruct (ascii_dec "." c) as [<-|]; [|done].
    destruct a as [|c2 a]; [done|]. destruct Ha as [Hc2 _].
    change (String c2 a +:+ t) with (String c2 (a +:+ t)). cbn [String.prefix].
    by destruct (ascii_dec "/" c2) as [<-|].
Qed.

Lemma identity_shape start_dir d :
  Posixpath.isabs d = true →
  identity start_dir d ≠ "" ∧ Str.startswith "/" (identity start_dir d) = false ∧
  Str.endswith "/" (identity start_dir d) = false ∧
  Str.startswith "./" (identity start_dir d) = false.
Proof.
  intros Hd. unfold identity.
  rewrite relpath_render by (by apply isabs_nonempty). cbn.
  apply render_shape, rel_list_joinable. by apply components_normalised.
Qed.

Lemma build_keys_shape fs hcl2_loads limit roots start_dir cwd0 deps c k :
  Posixpath.isabs start_dir = true →
  build_dependency_dict fs hcl2_loads limit roots start_dir cwd0 = Ok (deps, c) →
  is_Some (deps !! k) →
  k ≠ "" ∧ Str.startswith "/" k = false ∧ Str.endswith "/" k = false ∧
  Str.startswith "./" k = false.
Proof.
  intros Habs H Hk.
  apply (build_keys_have_dependents _ _ _ _ _ _ _ _ H) in Hk as [v Hv].
  apply (build_sound fs hcl2_loads start_dir Habs) in H as (_ & _ & He & _).
  apply He in Hv as (r & _ & d & _ & s & _ & -> & _).
  apply identity_shape, isabs_child.
Qed.

(** The keys of the returned map are normalised relative paths: no key is
    empty, begins with a slash, ends with a slash or begins with [./]. *)
Theorem build_keys_are_normalised
    (fs : filesystem) (hcl2_loads : string → option tf_dict) (limit : nat)
    (roots : list string) (start_dir cwd0 : string)
    (deps : gmap string (gset string)) (c k : string) :
  Posixpath.isabs start_dir = true →
  build_dependency_dict fs hcl2_loads limit roots start_dir cwd0 = Ok (deps, c) →
  is_Some (deps !! k) →
  k ≠ "" ∧ Str.startswith "/" k = false ∧ Str.endswith "/" k = false ∧
  Str.startswith "./" k = false.
Proof. apply build_keys_shape. Qed.

Lemma repo_R_entry_C :
  ∀ deps c,
    build_dependency_dict Fixtures.repo Fixtures.repo_loads 10 ["R"] "/repo" "/repo"
    = Ok (deps, c) →
    is_Some (deps !! "C").
Proof.
  intros deps c H.
  apply (build_keys_have_dependents _ _ _ _ _ _ _ _ H). exists "A".
  apply (build_sound Fixtures.repo Fixtures.repo_loads "/repo" eq_refl) in H
    as (_ & _ & He & _).
  apply He. exists "R". split; [apply list_elem_of_here|].
  exists "/repo/A". split.
  - apply (reach_source _ _ _ "../A"); [|constructor].
    apply (source_checked _ _ _ ["../A"; "../B"]); [vm_compute; exact eq_refl|].
    apply list_elem_of_here.
  - exists "../C". split; [|split; vm_compute; exact eq_refl].
    apply (source_checked _ _ _ ["../C"]); [vm_compute; exact eq_refl|].
    apply list_elem_of_here.
Qed.

Lemma build_keys_are_normalised_witness :
  ∃ deps c,
    Posixpath.isabs "/repo" = true ∧
    build_dependency_dict Fixtures.repo Fixtures.repo_loads 10 ["R"] "/repo" "/repo"
    = Ok (deps, c) ∧
    is_Some (deps !! "C") ∧
    Str.endswith "/" "C" = false.
Proof.
  destruct (build_returns_checked Fixtures.repo Fixtures.repo_loads 3 10
              ["R"] "/repo" "/repo") as (deps & c & H);
    [reflexivity|eexists; reflexivity|vm_compute; exact eq_refl|lia|].
  exists deps, c. split; [reflexivity|]. split; [exact H|].
  split; [exact (repo_R_entry_C deps c H)|].
  exact (proj1 (proj2 (proj2 (build_keys_are_normalised Fixtures.repo Fixtures.repo_loads
           10 ["R"] "/repo" "/repo" deps c "C" eq_refl H (repo_R_entry_C deps c H))))).
Defined.

(** A query for a name that is not written as the builder writes it finds
    nothing: on a map the builder returned, the query for a subject that is
    empty, begins with a slash, ends with a slash or begins with [./]
    returns its accumulator unchanged, whether or not the directory meant
    has dependents. *)
Theorem query_for_unnormalised_name_is_empty
    (fs : filesystem) (hcl2_loads : string → option tf_dict) (limit limit' : nat)
    (roots : list string) (start_dir cwd0 : string)
    (deps : gmap string (gset string)) (c subject : string) (modules : gset string) :
  Posixpath.isabs start_dir = true →
  build_dependency_dict fs hcl2_loads limit roots start_dir cwd0 = Ok (deps, c) →
  subject = "" ∨ Str.startswith "/" subject = true ∨
    Str.endswith "/" subject = true ∨ Str.startswith "./" subject = true →
  find_mods_affected (S limit') subject modules deps = Ok modules.
Proof.
  intros Habs H Hbad.
  assert (Hnone : deps !! subject = None).
  { destruct (deps !! subject) as [s|] eqn:E; [|done].
    destruct (build_keys_shape _ _ _ _ _ _ _ _ subject Habs H) as (H1 & H2 & H3 & H4);
      [by rewrite E|].
    destruct Hbad as [?|[?|[?|?]]]; congruence. }
  cbn [find_mods_affected]. rewrite Hnone. cbn. by rewrite elements_empty.
Qed.

Lemma query_for_unnormalised_name_is_empty_witness :
  ∃ deps c,
    Posixpath.isabs "/repo" = true ∧
    build_dependency_dict Fixtures.repo Fixtures.repo_loads 10 ["R"] "/repo" "/repo"
    = Ok (deps, c) ∧
    is_Some (deps !! "C") ∧
    Str.endswith "/" "C/" = true ∧
    find_mods_affected 1000 "C/" ∅ deps = Ok ∅.
Proof.
  destruct (build_returns_checked Fixtures.repo Fixtures.repo_loads 3 10
              ["R"] "/repo" "/repo") as (deps & c & H);
    [reflexivity|eexists; reflexivity|vm_compute; exact eq_refl|lia|].
  exists deps, c. split; [reflexivity|]. split; [exact H|].
  split; [exact (repo_R_entry_C deps c H)|]. split; [reflexivity|].
  apply (query_for_unnormalised_name_is_empty Fixtures.repo Fixtures.repo_loads
           10 999 ["R"] "/repo" "/repo" deps c "C/" ∅ eq_refl H).
  right. right. left. reflexivity.
Defined.

(** ** The files of a directory *)

(** [get_tf_files] raises when the path does not lead to a directory:
    when it is empty, when it passes through a name that is missing or is
    not a directory, or when what it names is not a directory. Otherwise it
    returns, in the order of the listing and without touching the state,
    exactly the entries whose name ends in [.tf] (the name [.tf] itself
    included, whatever the entry is: a file or a directory). *)
Theorem get_tf_files_lists_tf_names
    (fs : filesystem) (path : string) (st : state) :
  get_tf_files fs "" st = Raise NotADirectory ∧
  (∀ d rest, d ≠ "" → listing fs (cwd st) d = None →
     get_tf_files fs (d +:+ "/" +:+ rest) st = Raise NotADirectory) ∧
  match listing fs (cwd st) path with
  | None => get_tf_files fs path st = Raise NotADirectory
  | Some names =>
      ∃ files, get_tf_files fs path st = Ok (files, st) ∧
        files `sublist_of` names ∧
        ∀ f, f ∈ files ↔ f ∈ names ∧ ∃ stem, f = stem +:+ ".tf"
  end.
Proof.
  split; [done|]. split.
  { intros d rest Hd Hl. unfold get_tf_files, bind, isdir, raise.
    rewrite (listing_below fs (cwd st) d rest Hd Hl).
    by rewrite bool_decide_false by (by intros [? ?]). }
  unfold get_tf_files, bind, isdir, listdir, ret, raise.
  destruct (listing fs _ _) as [names|] eqn:E.
  - rewrite bool_decide_true by eauto. cbn [negb]. rewrite E.
    eexists. split; [reflexivity|]. split.
    + clear. induction names as [|n names IH]; [done|]. cbn.
      destruct (Str.endswith ".tf" n); [by apply sublist_skip|by apply sublist_cons].
    + intros f. rewrite list_elem_of_In, filter_In, <- list_elem_of_In.
      by rewrite endswith_spec.
  - by rewrite bool_decide_false by (by intros [? ?]).
Qed.

Lemma get_tf_files_lists_tf_names_witness :
  "/repo/ghost" ≠ "" ∧
  listing Fixtures.repo (cwd Estate.at_root) "/repo/ghost" = None ∧
  get_tf_files Fixtures.repo "/repo/ghost/../C" Estate.at_root = Raise NotADirectory ∧
  ∃ files,
    get_tf_files Fixtures.repo "/repo/R/../C" Estate.at_root = Ok (files, Estate.at_root) ∧
    files `sublist_of` ["main.tf"; "outputs.tf"] ∧
    ∀ f, f ∈ files ↔ f ∈ ["main.tf"; "outputs.tf"] ∧ ∃ stem, f = stem +:+ ".tf".
Proof.
  assert (Hne : "/repo/ghost" ≠ "") by discriminate.
  assert (Hl : listing Fixtures.repo (cwd Estate.at_root) "/repo/ghost" = None)
    by (vm_compute; exact eq_refl).
  split; [exact Hne|]. split; [exact Hl|]. split.
  - exact (proj1 (proj2 (get_tf_files_lists_tf_names Fixtures.repo "/repo/R/../C"
                           Estate.at_root)) "/repo/ghost" "../C" Hne Hl).
  - destruct (get_tf_files_lists_tf_names Fixtures.repo "/repo/R/../C" Estate.at_root)
      as (_ & _ & H).
    assert (E : listing Fixtures.repo (cwd Estate.at_root) "/repo/R/../C"
                = Some ["main.tf"; "outputs.tf"]) by (vm_compute; exact eq_refl).
    rewrite E in H. exact H.
Defined.

(** ** The backend markers *)

Lemma strip_spec p s rest : Re.strip p s = Some rest ↔ s = p +:+ rest.
Proof.
  revert s. induction p as [|a p IH]; intros s; cbn [Re.strip].
  - change ("" +:+ rest) with rest. split; [by intros [= ->]|by intros ->].
  - change (String a p +:+ rest) with (String a (p +:+ rest)).
    destruct s as [|b s]; [done|].
    destruct (Ascii.eqb_spec a b) as [->|Hne].
    + rewrite IH. split; [by intros ->|by intros [= ->]].
    + split; [done|]. intros [= <- _]. done.
Qed.

Lemma blanks_then_spec c s :
  Re.blanks_then c s = true ↔ ∃ n post, s = Re.blanks (S n) +:+ String c post.
Proof.
  split.
  - induction s as [|a s IH]; [done|]. cbn [Re.blanks_then].
    destruct (Ascii.eqb_spec a " ") as [->|_]; [|done].
    destruct s as [|b s]; [done|].
    destruct (Ascii.eqb_spec b c) as [->|_].
    + intros _. by exists 0, s.
    + cbn [orb]. intros (n & post & ->)%IH. by exists (S n), post.
  - intros (n & post & ->). induction n as [|n IH].
    + change (Re.blanks 1 +:+ String c post) with (String " " (String c post)).
      cbn [Re.blanks_then]. by rewrite !Ascii.eqb_refl.
    + change (Re.blanks (S (S n)) +:+ String c post)
        with (String " " (String " " (Re.blanks n +:+ String c post))).
      change (Re.blanks (S n) +:+ String c post)
        with (String " " (Re.blanks n +:+ String c post)) in IH.
      cbn [Re.blanks_then] in *. rewrite Ascii.eqb_refl in *.
      rewrite IH. apply orb_true_r.
Qed.

Lemma search_unfold kw c s :
  Re.search kw c s
  = (match Re.strip kw s with
     | Some rest => Re.blanks_then c rest
     | None => false
     end
     || match s with
        | EmptyString => false
        | String _ s' => Re.search kw c s'
        end).
Proof. by destruct s. Qed.

Lemma search_spec kw c s :
  Re.search kw c s = true ↔
  ∃ pre n post, s = pre +:+ kw +:+ Re.blanks (S n) +:+ String c post.
Proof.
  split.
  - induction s as [|x s IH]; rewrite search_unfold; intros [H|H]%orb_true_iff.
    + destruct (Re.strip kw "") as [rest|] eqn:E; [|done].
      apply strip_spec in E. apply blanks_then_spec in H as (n & post & ->).
      by exists "", n, post.
    + done.
    + destruct (Re.strip kw (String x s)) as [rest|] eqn:E; [|done].
      apply strip_spec in E. apply blanks_then_spec in H as (n & post & ->).
      by exists "", n, post.
    + apply IH in H as (pre & n & post & ->). by exists (String x pre), n, post.
  - intros (pre & n & post & ->). induction pre as [|x pre IH].
    + change ("" +:+ kw +:+ Re.blanks (S n) +:+ String c post)
        with (kw +:+ Re.blanks (S n) +:+ String c post).
      rewrite search_unfold.
      rewrite (proj2 (strip_spec kw _ (Re.blanks (S n) +:+ String c post)) eq_refl).
      rewrite (proj2 (blanks_then_spec c _)) by eauto. done.
    + change (String x pre +:+ kw +:+ Re.blanks (S n) +:+ String c post)
        with (String x (pre +:+ kw +:+ Re.blanks (S n) +:+ String c post)).
      rewrite search_unfold, IH. apply orb_true_r.
Qed.

Lemma markers_spec data :
  (Re.search "backend" "034" data || Re.search "cloud" "{" data) = true ↔
  has_marker data.
Proof. rewrite orb_true_iff, !search_spec. reflexivity. Qed.

(** [file_has_backend] raises when the path does not lead to a file that
    can be read: when it is empty, when it passes through a name that is
    missing or is not a directory, or when what it names cannot be read.
    Otherwise it leaves the state unchanged and answers [True] exactly when
    the text contains, anywhere, the word [backend], one or more blanks and
    a double quote, or the word [cloud], one or more blanks and an opening
    brace. *)
Theorem file_has_backend_finds_markers
    (fs : filesystem) (path : string) (st : state) :
  file_has_backend fs "" st = Raise OSError ∧
  (∀ d rest, d ≠ "" → listing fs (cwd st) d = None →
     file_has_backend fs (d +:+ "/" +:+ rest) st = Raise OSError) ∧
  match contents fs (cwd st) path with
  | None => file_has_backend fs path st = Raise OSError
  | Some data =>
      ∃ b, file_has_backend fs path st = Ok (b, st) ∧ (b = true ↔ has_marker data)
  end.
Proof.
  split; [done|]. split.
  { intros d rest Hd Hl. unfold file_has_backend, bind, read_file.
    by rewrite (contents_below fs (cwd st) d rest Hd Hl). }
  unfold file_has_backend, bind, read_file, ret.
  destruct (contents fs _ _) as [data|]; [|done].
  eexists. split; [reflexivity|]. apply markers_spec.
Qed.

Lemma file_has_backend_finds_markers_witness :
  "/repo/ghost" ≠ "" ∧
  listing Estate.tree (cwd Estate.at_root) "/repo/ghost" = None ∧
  file_has_backend Estate.tree "/repo/ghost/../x.tf" Estate.at_root = Raise OSError ∧
  ∃ b, file_has_backend Estate.tree "/repo/roots/../x.tf" Estate.at_root
       = Ok (b, Estate.at_root) ∧
       (b = true ↔ has_marker "terraform { cloud { } }").
Proof.
  assert (Hne : "/repo/ghost" ≠ "") by discriminate.
  assert (Hl : listing Estate.tree (cwd Estate.at_root) "/repo/ghost" = None)
    by (vm_compute; exact eq_refl).
  split; [exact Hne|]. split; [exact Hl|]. split.
  - exact (proj1 (proj2 (file_has_backend_finds_markers Estate.tree "/repo/roots/../x.tf"
                           Estate.at_root)) "/repo/ghost" "../x.tf" Hne Hl).
  - destruct (file_has_backend_finds_markers Estate.tree "/repo/roots/../x.tf"
                Estate.at_root) as (_ & _ & H).
    assert (E : contents Estate.tree (cwd Estate.at_root) "/repo/roots/../x.tf"
                = Some "terraform { cloud { } }") by (vm_compute; exact eq_refl).
    rewrite E in H. exact H.
Defined.

(** ** What discovery returns *)

Section DiscoveryFacts.

Variable fs : filesystem.

Lemma file_has_backend_Ok p st b st' :
  file_has_backend fs p st = Ok (b, st') →
  st' = st ∧ ∃ data, contents fs (cwd st) p = Some data ∧
                     (b = true ↔ has_marker data).
Proof.
  unfold file_has_backend, bind, read_file, ret.
  destruct (contents fs _ _) as [data|]; [|done]. intros [= <- <-].
  split; [done|]. exists data. split; [done|]. apply markers_spec.
Qed.

Lemma has_backend_file_spec p files : ∀ st b st',
  has_backend_file fs p files st = Ok (b, st') →
  st' = st ∧ (b = true ↔ marked fs (cwd st) p files).
Proof.
  induction files as [|fl files IH]; intros st b st'; cbn [has_backend_file].
  - intros [= <- <-]. split; [done|]. split; [done|].
    by intros (fl & data & ?%elem_of_nil & _).
  - destruct (Str.endswith ".tf" fl) eqn:Etf.
    + intros (b0 & st0 & H0 & H)%bind_Ok.
      apply file_has_backend_Ok in H0 as (-> & data & Hread & Hb0).
      destruct b0.
      * injection H as <- <-. split; [done|]. split; [|done]. intros _.
        exists fl, data. split; [by left|]. split; [done|]. split; [done|by apply Hb0].
      * apply IH in H as [-> Hb]. split; [done|]. rewrite Hb. split.
        -- intros (fl0 & data0 & Hin & H1). exists fl0, data0. split; [by right|done].
        -- intros (fl0 & data0 & [->|Hin]%elem_of_cons & Htf & Hr0 & Hm).
           ++ rewrite Hread in Hr0. injection Hr0 as <-. by apply Hb0 in Hm.
           ++ by exists fl0, data0.
    + intros H. apply IH in H as [-> Hb]. split; [done|]. rewrite Hb. split.
      * intros (fl0 & data0 & Hin & H1). exists fl0, data0. split; [by right|done].
      * intros (fl0 & data0 & [->|Hin]%elem_of_cons & Htf & Hr0 & Hm); [congruence|].
        by exists fl0, data0.
Qed.

Lemma visit_walked_spec p files found st found' st' :
  visit_walked fs p files found st = Ok (found', st') →
  st' = st ∧
  ∀ q, q ∈ found' ↔
       q ∈ found ∨ (q = p ∧ Str.contains ".terraform" p = false ∧
                    marked fs (cwd st) p files).
Proof.
  unfold visit_walked. destruct (Str.contains ".terraform" p) eqn:Ec.
  - intros [= <- <-]. split; [done|]. intros q. split; [by left|].
    by intros [?|(_ & ? & _)].
  - intros (b & st0 & H0 & [= <- <-])%bind_Ok.
    apply has_backend_file_spec in H0 as [-> Hb]. split; [done|]. intros q.
    destruct b.
    + rewrite elem_of_union, elem_of_singleton. split.
      * intros [->|?]; [right|by left]. split; [done|]. split; [done|by apply Hb].
      * intros [?|(-> & _)]; [by right|by left].
    + split; [by left|]. intros [?|(_ & _ & Hm)]; [done|]. by apply Hb in Hm.
Qed.

Lemma walked_under c top names d q :
  listing fs c top = Some names → d ∈ names →
  entry_is_dir fs c top d = true →
  walked fs c (Posixpath.join top [d]) q → walked fs c top q.
Proof.
  intros Hl Hd Hdir. induction 1 as [|p names0 name _ IH Hl0 Hn Hdir0].
  - eapply walked_sub; [constructor|done..].
  - by eapply walked_sub.
Qed.

Lemma walked_cases c top q :
  walked fs c top q →
  q = top ∨ ∃ names d, listing fs c top = Some names ∧ d ∈ names ∧
                       entry_is_dir fs c top d = true ∧
                       walked fs c (Posixpath.join top [d]) q.
Proof.
  induction 1 as [|p names0 name Hw IH Hl0 Hn Hdir0]; [by left|]. right.
  destruct IH as [->|(names & d & Hl & Hd & Hdir & Hw')].
  - exists names0, name. repeat split; try done. constructor.
  - exists names, d. repeat split; try done. by eapply walked_sub.
Qed.

Lemma fold_walk_spec (c : string) (step : string → gset string → M (gset string))
    (T : string → string → Prop) dl :
  (∀ d acc st acc' st', d ∈ dl → cwd st = c → step d acc st = Ok (acc', st') →
     st' = st ∧ ∀ q, q ∈ acc' ↔ q ∈ acc ∨ T d q) →
  ∀ acc st acc' st', cwd st = c →
    fold_each dl step acc st = Ok (acc', st') →
    st' = st ∧ ∀ q, q ∈ acc' ↔ q ∈ acc ∨ ∃ d, d ∈ dl ∧ T d q.
Proof.
  induction dl as [|d dl IH]; intros Hstep acc st acc' st' Hc; cbn [fold_each].
  - intros [= <- <-]. split; [done|]. intros q. split; [by left|].
    by intros [?|(d & ?%elem_of_nil & _)].
  - intros (acc1 & st1 & H1 & H2)%bind_Ok.
    apply Hstep in H1 as [-> Hq1]; [|by left|done].
    apply IH in H2 as [-> Hq2]; [| |done].
    2:{ intros d0 a s a' s' Hd0. apply Hstep. by right. }
    split; [done|]. intros q. rewrite Hq2, Hq1. split.
    + intros [[?|?]|(d0 & Hd0 & HT)]; [by left|right..].
      * exists d. split; [by left|done].
      * exists d0. split; [by right|done].
    + intros [?|(d0 & [->|Hd0]%elem_of_cons & HT)]; [by left; left|by left; right|].
      right. by exists d0.
Qed.

Lemma walk_roots_spec limit : ∀ top found st found' st',
  walk_roots fs limit top found st = Ok (found', st') →
  st' = st ∧
  ∀ q, q ∈ found' ↔ q ∈ found ∨ (walked fs (cwd st) top q ∧ is_root fs (cwd st) q).
Proof.
  induction limit as [|limit IH]; intros top found st found' st'; [done|].
  cbn [walk_roots].
  destruct (listing fs (cwd st) top) as [names|] eqn:Hl.
  - intros (found1 & st1 & H1 & H2)%bind_Ok.
    apply visit_walked_spec in H1 as [-> Hq1].
    apply (fold_walk_spec (cwd st) _
             (λ d q, walked fs (cwd st) (Posixpath.join top [d]) q ∧
                     is_root fs (cwd st) q)) in H2 as [-> Hq2]; [| |done].
    2:{ intros d acc s acc' s' Hd Hc Hs. apply IH in Hs as [-> Hs].
        split; [done|]. intros q. by rewrite Hs, Hc. }
    split; [done|]. intros q. rewrite Hq2, Hq1. split.
    + intros [[?|(-> & Hc & fl & data & Hfl & Htf & Hr & Hm)]
             |(d & Hd & Hw & Hroot)].
      * by left.
      * right. split; [constructor|]. split; [done|].
        apply list_elem_of_In, filter_In in Hfl as [Hfl Hnd].
        exists names, fl, data. repeat split; try done.
        -- by apply list_elem_of_In.
        -- by apply negb_true_iff.
      * right. split; [|done].
        apply list_elem_of_In, filter_In in Hd as [Hd Hdir].
        eapply walked_under; [done|by apply list_elem_of_In|done|done].
    + intros [?|[Hw Hroot]]; [by left; left|].
      apply walked_cases in Hw as [->|(names0 & d & Hl0 & Hd & Hdir & Hw)].
      * left. right. split; [done|].
        destruct Hroot as (Hc & names0 & fl & data & Hl0 & Hfl & Hnd & Htf & Hr & Hm).
        split; [done|]. rewrite Hl in Hl0. injection Hl0 as <-.
        exists fl, data. split; [|done].
        apply list_elem_of_In, filter_In. split; [by apply list_elem_of_In|].
        by apply negb_true_iff.
      * right. rewrite Hl in Hl0. injection Hl0 as <-.
        exists d. split; [|done].
        apply list_elem_of_In, filter_In. split; [by apply list_elem_of_In|done].
  - intros [= <- <-]. split; [done|]. intros q. split; [by left|].
    intros [?|[Hw Hroot]]; [done|]. exfalso.
    apply walked_cases in Hw as [->|(names0 & d & Hl0 & _)]; [|congruence].
    destruct Hroot as (_ & names0 & fl & data & Hl0 & _). congruence.
Qed.

End DiscoveryFacts.

Lemma get_root_paths_Ok fs limit start_path st st' roots :
  get_root_paths fs limit start_path st = Ok (roots, st') →
  st' = st ∧ NoDup roots ∧
  ∀ p, p ∈ roots ↔ walked fs (cwd st) start_path p ∧ is_root fs (cwd st) p.
Proof.
  unfold get_root_paths. intros (d & st0 & [= <- <-] & H)%bind_Ok.
  destruct (negb _); [done|].
  apply bind_Ok in H as (found & st1 & Hw & [= <- <-]).
  apply walk_roots_spec in Hw as [-> Hq]. split; [done|].
  split; [apply NoDup_elements|]. intros p.
  rewrite elem_of_elements, Hq. rewrite elem_of_empty. tauto.
Qed.

(** The directories [get_root_paths] returns are, without repetition,
    exactly the directories of the walk from [start_path] whose path does
    not contain [.terraform] and that have an entry, not a directory, named
    [*.tf] whose text has a backend marker; the state is left unchanged. *)
Theorem get_root_paths_finds_roots
    (fs : filesystem) (limit : nat) (start_path : string) (st st' : state)
    (roots : list string) :
  get_root_paths fs limit start_path st = Ok (roots, st') →
  st' = st ∧ NoDup roots ∧
  ∀ p, p ∈ roots ↔ walked fs (cwd st) start_path p ∧ is_root fs (cwd st) p.
Proof. apply get_root_paths_Ok. Qed.

Lemma get_root_paths_finds_roots_witness :
  get_root_paths Estate.tree 10 "repo" Estate.at_root
  = Ok (["repo/roots/prod"; "repo"], Estate.at_root) ∧
  ∀ p, p ∈ ["repo/roots/prod"; "repo"] ↔
       walked Estate.tree (cwd Estate.at_root) "repo" p ∧
       is_root Estate.tree (cwd Estate.at_root) p.
Proof.
  assert (H : get_root_paths Estate.tree 10 "repo" Estate.at_root
              = Ok (["repo/roots/prod"; "repo"], Estate.at_root))
    by (vm_compute; exact eq_refl).
  split; [exact H|].
  exact (proj2 (proj2 (get_root_paths_finds_roots Estate.tree 10 "repo"
                         Estate.at_root Estate.at_root _ H))).
Defined.

(** ** Paths that contain [.terraform] *)

Lemma prefix_app p s t : String.prefix p s = true → String.prefix p (s +:+ t) = true.
Proof.
  revert s. induction p as [|a p IH]; intros s; [by destruct s; destruct t|].
  destruct s as [|b s]; [done|].
  change (String b s +:+ t) with (String b (s +:+ t)). cbn [String.prefix].
  destruct (ascii_dec a b); [apply IH|done].
Qed.

Lemma contains_unfold sub s :
  Str.contains sub s
  = if String.prefix sub s then true
    else match s with
         | EmptyString => false
         | String _ s' => Str.contains sub s'
         end.
Proof. by destruct s. Qed.

Lemma contains_app sub s t :
  Str.contains sub s = true → Str.contains sub (s +:+ t) = true.
Proof.
  induction s as [|c s IH]; rewrite contains_unfold.
  - destruct (String.prefix sub "") eqn:E; [|done]. intros _.
    rewrite contains_unfold. by rewrite (prefix_app sub "" t E).
  - destruct (String.prefix sub (String c s)) eqn:E.
    + intros _. rewrite contains_unfold. by rewrite (prefix_app sub _ t E).
    + intros H. change (String c s +:+ t) with (String c (s +:+ t)).
      rewrite contains_unfold. rewrite (IH H).
      by destruct (String.prefix sub (String c (s +:+ t))).
Qed.

Lemma contains_join2 sub top name :
  Str.startswith "/" name = false →
  Str.contains sub top = true → Str.contains sub (Posixpath.join2 top name) = true.
Proof.
  intros Hn Hc. unfold Posixpath.join2. rewrite Hn.
  destruct (_ || _)%bool; by apply contains_app.
Qed.

Lemma walked_contains fs c start p sub :
  names_relative fs → Str.contains sub start = true →
  walked fs c start p → Str.contains sub p = true.
Proof.
  intros Hfs Hc. induction 1 as [|p names name _ IH Hl Hn _]; [done|].
  apply listing_Some in Hl as (q & _ & Hl).
  apply contains_join2; [by eapply Hfs|done].
Qed.

(** When the path given to [get_root_paths] itself contains [.terraform],
    every directory of the walk is skipped: a returning call returns no
    root, whatever the tree holds. *)
Theorem get_root_paths_inside_terraform_dir
    (fs : filesystem) (limit : nat) (start_path : string) (st st' : state)
    (roots : list string) :
  names_relative fs →
  Str.contains ".terraform" start_path = true →
  get_root_paths fs limit start_path st = Ok (roots, st') →
  roots = [].
Proof.
  intros Hfs Hc H. apply get_root_paths_Ok in H as (_ & _ & Hroots).
  destruct roots as [|p roots]; [done|]. exfalso.
  destruct (proj1 (Hroots p) (list_elem_of_here _ _)) as [Hw [Hnc _]].
  by rewrite (walked_contains fs _ _ _ _ Hfs Hc Hw) in Hnc.
Qed.

Lemma estate_names_relative : names_relative Estate.tree.
Proof.
  intros p names name Hl Hn. unfold Estate.tree, Fixtures.tree in Hl. cbn [fs_listdir] in Hl.
  repeat (cbn [dict_get] in Hl;
          match type of Hl with
          | (if ?b then _ else _) = _ => destruct b
          | _ => idtac
          end;
          [injection Hl as <-;
           repeat (apply elem_of_cons in Hn as [->|Hn]; [reflexivity|]);
           by apply elem_of_nil in Hn|]).
  done.
Qed.

Lemma get_root_paths_inside_terraform_dir_witness :
  names_relative Estate.tree ∧
  Str.contains ".terraform" "/repo/roots/.terraform" = true ∧
  get_root_paths Estate.tree 10 "/repo/roots/.terraform" Estate.at_root
  = Ok ([], Estate.at_root) ∧
  ([] : list string) = [].
Proof.
  split; [exact estate_names_relative|]. split; [reflexivity|].
  assert (H : get_root_paths Estate.tree 10 "/repo/roots/.terraform" Estate.at_root
              = Ok ([], Estate.at_root)) by (vm_compute; exact eq_refl).
  split; [exact H|].
  exact (get_root_paths_inside_terraform_dir Estate.tree 10 "/repo/roots/.terraform"
           Estate.at_root Estate.at_root [] estate_names_relative eq_refl H).
Defined.

(** ** The scan of one directory stops at the first backend *)

Lemma file_has_backend_read fs p st data :
  contents fs (cwd st) p = Some data →
  file_has_backend fs p st
  = Ok (Re.search "backend" "034" data || Re.search "cloud" "{" data, st).
Proof. intros H. unfold file_has_backend, bind, read_file, ret. by rewrite H. Qed.

(** In the scan of one directory, once a [.tf] file with a marker is met
    the answer is [True] and the entries after it are not opened: they may
    be unreadable. The [.tf] files before it are all opened, so they must
    be readable. *)
Theorem has_backend_file_stops_at_first_marker
    (fs : filesystem) (this_path : string) (before : list string) (fl : string)
    (after : list string) (data : string) (st : state) :
  (∀ f, f ∈ before → Str.endswith ".tf" f = true →
        ∃ d, contents fs (cwd st) (Posixpath.join this_path [f]) = Some d ∧
             ¬ has_marker d) →
  Str.endswith ".tf" fl = true →
  contents fs (cwd st) (Posixpath.join this_path [fl]) = Some data →
  has_marker data →
  has_backend_file fs this_path (before ++ fl :: after) st = Ok (true, st).
Proof.
  intros Hbefore Htf Hread Hm.
  induction before as [|f before IH]; cbn [app has_backend_file].
  - rewrite Htf. unfold bind. rewrite (file_has_backend_read fs _ st data Hread).
    by rewrite (proj2 (markers_spec data) Hm).
  - destruct (Str.endswith ".tf" f) eqn:Ef.
    + destruct (Hbefore f (list_elem_of_here _ _) Ef) as (d & Hd & Hnm).
      unfold bind. rewrite (file_has_backend_read fs _ st d Hd).
      destruct (_ || _)%bool eqn:Eb; [by apply markers_spec in Eb|].
      apply IH. intros f0 Hf0. apply Hbefore. by right.
    + apply IH. intros f0 Hf0. apply Hbefore. by right.
Qed.

Lemma has_backend_file_stops_at_first_marker_witness :
  let data := "terraform { backend  " +:+ Fixtures.dq +:+ "s3" +:+ Fixtures.dq +:+ " {} }" in
  Str.endswith ".tf" "backend.tf" = true ∧
  contents Estate.tree (cwd Estate.at_root) (Posixpath.join "/repo/roots/prod" ["backend.tf"])
  = Some data ∧
  has_marker data ∧
  has_backend_file Estate.tree "/repo/roots/prod"
    (["main.tf"] ++ "backend.tf" :: ["unreadable.tf"]) Estate.at_root
  = Ok (true, Estate.at_root).
Proof.
  cbv zeta.
  assert (Hm : has_marker
                 ("terraform { backend  " +:+ Fixtures.dq +:+ "s3" +:+ Fixtures.dq +:+ " {} }")).
  { left. exists "terraform { ", 1, ("s3" +:+ Fixtures.dq +:+ " {} }"). reflexivity. }
  split; [reflexivity|]. split; [vm_compute; exact eq_refl|]. split; [exact Hm|].
  apply (has_backend_file_stops_at_first_marker Estate.tree "/repo/roots/prod"
           ["main.tf"] "backend.tf" ["unreadable.tf"]
           ("terraform { backend  " +:+ Fixtures.dq +:+ "s3" +:+ Fixtures.dq +:+ " {} }")
           Estate.at_root).
  - intros f [->|?%elem_of_nil]%elem_of_cons _; [|done].
    exists Fixtures.resource_text. split; [vm_compute; exact eq_refl|].
    intros Hmk. apply markers_spec in Hmk. vm_compute in Hmk. discriminate Hmk.
  - reflexivity.
  - vm_compute; exact eq_refl.
  - exact Hm.
Defined.

(** ** Memoisation *)

Lemma find_deps_cached fs hcl2_loads start_dir limit d st st' :
  find_deps_for_dir fs hcl2_loads start_dir limit d st = Ok (tt, st') →
  d ∈ cache st'.
Proof.
  destruct limit as [|limit]; [done|]. cbn [find_deps_for_dir].
  destruct (Lru.mem d (cache st)) eqn:Hmem.
  - intros [= <-]. cbn [cache set_cache]. unfold Lru.touch. by left.
  - intros (files & st0 & _ & H)%bind_Ok.
    apply bind_Ok in H as ([] & st1 & _ & [= <-]).
    cbn [cache set_cache]. unfold Lru.store.
    destruct (Lru.mem d (cache st1)) eqn:Hm1; [by apply lru_mem_true|].
    destruct (_ <? _)%nat; by left.
Qed.

(** A directory whose expansion has just returned is not expanded again:
    a second call right after it lists nothing, reads nothing, records
    nothing and leaves the working directory where it is; it only marks the
    directory as recently used in the cache. *)
Theorem find_deps_for_dir_is_memoised
    (fs : filesystem) (hcl2_loads : string → option tf_dict) (start_dir : string)
    (limit limit' : nat) (tf_dir : string) (st st' : state) :
  find_deps_for_dir fs hcl2_loads start_dir limit tf_dir st = Ok (tt, st') →
  find_deps_for_dir fs hcl2_loads start_dir (S limit') tf_dir st'
  = Ok (tt, set_cache (Lru.touch tf_dir (cache st')) st').
Proof.
  intros H%find_deps_cached. cbn [find_deps_for_dir].
  by rewrite (proj2 (lru_mem_true tf_dir (cache st')) H).
Qed.

Lemma find_deps_for_dir_is_memoised_witness :
  ∃ st',
    find_deps_for_dir Fixtures.repo Fixtures.repo_loads "/repo" 10 "/repo/R"
      {| cwd := "/repo"; dependents := ∅; cache := [] |} = Ok (tt, st') ∧
    find_deps_for_dir Fixtures.repo Fixtures.repo_loads "/repo" 1 "/repo/R" st'
    = Ok (tt, set_cache (Lru.touch "/repo/R" (cache st')) st').
Proof.
  destruct (find_deps_returns Fixtures.repo Fixtures.repo_loads "/repo" eq_refl 3 10
              "/repo/R" {| cwd := "/repo"; dependents := ∅; cache := [] |})
    as [st' H]; [reflexivity|apply goodb_sound; vm_compute; exact eq_refl|lia|].
  exists st'. split; [exact H|].
  exact (find_deps_for_dir_is_memoised Fixtures.repo Fixtures.repo_loads "/repo"
           10 0 "/repo/R" _ st' H).
Defined.

(** ** The directories a map mentions *)

Lemma affects_last deps k v : affects deps k v → ∃ k', in_deps deps k' v.
Proof. induction 1 as [k v H|k v w _ _ IH]; [by exists k|done]. Qed.

Lemma build_edge_directories fs hcl2_loads limit roots start_dir cwd0 deps c k v :
  Posixpath.isabs start_dir = true →
  build_dependency_dict fs hcl2_loads limit roots start_dir cwd0 = Ok (deps, c) →
  in_deps deps k v →
  ∃ r d s, r ∈ roots ∧ reach fs hcl2_loads (root_dir start_dir r) d ∧
    dir_source fs hcl2_loads d s ∧
    dir_ok fs hcl2_loads d ∧ dir_ok fs hcl2_loads (child d s) ∧
    k = identity start_dir (child d s) ∧ v = identity start_dir d.
Proof.
  intros Habs H Hkv.
  apply (build_sound fs hcl2_loads start_dir Habs) in H as (_ & Hg & He & _).
  apply He in Hkv as (r & Hr & d & Hreach & s & Hs & -> & ->).
  destruct (Hg r Hr) as [n Hn].
  destruct (good_reach fs hcl2_loads n _ d Hn Hreach) as [m Hm].
  exists r, d, s. repeat split; try done.
  - by eapply good_dir_ok.
  - destruct m as [|m]; [done|]. destruct Hm as [_ Hch].
    eapply good_dir_ok, Hch, Hs.
Qed.

(** The map a build returns mentions existing directories only: every key
    and every dependent is the identity of a directory that was listed, all
    of whose [.tf] files were read and parsed. *)
Theorem build_mentions_existing_directories
    (fs : filesystem) (hcl2_loads : string → option tf_dict) (limit : nat)
    (roots : list string) (start_dir cwd0 : string)
    (deps : gmap string (gset string)) (c k v : string) :
  Posixpath.isabs start_dir = true →
  build_dependency_dict fs hcl2_loads limit roots start_dir cwd0 = Ok (deps, c) →
  in_deps deps k v →
  (∃ d, dir_ok fs hcl2_loads d ∧ k = identity start_dir d) ∧
  (∃ d, dir_ok fs hcl2_loads d ∧ v = identity start_dir d).
Proof.
  intros Habs H Hkv.
  destruct (build_edge_directories _ _ _ _ _ _ _ _ _ _ Habs H Hkv)
    as (r & d & s & _ & _ & _ & Hd & Hc & -> & ->).
  split; [by exists (child d s)|by exists d].
Qed.

Lemma repo_R_edge_C_A :
  ∀ deps c,
    build_dependency_dict Fixtures.repo Fixtures.repo_loads 10 ["R"] "/repo" "/repo"
    = Ok (deps, c) →
    in_deps deps "C" "A".
Proof.
  intros deps c H.
  apply (build_sound Fixtures.repo Fixtures.repo_loads "/repo" eq_refl) in H
    as (_ & _ & He & _).
  apply He. exists "R". split; [apply list_elem_of_here|].
  exists "/repo/A". split.
  - apply (reach_source _ _ _ "../A"); [|constructor].
    apply (source_checked _ _ _ ["../A"; "../B"]); [vm_compute; exact eq_refl|].
    apply list_elem_of_here.
  - exists "../C". split; [|split; vm_compute; exact eq_refl].
    apply (source_checked _ _ _ ["../C"]); [vm_compute; exact eq_refl|].
    apply list_elem_of_here.
Qed.

Lemma build_mentions_existing_directories_witness :
  ∃ deps c,
    Posixpath.isabs "/repo" = true ∧
    build_dependency_dict Fixtures.repo Fixtures.repo_loads 10 ["R"] "/repo" "/repo"
    = Ok (deps, c) ∧
    in_deps deps "C" "A" ∧
    (∃ d, dir_ok Fixtures.repo Fixtures.repo_loads d ∧ "C" = identity "/repo" d) ∧
    (∃ d, dir_ok Fixtures.repo Fixtures.repo_loads d ∧ "A" = identity "/repo" d).
Proof.
  destruct (build_returns_checked Fixtures.repo Fixtures.repo_loads 3 10
              ["R"] "/repo" "/repo") as (deps & c & H);
    [reflexivity|eexists; reflexivity|vm_compute; exact eq_refl|lia|].
  exists deps, c. split; [reflexivity|]. split; [exact H|].
  split; [exact (repo_R_edge_C_A deps c H)|].
  exact (build_mentions_existing_directories Fixtures.repo Fixtures.repo_loads 10
           ["R"] "/repo" "/repo" deps c "C" "A" eq_refl H (repo_R_edge_C_A deps c H)).
Defined.

(** ** A directory under two names: what the builder sees *)

Section SameDirectory.

Variable fs : filesystem.
Variable hcl2_loads : string → option tf_dict.

Variables d d' : string.
Hypothesis d_normal : normal d.
Hypothesis d'_normal : normal d'.
Hypothesis same : canon d = canon d'.

Lemma tf_files_canon : tf_files fs d = tf_files fs d'.
Proof.
  unfold tf_files, listing.
  by rewrite (resolve_same fs "/" "/" d d' d_normal d'_normal same).
Qed.

Lemma file_sources_canon f :
  file_sources fs hcl2_loads d f = file_sources fs hcl2_loads d' f.
Proof.
  unfold file_sources, contents.
  by rewrite (resolve_join_same fs "/" "/" d d' f d_normal d'_normal same).
Qed.

Lemma child_canon s : child d s = child d' s.
Proof. unfold child. by rewrite same. Qed.

Lemma dir_ok_canon : dir_ok fs hcl2_loads d → dir_ok fs hcl2_loads d'.
Proof.
  intros (files & Hfiles & Hall). exists files.
  split; [by rewrite <- tf_files_canon|].
  intros f Hf. destruct (Hall f Hf) as (srcs & Hx & Hn). exists srcs.
  by rewrite <- file_sources_canon.
Qed.

Lemma dir_source_canon s :
  dir_source fs hcl2_loads d' s → dir_source fs hcl2_loads d s.
Proof.
  intros (files & f & srcs & Hfiles & Hf & Hx & Hs). exists files, f, srcs.
  by rewrite tf_files_canon, file_sources_canon.
Qed.

Lemma good_canon n : good fs hcl2_loads n d → good fs hcl2_loads n d'.
Proof.
  destruct n as [|n]; [done|]. intros [Hok Hch]. split; [by apply dir_ok_canon|].
  intros s Hs. rewrite <- child_canon. by apply Hch, dir_source_canon.
Qed.

End SameDirectory.

(** ** Queries on a map the builder returned *)

Lemma good_reach_same fs hcl2_loads n d d' :
  good fs hcl2_loads n d → reach fs hcl2_loads d d' → good fs hcl2_loads n d'.
Proof.
  intros Hg Hr. revert n Hg. induction Hr as [d|d s d' Hs Hr IH]; intros n Hg; [done|].
  destruct n as [|n]; [done|]. destruct Hg as [_ Hch].
  apply (good_mono fs hcl2_loads n); [|lia]. by apply IH, Hch.
Qed.

Lemma reach_isabs fs hcl2_loads d d' :
  Posixpath.isabs d = true → reach fs hcl2_loads d d' → Posixpath.isabs d' = true.
Proof. intros Hd. induction 1; [done|]. apply IHreach, isabs_child. Qed.

Lemma reach_normal fs hcl2_loads d d' :
  normal d → reach fs hcl2_loads d d' → normal d'.
Proof. intros Hd. induction 1; [done|]. apply IHreach, normal_child. Qed.

Lemma find_mods_affected_le deps limit limit' subject modules r :
  find_mods_affected limit subject modules deps = Ok r → limit ≤ limit' →
  find_mods_affected limit' subject modules deps = Ok r.
Proof.
  intros H Hle. induction Hle as [|limit' _ IH]; [done|].
  by apply find_mods_affected_more.
Qed.

Section BuiltMap.

Variable fs : filesystem.
Variable hcl2_loads : string → option tf_dict.
Variable start_dir : string.
Hypothesis start_abs : Posixpath.isabs start_dir = true.
Variable roots : list string.
Variable deps : gmap string (gset string).
Variable N : nat.

Local Abbreviation reached := (reached fs hcl2_loads start_dir roots).
Local Abbreviation above := (above fs hcl2_loads start_dir roots).

Hypothesis roots_good : ∀ r, r ∈ roots → good fs hcl2_loads N (root_dir start_dir r).
Hypothesis edges : ∀ k v, in_deps deps k v ↔ below_roots fs hcl2_loads start_dir roots k v.

Lemma reached_good d : reached d → good fs hcl2_loads N d.
Proof. intros (r & Hr & Hreach). eapply good_reach_same; [by apply roots_good|done]. Qed.

Lemma reached_normal d : reached d → normal d.
Proof.
  intros (r & Hr & Hreach). eapply reach_normal; [|done]. apply normal_root_dir.
Qed.

Lemma reached_isabs d : reached d → Posixpath.isabs d = true.
Proof.
  intros (r & Hr & Hreach). eapply reach_isabs; [|done].
  apply isabs_abspath, isabs_realpath.
Qed.

Lemma reached_child d s :
  reached d → dir_source fs hcl2_loads d s → reached (child d s).
Proof.
  intros (r & Hr & Hreach) Hs. exists r. split; [done|].
  eapply reach_trans; [done|]. eapply reach_source; [done|constructor].
Qed.

Lemma edge_inv k v :
  in_deps deps k v →
  ∃ d s, reached d ∧ dir_source fs hcl2_loads d s ∧
         k = identity start_dir (child d s) ∧ v = identity start_dir d.
Proof.
  intros (r & Hr & d & Hreach & s & Hs & -> & ->)%edges.
  exists d, s. split; [by exists r|done].
Qed.

Lemma above_dependent j k v : above j k → in_deps deps k v → above (S j) v.
Proof.
  intros Hk (d0 & s & Hd0 & Hs & -> & ->)%edge_inv d Hd Hid Hg.
  apply (identity_inj start_dir d d0 (reached_isabs d Hd) (reached_isabs d0 Hd0)) in Hid.
  apply (good_canon fs hcl2_loads d d0 (reached_normal d Hd) (reached_normal d0 Hd0) Hid)
    in Hg.
  destruct Hg as [_ Hch].
  apply (Hk (child d0 s)); [by apply reached_child|done|by apply Hch].
Qed.

Lemma above_top k v : above N k → ¬ in_deps deps k v.
Proof.
  intros Hk (d0 & s & Hd0 & Hs & -> & ->)%edge_inv.
  apply (Hk (child d0 s)); [by apply reached_child|done|].
  by apply reached_good, reached_child.
Qed.

Lemma query_returns_above m : ∀ j k modules,
  j + m = N → above j k →
  ∃ r, find_mods_affected (S m) k modules deps = Ok r.
Proof.
  induction m as [|m IH]; intros j k modules Hj Hk.
  - replace j with N in Hk by lia. cbn [find_mods_affected].
    assert (E : default ∅ (deps !! k) = (∅ : gset string)).
    { apply set_eq. intros v. split; [|by intros ?%not_elem_of_empty].
      intros Hv. by apply (above_top k v Hk) in Hv. }
    rewrite E, elements_empty. by eexists.
  - change (find_mods_affected (S (S m)) k modules deps)
      with (affected_loop (λ dep modules', find_mods_affected (S m) dep modules' deps)
              (elements (default ∅ (deps !! k))) modules).
    apply affected_loop_returns with (P := above (S j)).
    + intros dep modules' Hdep. apply (IH (S j)); [lia|done].
    + apply Forall_forall. intros dep Hdep%elem_of_elements.
      by eapply above_dependent.
Qed.

Lemma query_returns limit subject modules :
  N < limit → ∃ r, find_mods_affected limit subject modules deps = Ok r.
Proof.
  intros Hlt. destruct (query_returns_above N 0 subject modules) as [r Hr]; [lia| |].
  { by intros d _ _ ?. }
  exists r. eapply find_mods_affected_le; [done|lia].
Qed.

End BuiltMap.

Lemma build_query_returns fs hcl2_loads limit roots start_dir cwd0 deps c :
  Posixpath.isabs start_dir = true →
  build_dependency_dict fs hcl2_loads limit roots start_dir cwd0 = Ok (deps, c) →
  ∃ N, ∀ limit' subject modules, N < limit' →
    ∃ r, find_mods_affected limit' subject modules deps = Ok r.
Proof.
  intros Habs H.
  apply (build_sound fs hcl2_loads start_dir Habs) in H as (_ & Hg & He & _).
  destruct (good_common fs hcl2_loads (root_dir start_dir <$> roots)) as [N HN].
  { intros d (r & -> & Hr)%list_elem_of_fmap. by apply Hg. }
  exists N. intros limit' subject modules Hlt.
  apply (query_returns fs hcl2_loads start_dir roots deps N); [|done|done].
  intros r Hr. apply HN, list_elem_of_fmap. eauto.
Qed.

(** The map of a returning build has no cycle, so the query phase of
    [main] cannot run away: with an absolute [start_dir] there is a bound
    such that, on the returned map, every query returns a set at every
    limit on nested calls above the bound, for every subject and
    accumulator. *)
Theorem query_returns_on_built_map
    (fs : filesystem) (hcl2_loads : string → option tf_dict) (limit : nat)
    (roots : list string) (start_dir cwd0 : string)
    (deps : gmap string (gset string)) (c : string) :
  Posixpath.isabs start_dir = true →
  build_dependency_dict fs hcl2_loads limit roots start_dir cwd0 = Ok (deps, c) →
  ∃ N, ∀ limit' subject modules, N < limit' →
    ∃ r, find_mods_affected limit' subject modules deps = Ok r.
Proof. apply build_query_returns. Qed.

Lemma query_returns_on_built_map_witness :
  ∃ deps c,
    Posixpath.isabs "/repo" = true ∧
    build_dependency_dict Fixtures.repo Fixtures.repo_loads 10 ["R"] "/repo" "/repo"
    = Ok (deps, c) ∧
    ∃ N, ∀ limit' subject modules, N < limit' →
      ∃ r, find_mods_affected limit' subject modules deps = Ok r.
Proof.
  destruct (build_returns_checked Fixtures.repo Fixtures.repo_loads 3 10
              ["R"] "/repo" "/repo") as (deps & c & H);
    [reflexivity|eexists; reflexivity|vm_compute; exact eq_refl|lia|].
  exists deps, c. split; [reflexivity|]. split; [exact H|].
  exact (query_returns_on_built_map Fixtures.repo Fixtures.repo_loads 10
           ["R"] "/repo" "/repo" deps c eq_refl H).
Defined.

(** ** The query on a built map follows the references backwards *)

Section Users.

Variable fs : filesystem.
Variable hcl2_loads : string → option tf_dict.
Variable start_dir : string.
Variable roots : list string.
Variable deps : gmap string (gset string).
Hypothesis edges : ∀ k v, in_deps deps k v ↔ below_roots fs hcl2_loads start_dir roots k v.

Local Abbreviation reached := (reached fs hcl2_loads start_dir roots).
Local Abbreviation uses := (uses fs hcl2_loads).
Local Abbreviation users := (users fs hcl2_loads start_dir roots).

Lemma edge_of_source d s :
  reached d → dir_source fs hcl2_loads d s →
  in_deps deps (identity start_dir (child d s)) (identity start_dir d).
Proof.
  intros (r & Hr & Hreach) Hs. apply edges. exists r. split; [done|].
  exists d. split; [done|]. by exists s.
Qed.

Lemma affects_reach d1 d2 w :
  reach fs hcl2_loads d1 d2 → reached d1 →
  affects deps (identity start_dir d1) w → affects deps (identity start_dir d2) w.
Proof.
  induction 1 as [d|d s d' Hs Hr IH]; intros Hd Ha; [done|].
  apply IH; [by apply reached_child|].
  eapply affects_step; [by apply edge_of_source|done].
Qed.

Lemma reached_uses d1 d2 : reached d1 → uses d1 d2 → reached d2.
Proof.
  intros (r & Hr & Hreach) (s & Hs & Hr2). exists r. split; [done|].
  eapply reach_trans; [done|]. by eapply reach_source.
Qed.

Lemma users_affects d1 d2 :
  reached d1 → uses d1 d2 →
  affects deps (identity start_dir d2) (identity start_dir d1).
Proof.
  intros Hd (s & Hs & Hr).
  apply (affects_reach (child d1 s) d2); [done|by apply reached_child|].
  by apply affects_direct, edge_of_source.
Qed.

Lemma affects_users k v : affects deps k v → users k v.
Proof.
  induction 1 as [k v Hkv|k v w Hkv _ (d1 & d2 & Hd1 & Hu & -> & ->)].
  - apply (edge_inv fs hcl2_loads start_dir roots deps edges) in Hkv
      as (d & s & Hd & Hs & -> & ->).
    exists d, (child d s). split; [done|]. split; [|done].
    exists s. split; [done|constructor].
  - apply (edge_inv fs hcl2_loads start_dir roots deps edges) in Hkv
      as (d & s' & Hd & Hs' & -> & Hid).
    assert (Hd2 : reached d2) by (by eapply reached_uses).
    assert (A2 : Posixpath.isabs d2 = true) by (by eapply reached_isabs).
    assert (A : Posixpath.isabs d = true) by (by eapply reached_isabs).
    apply (identity_inj start_dir d2 d A2 A) in Hid.
    exists d1, (child d2 s'). split; [done|]. split.
    + destruct Hu as (s & Hs & Hr). exists s. split; [done|].
      eapply reach_trans; [done|].
      eapply reach_source; [|constructor].
      apply (dir_source_canon fs hcl2_loads d2 d); [|by eapply reached_normal|done..].
      by eapply reached_normal.
    + by rewrite (child_canon d2 d Hid).
Qed.

Lemma affects_iff_users k v : affects deps k v ↔ users k v.
Proof.
  split; [apply affects_users|].
  intros (d1 & d2 & Hd1 & Hu & -> & ->). by apply users_affects.
Qed.

End Users.

Lemma build_query_users fs hcl2_loads limit limit' roots start_dir cwd0 deps c
    subject modules r :
  Posixpath.isabs start_dir = true →
  build_dependency_dict fs hcl2_loads limit roots start_dir cwd0 = Ok (deps, c) →
  find_mods_affected limit' subject modules deps = Ok r →
  ∀ v, v ∈ r ↔ v ∈ modules ∨ users fs hcl2_loads start_dir roots subject v.
Proof.
  intros Habs H Hq v.
  apply (build_sound fs hcl2_loads start_dir Habs) in H as (_ & _ & He & _).
  rewrite (find_mods_affected_spec deps limit' _ _ _ Hq).
  by rewrite (affects_iff_users fs hcl2_loads start_dir roots deps He).
Qed.

(** On a map the builder returned, the query for a subject reports,
    besides its accumulator, exactly the users of the subject: the keys of
    the directories, reached from the roots, that declare a relative source
    from which a directory with the subject's key is reached. *)
Theorem query_on_built_map_finds_users
    (fs : filesystem) (hcl2_loads : string → option tf_dict) (limit limit' : nat)
    (roots : list string) (start_dir cwd0 : string)
    (deps : gmap string (gset string)) (c subject : string) (modules r : gset string) :
  Posixpath.isabs start_dir = true →
  build_dependency_dict fs hcl2_loads limit roots start_dir cwd0 = Ok (deps, c) →
  find_mods_affected limit' subject modules deps = Ok r →
  ∀ v, v ∈ r ↔ v ∈ modules ∨ users fs hcl2_loads start_dir roots subject v.
Proof. apply build_query_users. Qed.

Lemma query_on_built_map_finds_users_witness :
  ∃ deps c limit' r,
    Posixpath.isabs "/repo" = true ∧
    build_dependency_dict Fixtures.repo Fixtures.repo_loads 10 ["R"] "/repo" "/repo"
    = Ok (deps, c) ∧
    find_mods_affected limit' "C" ∅ deps = Ok r ∧
    ∀ v, v ∈ r ↔
      v ∈ (∅ : gset string) ∨
      users Fixtures.repo Fixtures.repo_loads "/repo" ["R"] "C" v.
Proof.
  destruct (build_returns_checked Fixtures.repo Fixtures.repo_loads 3 10
              ["R"] "/repo" "/repo") as (deps & c & H);
    [reflexivity|eexists; reflexivity|vm_compute; exact eq_refl|lia|].
  destruct (build_query_returns Fixtures.repo Fixtures.repo_loads 10
              ["R"] "/repo" "/repo" deps c eq_refl H) as [N HN].
  destruct (HN (S N) "C" ∅ (Nat.lt_succ_diag_r N)) as [r Hr].
  exists deps, c, (S N), r. split; [reflexivity|]. split; [exact H|].
  split; [exact Hr|].
  exact (query_on_built_map_finds_users Fixtures.repo Fixtures.repo_loads 10 (S N)
           ["R"] "/repo" "/repo" deps c "C" ∅ r eq_refl H Hr).
Defined.

(** ** [main]: discovery, build and queries together *)

Lemma components_curdir cwd0 :
  Posixpath.isabs cwd0 = true →
  Posixpath.components "/" (Posixpath.abspath cwd0 ".") = Posixpath.components "/" cwd0.
Proof.
  intros Hc. rewrite (components_abspath "/" cwd0 "." Hc).
  rewrite (components_rel cwd0 "." eq_refl Hc).
  rewrite (components_join2 "/" cwd0 "." Hc eq_refl).
  cbn. apply rev_involutive.
Qed.

Lemma realpath_same c c' p :
  Posixpath.isabs c = true → Posixpath.isabs c' = true →
  Posixpath.components "/" c = Posixpath.components "/" c' →
  realpath c p = realpath c' p.
Proof.
  intros Hc Hc' E. destruct (Posixpath.isabs p) eqn:Hp.
  - by rewrite !realpath_abs.
  - unfold realpath.
    rewrite (components_rel c p Hp Hc), (components_rel c' p Hp Hc').
    rewrite (components_join2 "/" c p Hc Hp), (components_join2 "/" c' p Hc' Hp).
    by rewrite E.
Qed.

Lemma root_dir_curdir cwd0 p :
  Posixpath.isabs cwd0 = true →
  canon (root_dir (Posixpath.abspath cwd0 ".") p) = realpath cwd0 p.
Proof.
  intros Hc. unfold root_dir.
  rewrite canon_abspath by apply isabs_realpath.
  apply realpath_same; [apply isabs_realpath|done|].
  rewrite components_canon by (by apply isabs_abspath).
  by apply components_curdir.
Qed.

(** what the working directory lists under the name [p], the directory
    that the builder expands for [p] lists too *)
Lemma listing_root_dir_curdir fs cwd0 p names :
  Posixpath.isabs cwd0 = true → listing fs cwd0 p = Some names →
  listing fs "/" (root_dir (Posixpath.abspath cwd0 ".") p) = Some names.
Proof.
  intros Hc (q & Hq & Hn)%listing_Some. unfold listing.
  rewrite (resolve_normal_resolved fs cwd0 p q "/" _ Hq); [done|apply normal_root_dir|].
  rewrite root_dir_curdir by done. symmetry.
  by apply (resolve_realpath fs cwd0 p q (or_introl Hc)).
Qed.

Lemma get_tf_files_listed fs d st names :
  Posixpath.isabs d = true → listing fs "/" d = Some names →
  get_tf_files fs d st = Ok (List.filter (Str.endswith ".tf") names, st).
Proof.
  intros Hd Hl. rewrite (get_tf_files_abs fs d st Hd). unfold tf_files.
  by rewrite Hl.
Qed.

Lemma query_each_Ok limit deps : ∀ mods results,
  query_each limit mods deps = Ok results →
  Forall2 (λ m dmods, find_mods_affected limit m ∅ deps = Ok dmods) mods results.
Proof.
  induction mods as [|m mods IH]; intros results; cbn [query_each].
  - intros [= <-]. constructor.
  - destruct (find_mods_affected limit m ∅ deps) as [dmods|] eqn:E; [|done].
    destruct (query_each limit mods deps) as [rest|]; [|done].
    intros [= <-]. constructor; [done|by apply IH].
Qed.

Lemma main_Ok fs hcl2_loads limit root_path mods cwd0 results :
  main fs hcl2_loads limit root_path mods cwd0 = Ok results →
  ∃ roots deps c,
    get_root_paths fs limit root_path {| cwd := cwd0; dependents := ∅; cache := [] |}
    = Ok (roots, {| cwd := cwd0; dependents := ∅; cache := [] |}) ∧
    build_dependency_dict fs hcl2_loads limit roots (Posixpath.abspath cwd0 ".") cwd0
    = Ok (deps, c) ∧
    query_each limit mods deps = Ok results.
Proof.
  unfold main.
  destruct (get_root_paths _ _ _ _) as [[roots st]|] eqn:Hg; [|done].
  destruct (get_root_paths_Ok _ _ _ _ _ _ Hg) as (-> & _). cbn [cwd].
  destruct (build_dependency_dict _ _ _ _ _ _) as [[deps c]|] eqn:Hb; [|done].
  intros Hq. by exists roots, deps, c.
Qed.

(** Every root that [get_root_paths] returns for a path given relative to
    the working directory is found again by the builder when [start_dir] is
    [os.path.abspath(os.path.curdir)], as in [main]: the directory the
    builder expands for it can be listed and has a [.tf] file, so the
    builder's [get_tf_files] does not raise on a discovered root and
    returns a list that is not empty. *)
Theorem builder_lists_discovered_roots
    (fs : filesystem) (limit : nat) (root_path : string) (st st' : state)
    (roots : list string) :
  Posixpath.isabs (cwd st) = true →
  get_root_paths fs limit root_path st = Ok (roots, st') →
  ∀ r st'', r ∈ roots →
    ∃ files fl,
      get_tf_files fs (root_dir (Posixpath.abspath (cwd st) ".") r) st''
      = Ok (files, st'') ∧ fl ∈ files.
Proof.
  intros Hc H r st'' Hr.
  apply get_root_paths_Ok in H as (_ & _ & Hroots).
  apply Hroots in Hr as [_ (_ & names & fl & data & Hl & Hfl & _ & Htf & _)].
  exists (List.filter (Str.endswith ".tf") names), fl. split.
  - apply get_tf_files_listed; [apply isabs_abspath, isabs_realpath|].
    by apply listing_root_dir_curdir.
  - apply list_elem_of_In, filter_In. split; [by apply list_elem_of_In|done].
Qed.

Lemma builder_lists_discovered_roots_witness :
  Posixpath.isabs (cwd Estate.at_root) = true ∧
  get_root_paths Estate.tree 10 "repo" Estate.at_root
  = Ok (["repo/roots/prod"; "repo"], Estate.at_root) ∧
  ∀ r st'', r ∈ ["repo/roots/prod"; "repo"] →
    ∃ files fl,
      get_tf_files Estate.tree (root_dir (Posixpath.abspath (cwd Estate.at_root) ".") r) st''
      = Ok (files, st'') ∧ fl ∈ files.
Proof.
  assert (H : get_root_paths Estate.tree 10 "repo" Estate.at_root
              = Ok (["repo/roots/prod"; "repo"], Estate.at_root))
    by (vm_compute; exact eq_refl).
  split; [reflexivity|]. split; [exact H|].
  exact (builder_lists_discovered_roots Estate.tree 10 "repo" Estate.at_root
           Estate.at_root _ eq_refl H).
Defined.

(** When [main] returns, the set it found for each module asked is exactly
    the set of users of that module among the directories reached from the
    discovered roots: the roots are the directories of the walk from
    [root_path] that have a backend, and a key is reported for a module
    exactly when its directory, reached from a root, declares a relative
    source from which a directory with the module's key is reached. Keys
    are taken relative to [os.path.abspath(os.path.curdir)]. *)
Theorem main_reports_users_of_each_module
    (fs : filesystem) (hcl2_loads : string → option tf_dict) (limit : nat)
    (root_path : string) (mods : list string) (cwd0 : string)
    (results : list (gset string)) :
  Posixpath.isabs cwd0 = true →
  main fs hcl2_loads limit root_path mods cwd0 = Ok results →
  ∃ roots,
    NoDup roots ∧
    (∀ p, p ∈ roots ↔ walked fs cwd0 root_path p ∧ is_root fs cwd0 p) ∧
    Forall2 (λ m dmods, ∀ v, v ∈ dmods ↔
               users fs hcl2_loads (Posixpath.abspath cwd0 ".") roots m v)
      mods results.
Proof.
  intros Hc (roots & deps & c & Hg & Hb & Hq)%main_Ok.
  exists roots. apply get_root_paths_Ok in Hg as (_ & Hnd & Hroots).
  split; [done|]. split; [done|].
  apply query_each_Ok in Hq.
  eapply Forall2_impl; [exact Hq|]. intros m dmods Hm v. cbn beta in Hm.
  rewrite (build_query_users fs hcl2_loads limit limit roots _ cwd0 deps c m ∅ dmods
             (isabs_abspath cwd0 "." Hc) Hb Hm v).
  rewrite elem_of_empty. tauto.
Qed.

Lemma main_reports_users_of_each_module_witness :
  ∃ results,
    Posixpath.isabs "/repo" = true ∧
    main Stack.tree Stack.loads 10 "roots" ["modules/net"; "modules/vpc"] "/repo"
    = Ok results ∧
    Stack.found (Ok results) = Some [["modules/vpc"; "roots/prod"]; ["roots/prod"]] ∧
    ∃ roots,
      NoDup roots ∧
      (∀ p, p ∈ roots ↔ walked Stack.tree "/repo" "roots" p ∧ is_root Stack.tree "/repo" p) ∧
      Forall2 (λ m dmods, ∀ v, v ∈ dmods ↔
                 users Stack.tree Stack.loads (Posixpath.abspath "/repo" ".") roots m v)
        ["modules/net"; "modules/vpc"] results.
Proof.
  assert (F : Stack.found
                (main Stack.tree Stack.loads 10 "roots" ["modules/net"; "modules/vpc"] "/repo")
              = Some [["modules/vpc"; "roots/prod"]; ["roots/prod"]])
    by (vm_compute; exact eq_refl).
  remember (main Stack.tree Stack.loads 10 "roots" ["modules/net"; "modules/vpc"] "/repo")
    as m eqn:E.
  destruct m as [results|e]; [|discriminate F].
  exists results. split; [reflexivity|]. split; [reflexivity|]. split; [exact F|].
  exact (main_reports_users_of_each_module Stack.tree Stack.loads 10 "roots"
           ["modules/net"; "modules/vpc"] "/repo" results eq_refl (eq_sym E)).
Defined.
